(** * SimpleSqlBuilder: a shallow embedding of [SimpleSqlBuilder.js]

    The class is embedded method by method.  JavaScript values are a
    small tagged union, the builder instance ([this]) is a record that
    is threaded through a state-and-exception monad, and the three
    regular expressions of the source are written out as scanners.

    Modelling boundaries, fixed once and for all:
    - strings are sequences of 8-bit code units; [toUpperCase] is the
      ASCII one, so letters outside ASCII keep their case;
    - numbers are integers, printed in decimal: this is [String] for
      the integers of the safe range (up to [2^53 - 1] either way),
      and a statement that prints or parses a number is made for
      those;
    - an object is the list of its own enumerable properties in
      enumeration order, which is the order of writing as long as no
      key is an array index; properties inherited from a prototype are
      not part of a value;
    - the parameter store [sql_params] is the list of the properties
      that [params] wrote; the [length] of the array behind it and the
      members it inherits are not represented, so a statement about a
      named parameter is made for the names that were written;
    - values have no identity: [processConditions] renames the key of
      a group object in the object itself, which the instance and the
      caller share; here the renamed properties are local to the call,
      so a statement gives the text and the cursor of a compilation and
      not the condition objects the instance holds afterwards. *)

From Stdlib Require Import String Ascii List ZArith Bool Arith Lia.
From Stdlib Require Import DecimalString DecimalNat.
From Stdlib Require DecimalPos.
Import ListNotations.
Open Scope string_scope.

(** ** Strings *)

Definition chr (n : nat) : string := String (ascii_of_nat n) EmptyString.

Definition backslash : string := chr 92.
Definition dquote : string := chr 34.
Definition squote : string := "'".
Definition backtick : string := "`".
Definition newline : string := chr 10.

Definition in_range (lo hi : nat) (c : ascii) : bool :=
  let n := nat_of_ascii c in ((lo <=? n) && (n <=? hi))%nat.

(** The class [a-zA-Z_0-9]. *)
Definition is_word (c : ascii) : bool :=
  in_range 97 122 c || in_range 65 90 c || (nat_of_ascii c =? 95)%nat || in_range 48 57 c.

(** The class [a-zA-Z_0-9*]. *)
Definition is_word_or_star (c : ascii) : bool :=
  is_word c || (nat_of_ascii c =? 42)%nat.

Fixpoint prefix_len (p : ascii -> bool) (s : string) : nat :=
  match s with
  | String c rest => if p c then S (prefix_len p rest) else 0
  | EmptyString => 0
  end.

Fixpoint drop (n : nat) (s : string) : string :=
  match n, s with
  | S k, String _ rest => drop k rest
  | _, _ => s
  end.

Fixpoint forallb_str (p : ascii -> bool) (s : string) : bool :=
  match s with
  | String c rest => p c && forallb_str p rest
  | EmptyString => true
  end.

Fixpoint chars (s : string) : list string :=
  match s with
  | String c rest => String c EmptyString :: chars rest
  | EmptyString => []
  end.

(** [String.prototype.slice(from, to)] for [0 <= from] and [0 <= to]. *)
Definition slice_str (s : string) (from to : nat) : string :=
  substring from (to - from) s.

(** [String.prototype.indexOf(' ') == -1]. *)
Definition no_space (s : string) : bool :=
  forallb_str (fun c => negb (nat_of_ascii c =? 32)%nat) s.

Definition upper_char (c : ascii) : ascii :=
  if in_range 97 122 c then ascii_of_nat (nat_of_ascii c - 32) else c.

Fixpoint toUpperCase (s : string) : string :=
  match s with
  | String c rest => String (upper_char c) (toUpperCase rest)
  | EmptyString => EmptyString
  end.

(** [Array.prototype.join] on elements already turned into text. *)
Fixpoint join (sep : string) (l : list string) : string :=
  match l with
  | [] => ""
  | [x] => x
  | x :: rest => x ++ sep ++ join sep rest
  end.

Definition string_of_nat (n : nat) : string :=
  NilEmpty.string_of_uint (Nat.to_uint n).

Definition string_of_Z (n : Z) : string :=
  NilZero.string_of_int (Z.to_int n).

(** ** JavaScript values *)

Set Warnings "-register-all".

Inductive JSValue : Type :=
| VUndefined
| VNull
| VBool (b : bool)
| VNum (n : Z)
| VStr (s : string)
| VArr (items : list JSValue)
| VObj (props : list (string * JSValue)).

(** [typeof v]. *)
Definition typeof (v : JSValue) : string :=
  match v with
  | VUndefined => "undefined"
  | VNull => "object"
  | VBool _ => "boolean"
  | VNum _ => "number"
  | VStr _ => "string"
  | VArr _ => "object"
  | VObj _ => "object"
  end.

Definition is_null (v : JSValue) : bool :=
  match v with VNull => true | _ => false end.

(** [String(v)]. *)
Fixpoint js_String (v : JSValue) : string :=
  match v with
  | VUndefined => "undefined"
  | VNull => "null"
  | VBool true => "true"
  | VBool false => "false"
  | VNum n => string_of_Z n
  | VStr s => s
  | VArr items =>
      join "," (map (fun x => match x with
                              | VNull | VUndefined => ""
                              | _ => js_String x
                              end) items)
  | VObj _ => "[object Object]"
  end.

(** [items.join(sep)]: [null] and [undefined] elements give no text. *)
Definition js_join (sep : string) (items : list JSValue) : string :=
  join sep (map (fun x => match x with
                          | VNull | VUndefined => ""
                          | _ => js_String x
                          end) items).

(** Truthiness, as used by [alias ? ... : ...] and [.length] tests. *)
Definition truthy (v : JSValue) : bool :=
  match v with
  | VUndefined | VNull => false
  | VBool b => b
  | VNum n => negb (n =? 0)%Z
  | VStr s => negb (s =? "")
  | VArr _ | VObj _ => true
  end.

Fixpoint index_from {A : Type} (i : nat) (l : list A) : list (string * A) :=
  match l with
  | [] => []
  | x :: rest => (string_of_nat i, x) :: index_from (S i) rest
  end.

(** The (key, value) pairs a [for (let i in v)] loop walks through,
    reading [v[i]] at each step. *)
Definition entries (v : JSValue) : list (string * JSValue) :=
  match v with
  | VArr items => index_from 0 items
  | VObj props => props
  | VStr s => index_from 0 (map VStr (chars s))
  | _ => []
  end.

Fixpoint assoc {A : Type} (k : string) (l : list (string * A)) : option A :=
  match l with
  | [] => None
  | (k', x) :: rest => if k' =? k then Some x else assoc k rest
  end.

Definition has_key {A : Type} (k : string) (l : list (string * A)) : bool :=
  match assoc k l with Some _ => true | None => false end.

(** [o[k] = x]: an existing key keeps its place. *)
Fixpoint assoc_set {A : Type} (k : string) (x : A) (l : list (string * A))
  : list (string * A) :=
  match l with
  | [] => [(k, x)]
  | (k', y) :: rest =>
      if k' =? k then (k', x) :: rest else (k', y) :: assoc_set k x rest
  end.

(** [delete o[k]]. *)
Fixpoint assoc_delete {A : Type} (k : string) (l : list (string * A))
  : list (string * A) :=
  match l with
  | [] => []
  | (k', y) :: rest =>
      if k' =? k then assoc_delete k rest else (k', y) :: assoc_delete k rest
  end.

(** [v[k]] where the source has already made sure that [v] is neither
    [null] nor [undefined]. *)
Definition js_get (v : JSValue) (k : string) : JSValue :=
  match assoc k (entries v) with
  | Some x => x
  | None => VUndefined
  end.

(** [k in v]; [None] is the TypeError raised on a primitive.  The
    source asks it of payloads for fixed names and for the indexes 0
    and 1 only. *)
Definition js_in (k : string) (v : JSValue) : option bool :=
  match v with
  | VArr _ | VObj _ => Some (has_key k (entries v))
  | _ => None
  end.

(** [Array.prototype.slice(from, to)]. *)
Definition slice_list {A : Type} (l : list A) (from to : nat) : list A :=
  firstn (to - from) (skipn from l).

(** [SameValueZero] against a string, for [includes]. *)
Definition is_string (s : string) (v : JSValue) : bool :=
  match v with
  | VStr t => t =? s
  | _ => false
  end.

Definition includes (l : list JSValue) (s : string) : bool :=
  existsb (is_string s) l.

(** ** The builder instance and the monad it is threaded through *)

Record Builder : Type := mkBuilder {
  sql_select : JSValue;
  sql_insert : JSValue;
  sql_update : JSValue;
  sql_delete : JSValue;
  sql_where : list JSValue;
  sql_joins : list JSValue;
  sql_having : list JSValue;
  sql_group : list JSValue;
  sql_order : list JSValue;
  sql_limit : option string;
  sql_mode : option string;
  sql_params : list (string * JSValue);
  sql_identifiers : list JSValue;
  sql_param_counter : nat
}.

(** [constructor()]. *)
Definition constructor : Builder :=
  {| sql_select := VArr [];
     sql_insert := VArr [];
     sql_update := VArr [];
     sql_delete := VArr [];
     sql_where := [];
     sql_joins := [];
     sql_having := [];
     sql_group := [];
     sql_order := [];
     sql_limit := None;
     sql_mode := None;
     sql_params := [];
     sql_identifiers := [];
     sql_param_counter := 0 |}.

(** What a [throw] carries.  [RecursionLimit] is the exhaustion of the
    depth bound of [processConditions_at]; [processConditions] never
    produces it (lemma [processConditions_no_limit]). *)
Inductive JSError : Type :=
| Error (msg : string)
| TypeError (msg : string)
| RecursionLimit.

(** A method call either returns a value or throws; in both cases the
    instance keeps the mutations made so far. *)
Inductive Outcome (A : Type) : Type :=
| Ok (a : A) (this : Builder)
| Throw (e : JSError) (this : Builder).

Arguments Ok {A} a this.
Arguments Throw {A} e this.

Definition M (A : Type) : Type := Builder -> Outcome A.

Definition ret {A : Type} (a : A) : M A := fun this => Ok a this.

Definition throw {A : Type} (e : JSError) : M A := fun this => Throw e this.

Definition bind {A B : Type} (m : M A) (k : A -> M B) : M B :=
  fun this =>
    match m this with
    | Ok a this' => k a this'
    | Throw e this' => Throw e this'
    end.

Definition gets {A : Type} (f : Builder -> A) : M A := fun this => Ok (f this) this.

Definition modify (f : Builder -> Builder) : M unit := fun this => Ok tt (f this).

Declare Scope js_scope.
Delimit Scope js_scope with js.
Notation "x <- m ;; k" := (bind m (fun x => k))
  (at level 61, m at next level, right associativity) : js_scope.
Notation "m ;;; k" := (bind m (fun _ => k))
  (at level 61, right associativity) : js_scope.
Open Scope js_scope.

(** A [for ... in] loop whose body pushes onto one result array. *)
Fixpoint for_each {A B : Type} (l : list A) (body : A -> M (list B)) : M (list B) :=
  match l with
  | [] => ret []
  | x :: rest =>
      pushed <- body x ;;
      more <- for_each rest body ;;
      ret (pushed ++ more)%list
  end.

(** A [for ... in] loop run for its effect on the instance. *)
Fixpoint for_each_ {A : Type} (l : list A) (body : A -> M unit) : M unit :=
  match l with
  | [] => ret tt
  | x :: rest => body x ;;; for_each_ rest body
  end.

Definition set_param_counter (n : nat) (b : Builder) : Builder :=
  {| sql_select := sql_select b; sql_insert := sql_insert b;
     sql_update := sql_update b; sql_delete := sql_delete b;
     sql_where := sql_where b; sql_joins := sql_joins b;
     sql_having := sql_having b; sql_group := sql_group b;
     sql_order := sql_order b; sql_limit := sql_limit b;
     sql_mode := sql_mode b; sql_params := sql_params b;
     sql_identifiers := sql_identifiers b; sql_param_counter := n |}.

Definition set_identifiers (l : list JSValue) (b : Builder) : Builder :=
  {| sql_select := sql_select b; sql_insert := sql_insert b;
     sql_update := sql_update b; sql_delete := sql_delete b;
     sql_where := sql_where b; sql_joins := sql_joins b;
     sql_having := sql_having b; sql_group := sql_group b;
     sql_order := sql_order b; sql_limit := sql_limit b;
     sql_mode := sql_mode b; sql_params := sql_params b;
     sql_identifiers := l; sql_param_counter := sql_param_counter b |}.

Definition set_params (l : list (string * JSValue)) (b : Builder) : Builder :=
  {| sql_select := sql_select b; sql_insert := sql_insert b;
     sql_update := sql_update b; sql_delete := sql_delete b;
     sql_where := sql_where b; sql_joins := sql_joins b;
     sql_having := sql_having b; sql_group := sql_group b;
     sql_order := sql_order b; sql_limit := sql_limit b;
     sql_mode := sql_mode b; sql_params := l;
     sql_identifiers := sql_identifiers b;
     sql_param_counter := sql_param_counter b |}.

Definition set_where (l : list JSValue) (b : Builder) : Builder :=
  {| sql_select := sql_select b; sql_insert := sql_insert b;
     sql_update := sql_update b; sql_delete := sql_delete b;
     sql_where := l; sql_joins := sql_joins b;
     sql_having := sql_having b; sql_group := sql_group b;
     sql_order := sql_order b; sql_limit := sql_limit b;
     sql_mode := sql_mode b; sql_params := sql_params b;
     sql_identifiers := sql_identifiers b;
     sql_param_counter := sql_param_counter b |}.

Definition set_having (l : list JSValue) (b : Builder) : Builder :=
  {| sql_select := sql_select b; sql_insert := sql_insert b;
     sql_update := sql_update b; sql_delete := sql_delete b;
     sql_where := sql_where b; sql_joins := sql_joins b;
     sql_having := l; sql_group := sql_group b;
     sql_order := sql_order b; sql_limit := sql_limit b;
     sql_mode := sql_mode b; sql_params := sql_params b;
     sql_identifiers := sql_identifiers b;
     sql_param_counter := sql_param_counter b |}.

Definition set_group (l : list JSValue) (b : Builder) : Builder :=
  {| sql_select := sql_select b; sql_insert := sql_insert b;
     sql_update := sql_update b; sql_delete := sql_delete b;
     sql_where := sql_where b; sql_joins := sql_joins b;
     sql_having := sql_having b; sql_group := l;
     sql_order := sql_order b; sql_limit := sql_limit b;
     sql_mode := sql_mode b; sql_params := sql_params b;
     sql_identifiers := sql_identifiers b;
     sql_param_counter := sql_param_counter b |}.

Definition set_order (l : list JSValue) (b : Builder) : Builder :=
  {| sql_select := sql_select b; sql_insert := sql_insert b;
     sql_update := sql_update b; sql_delete := sql_delete b;
     sql_where := sql_where b; sql_joins := sql_joins b;
     sql_having := sql_having b; sql_group := sql_group b;
     sql_order := l; sql_limit := sql_limit b;
     sql_mode := sql_mode b; sql_params := sql_params b;
     sql_identifiers := sql_identifiers b;
     sql_param_counter := sql_param_counter b |}.

Definition set_joins (l : list JSValue) (b : Builder) : Builder :=
  {| sql_select := sql_select b; sql_insert := sql_insert b;
     sql_update := sql_update b; sql_delete := sql_delete b;
     sql_where := sql_where b; sql_joins := l;
     sql_having := sql_having b; sql_group := sql_group b;
     sql_order := sql_order b; sql_limit := sql_limit b;
     sql_mode := sql_mode b; sql_params := sql_params b;
     sql_identifiers := sql_identifiers b;
     sql_param_counter := sql_param_counter b |}.

Definition set_limit (l : option string) (b : Builder) : Builder :=
  {| sql_select := sql_select b; sql_insert := sql_insert b;
     sql_update := sql_update b; sql_delete := sql_delete b;
     sql_where := sql_where b; sql_joins := sql_joins b;
     sql_having := sql_having b; sql_group := sql_group b;
     sql_order := sql_order b; sql_limit := l;
     sql_mode := sql_mode b; sql_params := sql_params b;
     sql_identifiers := sql_identifiers b;
     sql_param_counter := sql_param_counter b |}.

Definition set_mode (mode : string) (b : Builder) : Builder :=
  {| sql_select := sql_select b; sql_insert := sql_insert b;
     sql_update := sql_update b; sql_delete := sql_delete b;
     sql_where := sql_where b; sql_joins := sql_joins b;
     sql_having := sql_having b; sql_group := sql_group b;
     sql_order := sql_order b; sql_limit := sql_limit b;
     sql_mode := Some mode; sql_params := sql_params b;
     sql_identifiers := sql_identifiers b;
     sql_param_counter := sql_param_counter b |}.

(** [this.sql_select = spec], and likewise for the other three
    statements, chosen by [mode]. *)
Definition set_statement (mode : string) (spec : JSValue) (b : Builder) : Builder :=
  {| sql_select := if mode =? "select" then spec else sql_select b;
     sql_insert := if mode =? "insert" then spec else sql_insert b;
     sql_update := if mode =? "update" then spec else sql_update b;
     sql_delete := if mode =? "delete" then spec else sql_delete b;
     sql_where := sql_where b; sql_joins := sql_joins b;
     sql_having := sql_having b; sql_group := sql_group b;
     sql_order := sql_order b; sql_limit := sql_limit b;
     sql_mode := sql_mode b; sql_params := sql_params b;
     sql_identifiers := sql_identifiers b;
     sql_param_counter := sql_param_counter b |}.

(** ** [sqlEscape] *)

(** The character class of [reg]: NUL, backspace, tab, newline,
    carriage return, 0x1a, double quote, single quote, backslash. *)
Definition special (c : ascii) : bool :=
  let n := nat_of_ascii c in
  ((n =? 0) || (n =? 8) || (n =? 9) || (n =? 10) || (n =? 13) || (n =? 26)
   || (n =? 34) || (n =? 39) || (n =? 92))%nat.

(** The object [map], read at a matched character. *)
Definition escape_map (c : ascii) : string :=
  let n := nat_of_ascii c in
  if (n =? 0)%nat then backslash ++ "0"
  else if (n =? 8)%nat then backslash ++ "b"
  else if (n =? 9)%nat then backslash ++ "t"
  else if (n =? 10)%nat then backslash ++ "n"
  else if (n =? 13)%nat then backslash ++ "r"
  else if (n =? 26)%nat then backslash ++ "Z"
  else if (n =? 34)%nat then backslash ++ dquote
  else if (n =? 39)%nat then backslash ++ squote
  else if (n =? 92)%nat then backslash ++ backslash
  else "undefined".

(** The successive results of [reg.exec] on [s], as (index, matched
    character), [i] being the index of the first character of [s]. *)
Fixpoint special_matches (s : string) (i : nat) : list (nat * ascii) :=
  match s with
  | String c rest =>
      if special c then (i, c) :: special_matches rest (S i)
      else special_matches rest (S i)
  | EmptyString => []
  end.

(** The body of [sqlEscape] for a value whose text is [src] and whose
    own [slice] and [length] are given. *)
Definition sqlEscape_with (slice : nat -> nat -> string) (len : nat) (src : string)
  : string :=
  let '(chunk, escaped) :=
    fold_left
      (fun (st : nat * string) (m : nat * ascii) =>
         let '(chunk, escaped) := st in
         let '(index, c) := m in
         (S index, escaped ++ slice chunk index ++ escape_map c))
      (special_matches src 0) (0, "") in
  if (chunk =? 0)%nat then src
  else if (chunk <? len)%nat then escaped ++ slice chunk len
  else escaped.

(** [sqlEscape(val)] for a string [val]. *)
Definition sqlEscape (val : string) : string :=
  sqlEscape_with (slice_str val) (String.length val) val.

(** [sqlEscape(val)] for any value, as text.  An array has a [slice] of
    its own; a value without [slice] throws at the first match. *)
Definition sqlEscape_any (val : JSValue) : M string :=
  match val with
  | VStr s => ret (sqlEscape s)
  | VArr items =>
      ret (sqlEscape_with
             (fun from to => js_String (VArr (slice_list items from to)))
             (List.length items) (js_String val))
  | _ =>
      match special_matches (js_String val) 0 with
      | [] => ret (js_String val)
      | _ :: _ => throw (TypeError "val.slice is not a function")
      end
  end.

(** ** [identifier] *)

(** Global [replace] with a callback: [match_at] tells whether the
    pattern matches at the head of its argument and, if so, the length
    of the match, the text the callback returns and whether the
    callback sets [modified]. *)
Fixpoint replace_all (match_at : string -> option (nat * string * bool))
         (s : string) (skip : nat) : string * bool :=
  match s with
  | EmptyString => ("", false)
  | String c rest =>
      match skip with
      | S k => replace_all match_at rest k
      | O =>
          match match_at s with
          | Some (len, text, flag) =>
              let '(out, more) := replace_all match_at rest (len - 1) in
              (text ++ out, flag || more)
          | None =>
              let '(out, more) := replace_all match_at rest 0 in
              (String c out, more)
          end
      end
  end.

(** A match of [[a-zA-Z_0-9]+\.[a-zA-Z_0-9*]+] at the head of [s]: the
    lengths of its two words. *)
Definition dotted_at (s : string) : option (nat * nat) :=
  match prefix_len is_word s with
  | O => None
  | n =>
      match drop n s with
      | String c rest =>
          if (nat_of_ascii c =? 46)%nat then
            match prefix_len is_word_or_star rest with
            | O => None
            | m => Some (n, m)
            end
          else None
      | EmptyString => None
      end
  end.

Definition quote_word (w : string) : string :=
  if w =? "*" then w else backtick ++ sqlEscape w ++ backtick.

(** The first [replace] of [identifier] with its callback. *)
Definition dotted_callback (this : Builder) (s : string)
  : option (nat * string * bool) :=
  match dotted_at s with
  | Some (n, m) =>
      let whole := substring 0 (n + 1 + m) s in
      let words := [substring 0 n s; substring (n + 1) m s] in
      if negb (includes (sql_identifiers this) (substring 0 n s))
      then Some (n + 1 + m, whole, false)
      else Some (n + 1 + m, join "." (map quote_word words), true)
  | None => None
  end.

(** The second [replace]: [(as|AS) ([a-zA-Z0-9_]+)]. *)
Definition as_callback (s : string) : option (nat * string * bool) :=
  if (substring 0 3 s =? "as ") || (substring 0 3 s =? "AS ") then
    match prefix_len is_word (drop 3 s) with
    | O => None
    | n =>
        let column := substring 3 n s in
        Some (3 + n, "AS " ++ backtick ++ sqlEscape column ++ backtick, true)
    end
  else None.

(** [identifier(val, force_quote)]; it reads the registry and changes
    nothing. *)
Definition identifier (this : Builder) (val : JSValue) (force_quote : bool) : string :=
  let '(val1, modified1) := replace_all (dotted_callback this) (js_String val) 0 in
  let '(val2, modified2) := replace_all as_callback val1 0 in
  if negb (modified1 || modified2) && force_quote && no_space val2
  then backtick ++ sqlEscape val2 ++ backtick
  else val2.

(** ** [quote] and [identifierOrQuote] *)

(** [quote(val, force_quote)].  The [case 'bool'] of the source is kept:
    [typeof] never yields that string. *)
Definition quote (val : JSValue) (force_quote : bool) : M string :=
  let t := typeof val in
  if t =? "bool" then ret (if truthy val then "1" else "0")
  else if t =? "number" then
    ret (if force_quote then squote ++ js_String val ++ squote else js_String val)
  else if t =? "object" then
    ret (if is_null val then "NULL" else "")
  else
    escaped <- sqlEscape_any val ;;
    ret (squote ++ escaped ++ squote).

(** The first match of [\?\:([a-zA-Z_0-9]+)], without its [?:]. *)
Definition named_at (s : string) : option string :=
  if substring 0 2 s =? "?:" then
    match prefix_len is_word (drop 2 s) with
    | O => None
    | n => Some (substring 2 n s)
    end
  else None.

Fixpoint first_named (s : string) : option string :=
  match s with
  | EmptyString => None
  | String _ rest =>
      match named_at s with
      | Some name => Some name
      | None => first_named rest
      end
  end.

(** [identifierOrQuote(val, force_quote)]. *)
Definition identifierOrQuote (val : JSValue) (force_quote : bool) : M string :=
  fun this =>
    let t := typeof val in
    if t =? "bool" then ret (if truthy val then "1" else "0") this
    else if t =? "number" then
      ret (if force_quote then squote ++ js_String val ++ squote else js_String val) this
    else if (t =? "object") && is_null val then ret "NULL" this
    else
      let counter := sql_param_counter this in
      if is_string "?" val && has_key (string_of_nat counter) (sql_params this) then
        let param := match assoc (string_of_nat counter) (sql_params this) with
                     | Some x => x
                     | None => VUndefined
                     end in
        quote param force_quote (set_param_counter (S counter) this)
      else
        match first_named (js_String val) with
        | Some name =>
            match assoc name (sql_params this) with
            | Some param => quote param force_quote this
            | None => ret (identifier this val force_quote) this
            end
        | None => ret (identifier this val force_quote) this
        end.

(** ** The condition compiler *)

(** An element of the array [processConditions] returns: a string, or
    the [null] that [processCondition] may return. *)
Definition Fragment : Type := option string.

Definition fragment_text (f : Fragment) : string :=
  match f with
  | Some s => s
  | None => ""
  end.

(** [list.join(sep)] on an array of fragments. *)
Definition join_fragments (sep : string) (l : list Fragment) : string :=
  join sep (map fragment_text l).

(** [processCondition(condition)]. *)
Definition processCondition (condition : list JSValue) : M Fragment :=
  match condition with
  | [column; operator; value] =>
      let compare (sql : string) : M Fragment :=
        l <- identifierOrQuote column false ;;
        r <- identifierOrQuote value false ;;
        ret (Some (l ++ sql ++ r)) in
      let member (sql : string) : M Fragment :=
        if negb (typeof value =? "object") then ret None
        else
          vals <- for_each (entries value)
                    (fun entry => v <- identifierOrQuote (snd entry) true ;; ret [v]) ;;
          l <- identifierOrQuote column false ;;
          ret (Some (l ++ sql ++ "(" ++ join "," vals ++ ")")) in
      let like (before after : string) : M Fragment :=
        l <- identifierOrQuote column false ;;
        escaped <- sqlEscape_any value ;;
        ret (Some (l ++ " LIKE '" ++ before ++ escaped ++ after ++ "'")) in
      if is_string "=" operator then compare " = "
      else if is_string "<=" operator then compare " <= "
      else if is_string ">=" operator then compare " >= "
      else if is_string "<" operator then compare " < "
      else if is_string ">" operator then compare " > "
      else if is_string "!=" operator then compare " != "
      else if is_string "<>" operator then compare " != "
      else if is_string "is" operator then compare " IS "
      else if is_string "is not" operator then compare " IS NOT "
      else if is_string "between" operator then
        if negb (typeof value =? "object") then ret None
        else
          vals <- for_each (entries value)
                    (fun entry => v <- identifierOrQuote (VStr (fst entry)) false ;; ret [v]) ;;
          l <- identifierOrQuote column false ;;
          ret (Some (l ++ " BETWEEN " ++ join " AND " vals))
      else if is_string "in" operator then member " IN "
      else if is_string "not in" operator then member " NOT IN "
      else if is_string "contains" operator then like "%" "%"
      else if is_string "begins" operator then like "" "%"
      else if is_string "ends" operator then like "%" ""
      else if is_string "in set" operator then
        l <- identifierOrQuote column false ;;
        r <- quote value false ;;
        ret (Some ("FIND_IN_SET(" ++ l ++ ", " ++ r ++ ")"))
      else throw (Error "Condition: Unknown clause")
  | _ => ret None
  end.

(** [[...v]]. *)
Definition spread (v : JSValue) : M JSValue :=
  match v with
  | VArr items => ret (VArr items)
  | VStr s => ret (VArr (map VStr (chars s)))
  | _ => throw (TypeError "value is not iterable")
  end.

(** The key normalisation of a group object, on its property list.
    The source rewrites the object in place; values carry no identity
    here, so the rewritten properties are local to the call. *)
Definition uppercase_key (o : list (string * JSValue)) : M (list (string * JSValue)) :=
  if has_key "and" o then
    copy <- spread (js_get (VObj o) "and") ;;
    ret (assoc_delete "and" (assoc_set "AND" copy o))
  else if has_key "or" o then
    copy <- spread (js_get (VObj o) "or") ;;
    ret (assoc_delete "or" (assoc_set "OR" copy o))
  else ret o.

(** [processConditions(conditions)], with a bound on the depth of the
    recursive calls. *)
Fixpoint processConditions_at (depth : nat) (conditions : JSValue) : M (list Fragment) :=
  for_each (entries conditions)
    (fun entry =>
       let cond := snd entry in
       match cond with
       | VArr [c0; c1; c2] =>
           f <- processCondition [c0; c1; c2] ;;
           ret [f]
       | VArr _ | VObj _ =>
           o <- uppercase_key (entries cond) ;;
           let combine := if has_key "OR" o then "OR" else "AND" in
           match depth with
           | O => throw RecursionLimit
           | S d =>
               conds <- processConditions_at d (js_get (VObj o) combine) ;;
               ret [Some ("(" ++ join_fragments (" " ++ combine ++ " ") conds ++ ")")]
           end
       | VStr raw => ret [Some raw]
       | _ => ret []
       end).

(** How deep arrays and objects are nested in a value. *)
Fixpoint nesting (v : JSValue) : nat :=
  match v with
  | VArr items => S (list_max (map nesting items))
  | VObj props => S (list_max (map (fun kv => nesting (snd kv)) props))
  | _ => 0
  end.

Definition processConditions (conditions : JSValue) : M (list Fragment) :=
  processConditions_at (nesting conditions) conditions.

(** ** Columns, values and tables *)

(** [processColumns(columns)]. *)
Definition processColumns (columns : JSValue) : M (list string) :=
  for_each (entries columns)
    (fun entry =>
       let column := snd entry in
       if typeof column =? "object" then
         for_each (entries column)
           (fun dir =>
              let direction := toUpperCase (js_String (snd dir)) in
              if negb ((direction =? "ASC") || (direction =? "DESC")) then ret []
              else
                this <- gets (fun b => b) ;;
                ret [identifier this (VStr (fst dir)) true ++ " " ++ direction])
       else
         v <- identifierOrQuote column true ;;
         ret [v]).

Fixpoint processValues_loop (todo : list (string * JSValue))
         (filled : list (string * string)) : M (list (string * string)) :=
  match todo with
  | [] => ret filled
  | (i, v) :: rest =>
      this <- gets (fun b => b) ;;
      let key := identifier this (VStr i) true in
      text <- identifierOrQuote v false ;;
      processValues_loop rest (assoc_set key text filled)
  end.

(** [processValues(columns)]; [None] is the [undefined] of the early
    [return].  The keys written are never array indexes (each holds a
    backtick or a space), so the result enumerates in insertion order. *)
Definition processValues (columns : JSValue) : M (option (list (string * string))) :=
  if negb (typeof columns =? "object") then ret None
  else
    filled <- processValues_loop (entries columns) [] ;;
    ret (Some filled).

Definition push_identifier (v : JSValue) : M unit :=
  modify (fun b => set_identifiers (sql_identifiers b ++ [v])%list b).

(** [table(payload)]: the loop returns in its first round. *)
Definition table (payload : JSValue) : M JSValue :=
  if negb (typeof payload =? "object") then
    push_identifier payload ;;;
    this <- gets (fun b => b) ;;
    ret (VStr (identifier this payload true))
  else
    match entries payload with
    | (i, alias) :: _ =>
        push_identifier (VStr i) ;;;
        push_identifier alias ;;;
        this <- gets (fun b => b) ;;
        ret (VObj [(identifier this (VStr i) true,
                    VStr (identifier this alias true))])
    | [] => ret VUndefined
    end.

(** The [table] and [alias] locals of the [build*] methods. *)
Definition table_and_alias (t : JSValue) : JSValue * JSValue :=
  if typeof t =? "object" then
    fold_left (fun (_ : JSValue * JSValue) (e : string * JSValue) => (VStr (fst e), snd e))
              (entries t) (VNull, VNull)
  else (t, VNull).

Definition as_alias (alias : JSValue) : string :=
  if truthy alias then " AS " ++ js_String alias else "".

(** ** The statement builders *)

Definition sep_comma_nl : string := "," ++ newline.
Definition sep_and_nl : string := newline ++ "AND ".

(** [buildSelect()]. *)
Definition buildSelect : M string :=
  this <- gets (fun b => b) ;;
  columns <- processColumns (js_get (sql_select this) "columns") ;;
  let '(table, alias) := table_and_alias (js_get (sql_select this) "table") in
  ret ("SELECT " ++ join sep_comma_nl columns ++ newline
       ++ "FROM " ++ js_String table ++ as_alias alias ++ newline).

(** The [ON DUPLICATE KEY UPDATE] part of [buildInsert]. *)
Definition duplicates_clause (duplicates : JSValue) : M string :=
  match duplicates with
  | VNull | VUndefined => throw (TypeError "cannot read properties (reading 'length')")
  | VArr items =>
      match items with
      | [] => ret ""
      | _ => ret ("ON DUPLICATE KEY UPDATE " ++ js_join sep_comma_nl items ++ newline)
      end
  | VStr text =>
      if text =? "" then ret ""
      else throw (TypeError "duplicates.join is not a function")
  | VObj props =>
      if truthy (js_get duplicates "length")
      then throw (TypeError "duplicates.join is not a function")
      else ret ""
  | _ => ret ""
  end.

(** [buildInsert()]. *)
Definition buildInsert : M string :=
  this <- gets (fun b => b) ;;
  columns <- processValues (js_get (sql_insert this) "columns") ;;
  let pairs := match columns with Some l => l | None => [] end in
  let cols := map fst pairs in
  let vals := map snd pairs in
  dup <- duplicates_clause (js_get (sql_insert this) "duplicates") ;;
  ret ("INSERT INTO " ++ js_String (js_get (sql_insert this) "table")
       ++ " (" ++ join ", " cols ++ ")" ++ newline
       ++ "VALUES (" ++ join ", " vals ++ ")" ++ newline ++ dup).

(** [buildUpdate(joins)]. *)
Definition buildUpdate (joins : string) : M string :=
  this <- gets (fun b => b) ;;
  columns <- processValues (js_get (sql_update this) "columns") ;;
  let '(table, alias) := table_and_alias (js_get (sql_update this) "table") in
  let pairs := match columns with Some l => l | None => [] end in
  let strings := map (fun kv => fst kv ++ " = " ++ snd kv) pairs in
  ret ("UPDATE " ++ js_String table ++ as_alias alias ++ newline
       ++ joins ++ "SET " ++ join sep_comma_nl strings ++ newline).

(** [buildDelete()]. *)
Definition buildDelete : M string :=
  this <- gets (fun b => b) ;;
  let '(table, alias) := table_and_alias (js_get (sql_delete this) "table") in
  ret ("DELETE " ++ (if truthy alias then js_String alias else "") ++ newline
       ++ "FROM " ++ js_String table ++ as_alias alias ++ newline).

(** [buildJoin(join)]. *)
Definition buildJoin (join_spec : JSValue) : M string :=
  conditions <- processConditions (js_get join_spec "conditions") ;;
  let '(table, alias) := table_and_alias (js_get join_spec "table") in
  ret (toUpperCase (js_String (js_get join_spec "type")) ++ " JOIN "
       ++ js_String table ++ as_alias alias ++ newline
       ++ "ON " ++ join_fragments sep_and_nl conditions ++ newline).

(** [buildWhere()]. *)
Definition buildWhere : M string :=
  this <- gets (fun b => b) ;;
  conditions <- processConditions (VArr (sql_where this)) ;;
  ret ("WHERE " ++ join_fragments sep_and_nl conditions ++ newline).

(** [buildHaving()]. *)
Definition buildHaving : M string :=
  this <- gets (fun b => b) ;;
  conditions <- processConditions (VArr (sql_having this)) ;;
  ret ("HAVING " ++ join_fragments sep_and_nl conditions ++ newline).

(** [buildGroup()]. *)
Definition buildGroup : M string :=
  this <- gets (fun b => b) ;;
  columns <- processColumns (VArr (sql_group this)) ;;
  ret ("GROUP BY " ++ join sep_comma_nl columns ++ newline).

(** [buildOrder()]. *)
Definition buildOrder : M string :=
  this <- gets (fun b => b) ;;
  columns <- processColumns (VArr (sql_order this)) ;;
  ret ("ORDER BY " ++ join sep_comma_nl columns ++ newline).

(** The loops [query += this.buildJoin(this.sql_joins[i])]. *)
Definition build_joins : M string :=
  this <- gets (fun b => b) ;;
  parts <- for_each (sql_joins this) (fun j => text <- buildJoin j ;; ret [text]) ;;
  ret (String.concat "" parts).

(** The optional clauses that end [build]. *)
Definition build_tail (query : string) : M string :=
  this <- gets (fun b => b) ;;
  w <- (match sql_where this with [] => ret "" | _ => buildWhere end) ;;
  h <- (match sql_having this with [] => ret "" | _ => buildHaving end) ;;
  g <- (match sql_group this with [] => ret "" | _ => buildGroup end) ;;
  o <- (match sql_order this with [] => ret "" | _ => buildOrder end) ;;
  let l := match sql_limit this with Some text => text | None => "" end in
  ret (query ++ w ++ h ++ g ++ o ++ l).

(** [build()]. *)
Definition build : M string :=
  this <- gets (fun b => b) ;;
  match sql_mode this with
  | Some mode =>
      if mode =? "select" then
        head <- buildSelect ;; joins <- build_joins ;; build_tail (head ++ joins)
      else if mode =? "insert" then
        head <- buildInsert ;; joins <- build_joins ;; build_tail (head ++ joins)
      else if mode =? "delete" then
        head <- buildDelete ;; joins <- build_joins ;; build_tail (head ++ joins)
      else if mode =? "update" then
        joins <- build_joins ;; head <- buildUpdate joins ;; build_tail head
      else throw (Error "Unknown query type")
  | None => throw (Error "Unknown query type")
  end.

(** ** The public methods *)

Definition js_in_m (k : string) (v : JSValue) : M bool :=
  match js_in k v with
  | Some present => ret present
  | None => throw (TypeError "cannot use 'in' operator on a primitive")
  end.

(** [if (!(k in payload)) throw Error(msg)]. *)
Definition require (k : string) (payload : JSValue) (msg : string) : M unit :=
  present <- js_in_m k payload ;;
  if present then ret tt else throw (Error msg).

(** [select(payload)]. *)
Definition select (payload : JSValue) : M unit :=
  require "table" payload "Select: Missing table" ;;;
  require "columns" payload "Select: Missing columns" ;;;
  modify (set_mode "select") ;;;
  t <- table (js_get payload "table") ;;
  modify (set_statement "select"
            (VObj [("table", t); ("columns", js_get payload "columns")])).

(** [insert(payload)]. *)
Definition insert (payload : JSValue) : M unit :=
  require "table" payload "Insert: Missing table" ;;;
  require "columns" payload "Insert: Missing columns" ;;;
  has_duplicates <- js_in_m "duplicates" payload ;;
  let duplicates := if has_duplicates then js_get payload "duplicates" else VArr [] in
  modify (set_mode "insert") ;;;
  t <- table (js_get payload "table") ;;
  modify (set_statement "insert"
            (VObj [("table", t); ("columns", js_get payload "columns");
                   ("duplicates", duplicates)])).

(** [delete(payload)]. *)
Definition delete (payload : JSValue) : M unit :=
  require "table" payload "Delete: Missing table" ;;;
  modify (set_mode "delete") ;;;
  t <- table (js_get payload "table") ;;
  modify (set_statement "delete" (VObj [("table", t)])).

(** [update(payload)]. *)
Definition update (payload : JSValue) : M unit :=
  require "table" payload "Update: Missing table" ;;;
  require "columns" payload "Update: Missing columns" ;;;
  modify (set_mode "update") ;;;
  t <- table (js_get payload "table") ;;
  modify (set_statement "update"
            (VObj [("table", t); ("columns", js_get payload "columns")])).

(** [joins(payload)]. *)
Definition joins (payload : JSValue) : M unit :=
  for_each_ (entries payload)
    (fun entry =>
       let j := snd entry in
       require "type" j "Joins: Missing type" ;;;
       require "table" j "Joins: Missing table" ;;;
       require "conditions" j "Joins: Missing conditions" ;;;
       t <- table (js_get j "table") ;;
       modify (fun b =>
                 set_joins (sql_joins b ++
                            [VObj [("type", js_get j "type"); ("table", t);
                                   ("conditions", js_get j "conditions")]])%list b)).

(** [order(payload)]. *)
Definition order (payload : JSValue) : M unit :=
  for_each_ (entries payload)
    (fun entry => modify (fun b => set_order (sql_order b ++ [snd entry])%list b)).

(** [group(payload)]. *)
Definition group (payload : JSValue) : M unit :=
  for_each_ (entries payload)
    (fun entry => modify (fun b => set_group (sql_group b ++ [snd entry])%list b)).

(** [where(payload)]; [where] is reserved here, hence the name. *)
Definition where_ (payload : JSValue) : M unit :=
  for_each_ (entries payload)
    (fun entry => modify (fun b => set_where (sql_where b ++ [snd entry])%list b)).

(** [having(payload)]. *)
Definition having (payload : JSValue) : M unit :=
  for_each_ (entries payload)
    (fun entry => modify (fun b => set_having (sql_having b ++ [snd entry])%list b)).

(** White space skipped by [parseInt], among 8-bit code units. *)
Definition is_space (c : ascii) : bool :=
  let n := nat_of_ascii c in
  (in_range 9 13 c || (n =? 32) || (n =? 160))%nat.

Fixpoint trim_start (s : string) : string :=
  match s with
  | String c rest => if is_space c then trim_start rest else s
  | EmptyString => EmptyString
  end.

Definition digit_value (radix : nat) (c : ascii) : option nat :=
  let n := nat_of_ascii c in
  let d := if in_range 48 57 c then Some (n - 48)
           else if in_range 97 122 c then Some (n - 87)
           else if in_range 65 90 c then Some (n - 55)
           else None in
  match d with
  | Some k => if (k <? radix)%nat then Some k else None
  | None => None
  end.

Fixpoint digits_value (radix : nat) (s : string) (acc : option Z) : option Z :=
  match s with
  | String c rest =>
      match digit_value radix c with
      | Some d =>
          digits_value radix rest
            (Some (match acc with Some a => a | None => 0 end * Z.of_nat radix
                   + Z.of_nat d)%Z)
      | None => acc
      end
  | EmptyString => acc
  end.

(** [parseInt(v)]; [None] is [NaN]. *)
Definition parseInt (v : JSValue) : option Z :=
  let s := trim_start (js_String v) in
  let '(negative, s1) :=
    if substring 0 1 s =? "-" then (true, drop 1 s)
    else if substring 0 1 s =? "+" then (false, drop 1 s)
    else (false, s) in
  let '(radix, s2) :=
    if (substring 0 2 s1 =? "0x") || (substring 0 2 s1 =? "0X")
    then (16, drop 2 s1) else (10, s1) in
  match digits_value radix s2 None with
  | Some n => Some (if negative then (- n)%Z else n)
  | None => None
  end.

Definition nan_to_zero (n : option Z) : Z :=
  match n with Some k => k | None => 0%Z end.

(** [limit(val)]. *)
Definition limit (val : JSValue) : M unit :=
  bounds <-
    (if (typeof val =? "number") || (typeof val =? "string") then
       ret (Some 0%Z, parseInt val)
     else if typeof val =? "object" then
       has0 <- js_in_m "0" val ;;
       has1 <- js_in_m "1" val ;;
       ret (if has0 then parseInt (js_get val "0") else Some 0%Z,
            if has1 then parseInt (js_get val "1") else Some 0%Z)
     else ret (Some 0%Z, Some 0%Z)) ;;
  let offset := nan_to_zero (fst bounds) in
  let limit := nan_to_zero (snd bounds) in
  if (0 <? offset)%Z then
    modify (set_limit (Some ("LIMIT " ++ string_of_Z offset ++ ", "
                             ++ string_of_Z limit ++ newline)))
  else if (0 <? limit)%Z then
    modify (set_limit (Some ("LIMIT " ++ string_of_Z limit ++ newline)))
  else ret tt.

(** [params(params)]. *)
Definition params (payload : JSValue) : M unit :=
  for_each_ (entries payload)
    (fun entry =>
       modify (fun b => set_params (assoc_set (fst entry) (snd entry) (sql_params b)) b)).

(** [if (k in payload) sql.method(payload[k])]. *)
Definition when_present (k : string) (payload : JSValue) (method : JSValue -> M unit)
  : M unit :=
  present <- js_in_m k payload ;;
  if present then method (js_get payload k) else ret tt.

(** [SimpleSqlBuilder.fromJson(payload)]. *)
Definition fromJson (payload : JSValue) : Outcome string :=
  (when_present "select" payload select ;;;
   when_present "insert" payload insert ;;;
   when_present "update" payload update ;;;
   when_present "delete" payload delete ;;;
   when_present "joins" payload joins ;;;
   when_present "where" payload where_ ;;;
   when_present "having" payload having ;;;
   when_present "order" payload order ;;;
   when_present "group" payload group ;;;
   when_present "limit" payload limit ;;;
   when_present "params" payload params ;;;
   build) constructor.

(** ** The reference reading of a string literal

    The escapes that [map] writes are those of MySQL string literals
    (backslash escapes, with [Z] for 0x1a).  [literal_value] reads a
    single-quoted literal by that grammar: a backslash followed by one
    of [0 b t n r Z] stands for the control character, a backslash
    followed by [%] or [_] stands for both characters, a backslash
    followed by any other character stands for that character, a
    doubled single quote stands for one, and the literal ends at the
    closing quote. *)

Definition unescape_char (c : ascii) : string :=
  let n := nat_of_ascii c in
  if (n =? 48)%nat then chr 0
  else if (n =? 98)%nat then chr 8
  else if (n =? 116)%nat then chr 9
  else if (n =? 110)%nat then chr 10
  else if (n =? 114)%nat then chr 13
  else if (n =? 90)%nat then chr 26
  else if (n =? 37)%nat || (n =? 95)%nat then backslash ++ String c EmptyString
  else String c EmptyString.

Definition prepend (s : string) (o : option string) : option string :=
  match o with
  | Some t => Some (s ++ t)
  | None => None
  end.

Fixpoint literal_body (s : string) : option string :=
  match s with
  | EmptyString => None
  | String c rest =>
      if (nat_of_ascii c =? 39)%nat then
        match rest with
        | EmptyString => Some ""
        | String c' rest' =>
            if (nat_of_ascii c' =? 39)%nat
            then prepend squote (literal_body rest')
            else None
        end
      else if (nat_of_ascii c =? 92)%nat then
        match rest with
        | EmptyString => None
        | String c' rest' => prepend (unescape_char c') (literal_body rest')
        end
      else prepend (String c EmptyString) (literal_body rest)
  end.

Definition literal_value (s : string) : option string :=
  match s with
  | String c body => if (nat_of_ascii c =? 39)%nat then literal_body body else None
  | EmptyString => None
  end.

(** ** Vocabulary of the statements *)

(** Character by character: an escaped character becomes its entry in
    [map], any other character stays. *)
Fixpoint escape_each (s : string) : string :=
  match s with
  | String c rest =>
      (if special c then escape_map c else String c EmptyString) ++ escape_each rest
  | EmptyString => EmptyString
  end.

(** One round of the [while] loop of [sqlEscape] on the string [val]. *)
Definition escape_step (val : string) (st : nat * string) (m : nat * ascii)
  : nat * string :=
  let '(chunk, escaped) := st in
  let '(index, c) := m in
  (S index, escaped ++ slice_str val chunk index ++ escape_map c).

(** The escape table as the specification words it: the nine
    characters by code, each with the character that follows the
    backslash. *)
Definition nine_escapes : list (nat * string) :=
  [(0, "0"); (8, "b"); (9, "t"); (10, "n"); (13, "r"); (26, "Z");
   (34, dquote); (39, squote); (92, backslash)].

Fixpoint table_lookup (n : nat) (t : list (nat * string)) : option string :=
  match t with
  | [] => None
  | (k, x) :: rest => if (k =? n)%nat then Some x else table_lookup n rest
  end.

Fixpoint escape_by_table (s : string) : string :=
  match s with
  | String c rest =>
      match table_lookup (nat_of_ascii c) nine_escapes with
      | Some x => backslash ++ x ++ escape_by_table rest
      | None => String c (escape_by_table rest)
      end
  | EmptyString => EmptyString
  end.

(** The instance a chain of calls leaves behind. *)
Definition after (calls : M unit) (this : Builder) : Builder :=
  match calls this with
  | Ok _ this' => this'
  | Throw _ this' => this'
  end.

(** The running example of the documentation: table [users] under the
    alias [user]. *)
Definition users_select : JSValue :=
  VObj [("table", VObj [("users", VStr "user")]);
        ("columns", VArr [VStr "user.*"])].

Definition names_builder : Builder :=
  after (select users_select ;;; params (VArr [VStr "John"; VStr "Doe"])) constructor.

Definition ages_builder : Builder :=
  after (select users_select ;;; params (VArr [VNum 18; VNum 65])) constructor.

Definition names_conditions : JSValue :=
  VArr [VArr [VStr "user.active"; VStr "="; VBool true];
        VObj [("or", VArr [VArr [VStr "user.first_name"; VStr "="; VStr "?"];
                           VArr [VStr "user.last_name"; VStr "="; VStr "?"]])]].

Definition age_between : list JSValue :=
  [VStr "user.age"; VStr "between"; VArr [VStr "?"; VStr "?"]].

Definition bool_text (t : bool) : string := if t then "true" else "false".

(** The instance of [names_builder] once both parameters are consumed. *)
Definition names_exhausted : Builder := set_param_counter 2 names_builder.

(** An [in] leaf with one positional member. *)
Definition nickname_in : list JSValue :=
  [VStr "user.nickname"; VStr "in"; VArr [VStr "?"]].

(** A table or column name: one or more characters of [a-zA-Z_0-9]. *)
Definition is_word_text (w : string) : bool :=
  negb (w =? "") && forallb_str is_word w.

(** A select whose column names a table that no clause registers. *)
Definition orders_column_query : JSValue :=
  VObj [("select", VObj [("table", VObj [("users", VStr "user")]);
                         ("columns", VArr [VStr "orders.id"])])].

Definition text_of (o : Outcome string) : option string :=
  match o with
  | Ok text _ => Some text
  | Throw _ _ => None
  end.

(** The pattern of a [LIKE] around an escaped value. *)
Definition like_pattern (op escaped : string) : string :=
  if op =? "contains" then "%" ++ escaped ++ "%"
  else if op =? "begins" then escaped ++ "%"
  else "%" ++ escaped.

(** One round of the loop of [processConditions]: what is pushed for
    the element [cond]. *)
Definition process_item (depth : nat) (cond : JSValue) : M (list Fragment) :=
  match cond with
  | VArr [c0; c1; c2] =>
      f <- processCondition [c0; c1; c2] ;;
      ret [f]
  | VArr _ | VObj _ =>
      o <- uppercase_key (entries cond) ;;
      let combine := if has_key "OR" o then "OR" else "AND" in
      match depth with
      | O => throw RecursionLimit
      | S d =>
          conds <- processConditions_at d (js_get (VObj o) combine) ;;
          ret [Some ("(" ++ join_fragments (" " ++ combine ++ " ") conds ++ ")")]
      end
  | VStr raw => ret [Some raw]
  | _ => ret []
  end.

(** A [between], [in] or [not in] leaf over the registered alias. *)
Definition age_in_null : list JSValue := [VStr "user.age"; VStr "in"; VNull].

Definition age_in_object : list JSValue :=
  [VStr "user.age"; VStr "in"; VObj [("low", VNum 18)]].

(** Two instances that differ at most in the positional cursor. *)
Definition same_clauses (b b' : Builder) : Prop :=
  b' = set_param_counter (sql_param_counter b') b.

(** A computation that, returning or throwing, touches nothing but the
    positional cursor. *)
Definition keeps_clauses {A : Type} (m : M A) : Prop :=
  forall this,
    match m this with
    | Ok _ this' => same_clauses this this'
    | Throw _ this' => same_clauses this this'
    end.

(** An outcome that is an exception. *)
Definition fails {A : Type} (o : Outcome A) : Prop :=
  exists e this', o = Throw e this'.

(** The operators [processCondition] has a [case] for. *)
Definition operators : list string :=
  ["="; "<="; ">="; "<"; ">"; "!="; "<>"; "is"; "is not"; "between"; "in";
   "not in"; "contains"; "begins"; "ends"; "in set"].

Definition known_operator (operator : JSValue) : bool :=
  existsb (fun op => is_string op operator) operators.

(** An element that [processConditions] compiles as a group. *)
Definition is_group (cond : JSValue) : bool :=
  match cond with
  | VArr [_; _; _] => false
  | VArr _ | VObj _ => true
  | _ => false
  end.

(** [holds_leaf leaf conditions]: compiling [conditions] reaches the
    element [leaf], at the top or inside the list a group selects. *)
Inductive holds_leaf (leaf : JSValue) : JSValue -> Prop :=
| holds_here (conditions : JSValue) :
    In leaf (map snd (entries conditions)) ->
    holds_leaf leaf conditions
| holds_group (conditions cond : JSValue) (o : list (string * JSValue)) :
    In cond (map snd (entries conditions)) ->
    is_group cond = true ->
    (forall this, uppercase_key (entries cond) this = Ok o this) ->
    holds_leaf leaf (js_get (VObj o) (if has_key "OR" o then "OR" else "AND")) ->
    holds_leaf leaf conditions.

(** The element [leaf] is among the conditions [build] compiles. *)
Definition compiles_leaf (leaf : JSValue) (this : Builder) : Prop :=
  holds_leaf leaf (VArr (sql_where this))
  \/ holds_leaf leaf (VArr (sql_having this))
  \/ exists j, In j (sql_joins this) /\ holds_leaf leaf (js_get j "conditions").

Definition unknown_clause : JSError := Error "Condition: Unknown clause".

(** An outcome that is the exception [e]. *)
Definition throws {A : Type} (e : JSError) (o : Outcome A) : Prop :=
  exists this', o = Throw e this'.

(** [reaches leaf conditions this]: compiling [conditions] on the
    instance [this] gets to the element [leaf] and nothing throws on
    the way: the elements in front of it compile, and so do the
    elements in front of each group that is entered on the way down. *)
Inductive reaches (leaf : JSValue) : JSValue -> Builder -> Prop :=
| reaches_here (conditions : JSValue) (before behind : list JSValue)
               (this this1 : Builder) (compiled : list Fragment) :
    map snd (entries conditions) = (before ++ leaf :: behind)%list ->
    processConditions (VArr before) this = Ok compiled this1 ->
    reaches leaf conditions this
| reaches_group (conditions cond : JSValue) (before behind : list JSValue)
                (o : list (string * JSValue)) (this this1 : Builder)
                (compiled : list Fragment) :
    map snd (entries conditions) = (before ++ cond :: behind)%list ->
    processConditions (VArr before) this = Ok compiled this1 ->
    is_group cond = true ->
    uppercase_key (entries cond) this1 = Ok o this1 ->
    reaches leaf (js_get (VObj o) (if has_key "OR" o then "OR" else "AND")) this1 ->
    reaches leaf conditions this.

(** What [build] compiles before the joins: the head of the statement,
    except in an [update], whose joins come first. *)
Definition before_joins : M string :=
  this <- gets (fun b => b) ;;
  match sql_mode this with
  | Some mode =>
      if mode =? "select" then buildSelect
      else if mode =? "insert" then buildInsert
      else if mode =? "delete" then buildDelete
      else if mode =? "update" then ret ""
      else throw (Error "Unknown query type")
  | None => throw (Error "Unknown query type")
  end.

(** The [switch] of [build]: the head of the statement and the joins. *)
Definition build_statement : M string :=
  this <- gets (fun b => b) ;;
  match sql_mode this with
  | Some mode =>
      if mode =? "select" then
        head <- buildSelect ;; joins <- build_joins ;; ret (head ++ joins)
      else if mode =? "insert" then
        head <- buildInsert ;; joins <- build_joins ;; ret (head ++ joins)
      else if mode =? "delete" then
        head <- buildDelete ;; joins <- build_joins ;; ret (head ++ joins)
      else if mode =? "update" then
        joins <- build_joins ;; buildUpdate joins
      else throw (Error "Unknown query type")
  | None => throw (Error "Unknown query type")
  end.

(** [if (this.sql_where.length > 0) query += this.buildWhere()]. *)
Definition where_clause : M string :=
  this <- gets (fun b => b) ;;
  match sql_where this with [] => ret "" | _ => buildWhere end.

(** [build_compiles conditions this this1]: a [build] on the instance
    [this] comes, with no exception before, to compile [conditions],
    and the instance is [this1] by then.  The conditions are those of a
    join (the statement head and the joins in front of it are built),
    those of [where] (head and joins are built), or those of [having]
    (so is the [where] clause). *)
Inductive build_compiles : JSValue -> Builder -> Builder -> Prop :=
| compiles_join (this this1 this2 : Builder) (head : string)
                (built rest : list JSValue) (j : JSValue) (texts : list string) :
    before_joins this = Ok head this1 ->
    sql_joins this1 = (built ++ j :: rest)%list ->
    for_each built (fun j => text <- buildJoin j ;; ret [text]) this1 = Ok texts this2 ->
    build_compiles (js_get j "conditions") this this2
| compiles_where (this this1 : Builder) (query : string) :
    build_statement this = Ok query this1 ->
    sql_where this1 <> [] ->
    build_compiles (VArr (sql_where this1)) this this1
| compiles_having (this this1 this2 : Builder) (query w : string) :
    build_statement this = Ok query this1 ->
    where_clause this1 = Ok w this2 ->
    sql_having this2 <> [] ->
    build_compiles (VArr (sql_having this2)) this this2.

Definition xor_leaf : JSValue := VArr [VStr "user.id"; VStr "xor"; VStr "?"].

(** A delete on [users] whose [where] nests the [xor] leaf in a group. *)
Definition xor_builder : Builder :=
  after (delete (VObj [("table", VObj [("users", VStr "user")])]) ;;;
         where_ (VArr [VArr [VStr "user.active"; VStr "="; VNum 1];
                       VObj [("or", VArr [xor_leaf])]]))
        constructor.

(** A call that, returning or throwing, leaves the statement mode as
    it was. *)
Definition keeps_mode {A : Type} (m : M A) : Prop :=
  forall this,
    match m this with
    | Ok _ this' => sql_mode this' = sql_mode this
    | Throw _ this' => sql_mode this' = sql_mode this
    end.

(** A call that always returns and leaves the statement mode as it
    was. *)
Definition returns_keeping_mode (m : M unit) : Prop :=
  forall this, exists this', m this = Ok tt this' /\ sql_mode this' = sql_mode this.

Definition statement_keys : list string := ["select"; "insert"; "update"; "delete"].

(** None of the four statement keys is in the payload. *)
Definition lacks_statement (payload : JSValue) : Prop :=
  forall k, In k statement_keys -> js_in k payload <> Some true.

Definition unknown_query_type : JSError := Error "Unknown query type".

(** A computation that, started in unset mode, ends in an exception,
    which is the unknown-query-type error under the condition
    [quietly]. *)
Definition ends_unknown (quietly : Prop) (k : M string) : Prop :=
  forall this, sql_mode this = None ->
    exists e this', k this = Throw e this' /\ (quietly -> e = unknown_query_type).

(** The instances reached from a new one by calls none of which is
    [select], [insert], [update] or [delete]; a call that throws
    leaves an instance behind as well. *)
Inductive unstarted : Builder -> Prop :=
| unstarted_new : unstarted constructor
| unstarted_call (method : JSValue -> M unit) (payload : JSValue) (this : Builder) :
    unstarted this ->
    In method [joins; order; group; where_; having; limit; params] ->
    unstarted (after (method payload) this).

Definition clauses_only_payload : JSValue :=
  VObj [("where", VArr [VArr [VStr "id"; VStr "="; VNum 1]]);
        ("order", VArr [VStr "id"])].

(** A computation that never throws [RecursionLimit]. *)
Definition within_limit {A : Type} (m : M A) : Prop :=
  forall this this', m this <> Throw RecursionLimit this'.

(** What a depth [d] suffices for: a value nested no deeper than [d],
    or the array of one-character strings a spread string gives. *)
Definition shallow (d : nat) (v : JSValue) : Prop :=
  nesting v <= d \/ exists l, v = VArr (map VStr l).

(** ** Vocabulary of the further properties *)

(** The text [quote] returns, read off a run on a new instance. *)
Definition quote_text (val : JSValue) (force_quote : bool) : string :=
  match quote val force_quote constructor with
  | Ok text _ => text
  | Throw _ _ => ""
  end.

(** The character [?] does not occur in [s]. *)
Definition no_question (s : string) : bool :=
  forallb_str (fun c => negb (nat_of_ascii c =? 63)%nat) s.

(** [s] is empty or starts with a character outside [a-zA-Z_0-9]. *)
Definition ends_word (s : string) : bool :=
  match s with
  | String c _ => negb (is_word c)
  | EmptyString => true
  end.

(** An instance with named parameters. *)
Definition named_builder : Builder :=
  after (select users_select ;;;
         params (VObj [("name", VStr "John"); ("age", VNum 30)])) constructor.

(** The payload of [params] writes neither [length] nor [__proto__],
    the two keys an array does not store as plain properties. *)
Definition plain_keys (payload : JSValue) : bool :=
  negb (has_key "length" (entries payload))
  && negb (has_key "__proto__" (entries payload)).

(** A key other than the two a JavaScript array treats specially:
    [length], which the array keeps itself, and [__proto__]. *)
Definition plain_key (k : string) : bool :=
  negb (k =? "length") && negb (k =? "__proto__").

(** The integers a JavaScript number holds exactly and [String] prints
    digit by digit: those from [-(2^53 - 1)] to [2^53 - 1]. *)
Definition safe_integer (n : Z) : bool :=
  (Z.abs n <=? 9007199254740991)%Z.

(** A name over [a-zA-Z_0-9] that does not begin with a digit.  No such
    name is an array index, so an object whose keys are such names
    enumerates them in the order in which they were written. *)
Definition is_name (w : string) : bool :=
  match w with
  | String c _ => is_word_text w && negb (in_range 48 57 c)
  | EmptyString => false
  end.

(** The last value a property list holds for a key. *)
Definition last_value (k : string) (l : list (string * JSValue)) : option JSValue :=
  assoc k (rev l).

(** A join entry that is complete, and one without [type]. *)
Definition orders_join : JSValue :=
  VObj [("type", VStr "left"); ("table", VObj [("orders", VStr "order")]);
        ("conditions", VArr [VArr [VStr "order.user_id"; VStr "="; VStr "user.id"]])].

Definition typeless_join : JSValue :=
  VObj [("table", VStr "items"); ("conditions", VArr [])].

(** A call after which every registered name is still registered. *)
Definition keeps_registered {A : Type} (m : M A) : Prop :=
  forall this name,
    includes (sql_identifiers this) name = true ->
    match m this with
    | Ok _ this' => includes (sql_identifiers this') name = true
    | Throw _ this' => includes (sql_identifiers this') name = true
    end.

(** The methods that take a payload. *)
Definition payload_methods : list (JSValue -> M unit) :=
  [select; insert; delete; update; joins; order; group; where_; having; limit; params].

(** A computation after which the cursor is where it was or further. *)
Definition cursor_forward {A : Type} (m : M A) : Prop :=
  forall this,
    match m this with
    | Ok _ this' => sql_param_counter this <= sql_param_counter this'
    | Throw _ this' => sql_param_counter this <= sql_param_counter this'
    end.

(** No dot in [s]. *)
Definition no_dot (s : string) : bool :=
  forallb_str (fun c => negb (nat_of_ascii c =? 46)%nat) s.

(** The combinator a single-key group object stands for, if any: the
    four spellings the source knows. *)
Definition group_word (key : string) : option string :=
  if (key =? "and") || (key =? "AND") then Some "AND"
  else if (key =? "or") || (key =? "OR") then Some "OR"
  else None.

(** An element of a condition list that is neither array, object nor
    string. *)
Definition is_skipped (cond : JSValue) : bool :=
  match cond with
  | VUndefined | VNull | VBool _ | VNum _ => true
  | _ => false
  end.

(** An instance in insert mode whose [duplicates] is a string. *)
Definition string_duplicates_builder : Builder :=
  after (insert (VObj [("table", VStr "users");
                       ("columns", VObj [("first_name", VStr "?")]);
                       ("duplicates", VStr "first_name = VALUES(first_name)")]))
        constructor.

(** One round of the loop of [processColumns]. *)
Definition column_item (column : JSValue) : M (list string) :=
  if typeof column =? "object" then
    for_each (entries column)
      (fun dir =>
         let direction := toUpperCase (js_String (snd dir)) in
         if negb ((direction =? "ASC") || (direction =? "DESC")) then ret []
         else
           this <- gets (fun b => b) ;;
           ret [identifier this (VStr (fst dir)) true ++ " " ++ direction])
  else
    v <- identifierOrQuote column true ;;
    ret [v].

(** The direction of an order entry is [asc] or [desc] in some letter
    case. *)
Definition is_direction (direction : JSValue) : bool :=
  (toUpperCase (js_String direction) =? "ASC")
  || (toUpperCase (js_String direction) =? "DESC").

Definition backticked (w : string) : string := backtick ++ w ++ backtick.

(** The keyword of an alias as the source looks for it. *)
Definition is_as (kw : string) : bool := (kw =? "as") || (kw =? "AS").

(** * Properties *)

Arguments sqlEscape : simpl never.
Arguments sqlEscape_any : simpl never.
Arguments identifier : simpl never.
Arguments quote : simpl never.
Arguments identifierOrQuote : simpl never.
Arguments processCondition : simpl never.

(** ** Strings *)

Lemma append_nil_r (s : string) : s ++ "" = s.
Proof. induction s as [|c s IH]; simpl; [reflexivity | now rewrite IH]. Qed.

Lemma append_assoc (a b c : string) : (a ++ b) ++ c = a ++ b ++ c.
Proof. induction a as [|x a IH]; simpl; [reflexivity | now rewrite IH]. Qed.

Lemma length_append (a b : string) :
  String.length (a ++ b) = String.length a + String.length b.
Proof. induction a as [|x a IH]; simpl; [reflexivity | now rewrite IH]. Qed.

Lemma substring_zero_append (a b : string) :
  substring 0 (String.length a) (a ++ b) = a.
Proof.
  induction a as [|x a IH]; simpl.
  - now destruct b.
  - now rewrite IH.
Qed.

Lemma substring_skip_append (a b : string) (n : nat) :
  substring (String.length a) n (a ++ b) = substring 0 n b.
Proof. induction a as [|x a IH]; simpl; [reflexivity | exact IH]. Qed.

Lemma substring_middle (a b c : string) :
  substring (String.length a) (String.length b) (a ++ b ++ c) = b.
Proof. now rewrite substring_skip_append, substring_zero_append. Qed.

Lemma substring_whole (s : string) : substring 0 (String.length s) s = s.
Proof.
  rewrite <- (append_nil_r s) at 2. apply substring_zero_append.
Qed.

Lemma substring_zero_nil (s : string) : substring 0 0 s = "".
Proof. now destruct s. Qed.

Lemma drop_append (a b : string) : drop (String.length a) (a ++ b) = b.
Proof. induction a as [|x a IH]; simpl; [now destruct b | exact IH]. Qed.

(** ** [sqlEscape] is the character-wise escape *)

Lemma escape_each_plain (s : string) :
  special_matches s 0 = [] -> escape_each s = s.
Proof.
  generalize 0. induction s as [|c s IH]; intros i H; simpl in *.
  - reflexivity.
  - destruct (special c); [discriminate |].
    simpl. now rewrite (IH (S i)).
Qed.

(** The loop invariant: [val] splits into the part already consumed
    ([done], of length [chunk]), the ordinary characters seen since
    ([pending]) and the part still to scan ([rest]). *)
Lemma escape_loop_spec (rest val done pending escaped : string) :
  val = done ++ pending ++ rest ->
  exists done' tail escaped',
    fold_left (escape_step val)
              (special_matches rest (String.length done + String.length pending))
              (String.length done, escaped)
    = (String.length done', escaped')
    /\ val = done' ++ tail
    /\ escaped' ++ tail = escaped ++ pending ++ escape_each rest
    /\ ((done' = done /\ escaped' = escaped
         /\ special_matches rest (String.length done + String.length pending) = [])
        \/ String.length done < String.length done').
Proof.
  revert done pending escaped.
  induction rest as [|c rest IH]; intros done pending escaped Hval; simpl.
  - exists done, pending, escaped. rewrite append_nil_r in Hval.
    repeat split; auto. now rewrite append_nil_r.
  - destruct (special c) eqn:Hc; simpl.
    + destruct (IH (done ++ pending ++ String c EmptyString) ""
                  (escaped ++ slice_str val (String.length done)
                     (String.length done + String.length pending) ++ escape_map c))
        as (done' & tail & escaped' & Hfold & Hsplit & Hout & Hprog).
      { rewrite Hval. simpl. now rewrite !append_assoc. }
      exists done', tail, escaped'.
      rewrite !length_append in Hfold. simpl in Hfold.
      replace (String.length done + (String.length pending + 1) + 0)
        with (S (String.length done + String.length pending)) in Hfold by lia.
      replace (String.length done + (String.length pending + 1))
        with (S (String.length done + String.length pending)) in Hfold by lia.
      split; [exact Hfold |]. split; [exact Hsplit |]. split.
      * rewrite Hout. unfold slice_str.
        replace (String.length done + String.length pending - String.length done)
          with (String.length pending) by lia.
        rewrite Hval, substring_middle. simpl. now rewrite !append_assoc.
      * right. destruct Hprog as [(Hd & _ & _) | Hlt].
        -- subst done'. rewrite !length_append. simpl. lia.
        -- rewrite !length_append in Hlt. lia.
    + destruct (IH done (pending ++ String c EmptyString) escaped)
        as (done' & tail & escaped' & Hfold & Hsplit & Hout & Hprog).
      { rewrite Hval. now rewrite !append_assoc. }
      exists done', tail, escaped'.
      rewrite length_append in Hfold, Hprog. simpl in Hfold, Hprog.
      replace (String.length done + (String.length pending + 1))
        with (S (String.length done + String.length pending)) in Hfold, Hprog by lia.
      split; [exact Hfold |]. split; [exact Hsplit |]. split.
      * rewrite Hout. now rewrite !append_assoc.
      * exact Hprog.
Qed.

Lemma sqlEscape_escape_each (s : string) : sqlEscape s = escape_each s.
Proof.
  unfold sqlEscape, sqlEscape_with.
  destruct (escape_loop_spec s s "" "" "" eq_refl)
    as (done' & tail & escaped' & Hfold & Hsplit & Hout & Hprog).
  simpl in Hfold, Hout, Hprog.
  change (fun (st : nat * string) (m : nat * ascii) =>
            let '(chunk, escaped) := st in
            let '(index, c) := m in
            (S index, escaped ++ slice_str s chunk index ++ escape_map c))
    with (escape_step s).
  rewrite Hfold.
  destruct Hprog as [(Hd & He & Hnone) | Hlt].
  - subst done'. simpl. symmetry. now apply escape_each_plain.
  - destruct (String.length done') eqn:Hlen; [lia |]. simpl.
    rewrite <- Hlen.
    assert (Hs : String.length s = String.length done' + String.length tail)
      by (rewrite Hsplit at 1; apply length_append).
    destruct (String.length done' <? String.length s)%nat eqn:Hcmp.
    + unfold slice_str. rewrite <- Hout.
      replace (String.length s - String.length done') with (String.length tail) by lia.
      rewrite Hsplit at 1.
      rewrite <- (append_nil_r tail) at 2.
      now rewrite substring_middle.
    + apply Nat.ltb_ge in Hcmp.
      assert (tail = "") by (destruct tail; [reflexivity | simpl in Hs; lia]).
      subst tail. now rewrite append_nil_r in Hout.
Qed.

Lemma escape_each_by_table (s : string) : escape_each s = escape_by_table s.
Proof.
  induction s as [|c s IH]; [reflexivity |].
  destruct c as [[] [] [] [] [] [] [] []]; simpl; now rewrite IH.
Qed.

Lemma literal_body_escape_each (s : string) :
  literal_body (escape_each s ++ squote) = Some s.
Proof.
  induction s as [|c s IH]; [reflexivity |].
  destruct c as [[] [] [] [] [] [] [] []]; simpl; now rewrite IH.
Qed.

(** C5.  [sqlEscape] rewrites a string character by character: each of
    NUL, backspace, tab, newline, carriage return, 0x1a, double quote,
    single quote and backslash becomes a backslash followed by
    0, b, t, n, r, Z, the double quote, the single quote and the
    backslash respectively, and every other character is kept.  Put
    between single quotes, the result reads back, by the literal
    grammar of the dialect, as the original string. *)
Theorem sqlEscape_round_trip (s : string) :
  sqlEscape s = escape_by_table s
  /\ literal_value (squote ++ sqlEscape s ++ squote) = Some s.
Proof.
  split.
  - now rewrite sqlEscape_escape_each, escape_each_by_table.
  - rewrite sqlEscape_escape_each. simpl. apply literal_body_escape_each.
Qed.

(** ** Booleans in the value resolver *)

(** C2.  What the resolver does with a boolean: [typeof] yields
    [boolean], so neither [case 'bool'] is taken; [identifierOrQuote]
    hands the token to [identifier], which returns the text [true] or
    [false] (between backticks under [force_quote]), and [quote]
    returns that text between single quotes.  The texts 1 and 0 are
    never produced. *)
Theorem boolean_token_resolution (t force_quote : bool) (this : Builder) :
  identifierOrQuote (VBool t) force_quote this
  = Ok (if force_quote then backtick ++ bool_text t ++ backtick else bool_text t) this
  /\ quote (VBool t) force_quote this = Ok (squote ++ bool_text t ++ squote) this.
Proof. destruct t, force_quote; split; reflexivity. Qed.

(** ** The two scenarios of the documentation *)

(** C1.  The condition list of the scenario compiles to two fragments,
    the first of which reads [= true] where the documentation has
    [= 1]; [buildWhere] joins them with a newline and [AND], and both
    parameters are consumed.  Of the instance that [where] and
    [buildWhere] leave, the statement gives the cursor only: the
    conditions it holds are the caller's objects, whose group keys the
    source rewrites while it compiles them. *)
Theorem names_scenario_compiled :
  processConditions names_conditions names_builder
  = Ok [Some "`user`.`active` = true";
        Some "(`user`.`first_name` = 'John' OR `user`.`last_name` = 'Doe')"]
       (set_param_counter 2 names_builder)
  /\ exists this',
      (where_ names_conditions ;;; buildWhere) names_builder
      = Ok ("WHERE `user`.`active` = true" ++ newline
            ++ "AND (`user`.`first_name` = 'John' OR `user`.`last_name` = 'Doe')"
            ++ newline)
           this'
      /\ sql_param_counter this' = 2.
Proof.
  split; [vm_compute; reflexivity |].
  eexists. split; vm_compute; reflexivity.
Qed.

Lemma plain_token_resolution (k : string) (force_quote : bool) (this : Builder) :
  k <> "?" ->
  first_named k = None ->
  identifierOrQuote (VStr k) force_quote this
  = Ok (identifier this (VStr k) force_quote) this.
Proof.
  intros Hq Hnamed. unfold identifierOrQuote.
  change (typeof (VStr k)) with "string".
  change (is_string "?" (VStr k)) with (k =? "?").
  change (js_String (VStr k)) with k.
  apply String.eqb_neq in Hq. rewrite Hq, Hnamed. reflexivity.
Qed.

(** C3.  A [between] leaf resolves the keys of its value, not the
    entries: for a 2-entry array the bounds are the texts 0 and 1,
    unquoted, whatever the entries are, and no parameter is consumed
    for them.  On the scenario of the documentation the result is
    [BETWEEN 0 AND 1]. *)
Theorem between_resolves_keys (column v0 v1 : JSValue) (this : Builder) :
  processCondition [column; VStr "between"; VArr [v0; v1]] this
  = match identifierOrQuote column false this with
    | Ok l this' => Ok (Some (l ++ " BETWEEN 0 AND 1")) this'
    | Throw e this' => Throw e this'
    end
  /\ processCondition age_between ages_builder
     = Ok (Some "`user`.`age` BETWEEN 0 AND 1") ages_builder.
Proof.
  split; [| vm_compute; reflexivity].
  unfold processCondition. simpl.
  change (string_of_nat 0) with "0". change (string_of_nat 1) with "1".
  unfold bind, ret.
  rewrite (plain_token_resolution "0" false this) by (discriminate || reflexivity).
  rewrite (plain_token_resolution "1" false this) by (discriminate || reflexivity).
  destruct (identifierOrQuote column false this); reflexivity.
Qed.

(** ** Positional parameters past the end *)

Lemma string_of_nat_inj (n m : nat) : string_of_nat n = string_of_nat m -> n = m.
Proof.
  unfold string_of_nat. intros H.
  apply (f_equal NilEmpty.uint_of_string) in H.
  rewrite !NilEmpty.usu in H. injection H as H.
  apply (f_equal Nat.of_uint) in H. now rewrite !Unsigned.of_to in H.
Qed.

Lemma has_key_index_from {A : Type} (l : list A) (k i : nat) :
  has_key (string_of_nat i) (index_from k l) = true -> k <= i < k + List.length l.
Proof.
  revert k. induction l as [|x l IH]; intros k; unfold has_key; simpl.
  - discriminate.
  - destruct (string_of_nat k =? string_of_nat i) eqn:E.
    + apply String.eqb_eq, string_of_nat_inj in E. lia.
    + intros H. specialize (IH (S k) H). lia.
Qed.

Lemma exhausted_placeholder_any_store (this : Builder) (force_quote : bool) :
  has_key (string_of_nat (sql_param_counter this)) (sql_params this) = false ->
  identifierOrQuote (VStr "?") force_quote this
  = Ok (if force_quote then "`?`" else "?") this.
Proof.
  intros H. unfold identifierOrQuote. simpl. rewrite H.
  destruct force_quote; reflexivity.
Qed.

(** C6, amended.  When the positional parameters were supplied as an
    array and the cursor is at or beyond their number, resolving the
    token [?] raises no error and leaves the instance, cursor
    included, as it was; the text returned is the token itself when
    [force_quote] is unset and the token between backticks when it is
    set. *)
Theorem exhausted_placeholder (this : Builder) (supplied : list JSValue)
        (force_quote : bool)
        (Hparams : sql_params this = entries (VArr supplied))
        (Hcursor : List.length supplied <= sql_param_counter this) :
  identifierOrQuote (VStr "?") force_quote this
  = Ok (if force_quote then "`?`" else "?") this.
Proof.
  apply exhausted_placeholder_any_store. rewrite Hparams. simpl.
  destruct (has_key (string_of_nat (sql_param_counter this)) (index_from 0 supplied))
    eqn:E; [| reflexivity].
  apply has_key_index_from in E. lia.
Qed.

Lemma exhausted_placeholder_witness :
  sql_params names_exhausted = entries (VArr [VStr "John"; VStr "Doe"])
  /\ List.length [VStr "John"; VStr "Doe"] <= sql_param_counter names_exhausted
  /\ identifierOrQuote (VStr "?") false names_exhausted = Ok "?" names_exhausted.
Proof.
  split; [reflexivity |]. split; [simpl; lia |].
  apply (exhausted_placeholder names_exhausted [VStr "John"; VStr "Doe"] false).
  - reflexivity.
  - simpl; lia.
Defined.

(** C6 as worded fails under [force_quote], which the members of
    [in] are resolved with: the text returned is not the token but the
    token between backticks. *)
Lemma exhausted_placeholder_quoted :
  identifierOrQuote (VStr "?") true names_exhausted = Ok "`?`" names_exhausted
  /\ identifierOrQuote (VStr "?") true names_exhausted <> Ok "?" names_exhausted
  /\ processCondition nickname_in names_exhausted
     = Ok (Some "`user`.`nickname` IN (`?`)") names_exhausted.
Proof. repeat split; (reflexivity || discriminate). Qed.

(** ** Dotted identifiers *)

Lemma word_char (c : ascii) :
  is_word c = true ->
  special c = false /\ is_word_or_star c = true
  /\ (nat_of_ascii c =? 32)%nat = false /\ (nat_of_ascii c =? 42)%nat = false
  /\ (nat_of_ascii c =? 46)%nat = false.
Proof.
  destruct c as [[] [] [] [] [] [] [] []]; cbv; intros H;
    repeat split; (reflexivity || discriminate).
Qed.

Lemma forallb_str_append (p : ascii -> bool) (a b : string) :
  forallb_str p (a ++ b) = forallb_str p a && forallb_str p b.
Proof.
  induction a as [|c a IH]; simpl; [reflexivity |].
  rewrite IH. now rewrite andb_assoc.
Qed.

Lemma forallb_str_impl (p q : ascii -> bool) (s : string) :
  (forall c, p c = true -> q c = true) ->
  forallb_str p s = true -> forallb_str q s = true.
Proof.
  intros Hpq. induction s as [|c s IH]; simpl; [reflexivity |].
  intros H. apply andb_true_iff in H as [Hc Hs].
  now rewrite (Hpq c Hc), IH.
Qed.

Lemma word_no_space (w : string) : forallb_str is_word w = true -> no_space w = true.
Proof.
  apply forallb_str_impl. intros c Hc.
  destruct (word_char c Hc) as (_ & _ & H & _). now rewrite H.
Qed.

Lemma no_special_matches (s : string) (i : nat) :
  forallb_str (fun c => negb (special c)) s = true -> special_matches s i = [].
Proof.
  revert i. induction s as [|c s IH]; intros i; simpl; [reflexivity |].
  intros H. apply andb_true_iff in H as [Hc Hs].
  destruct (special c); [discriminate | now apply IH].
Qed.

Lemma sqlEscape_plain (s : string) :
  forallb_str (fun c => negb (special c)) s = true -> sqlEscape s = s.
Proof.
  intros H. rewrite sqlEscape_escape_each.
  apply escape_each_plain. now apply no_special_matches.
Qed.

Lemma word_plain (w : string) :
  forallb_str is_word w = true -> forallb_str (fun c => negb (special c)) w = true.
Proof.
  apply forallb_str_impl. intros c Hc.
  destruct (word_char c Hc) as (H & _). now rewrite H.
Qed.

Lemma prefix_len_all (p : ascii -> bool) (a b : string) :
  forallb_str p a = true ->
  prefix_len p b = 0 ->
  prefix_len p (a ++ b) = String.length a.
Proof.
  intros Ha Hb. induction a as [|c a IH]; simpl in *; [exact Hb |].
  apply andb_true_iff in Ha as [Hc Ha]. rewrite Hc. now rewrite IH.
Qed.

Lemma replace_all_skipped (f : string -> option (nat * string * bool))
      (s : string) (k : nat) :
  String.length s <= k -> replace_all f s k = ("", false).
Proof.
  revert k. induction s as [|c s IH]; intros k Hk; simpl; [reflexivity |].
  destruct k as [|k]; [simpl in Hk; lia |].
  apply IH. simpl in Hk. lia.
Qed.

Lemma third_space (s : string) (a b : ascii) :
  substring 0 3 s = String a (String b (String " " EmptyString)) ->
  no_space s = false.
Proof.
  destruct s as [|c1 [|c2 [|c3 s]]]; simpl; try discriminate.
  rewrite substring_zero_nil. intros H. injection H as _ _ H. subst c3.
  unfold no_space. simpl. now rewrite !andb_false_r.
Qed.

Lemma as_callback_no_space (s : string) : no_space s = true -> as_callback s = None.
Proof.
  intros H. unfold as_callback.
  destruct (String.eqb_spec (substring 0 3 s) "as ") as [E | _].
  - apply third_space in E. congruence.
  - destruct (String.eqb_spec (substring 0 3 s) "AS ") as [E | _]; [| reflexivity].
    apply third_space in E. congruence.
Qed.

Lemma replace_as_no_space (s : string) :
  no_space s = true -> replace_all as_callback s 0 = (s, false).
Proof.
  induction s as [|c s IH]; intros H; [reflexivity |].
  cbn [replace_all]. rewrite (as_callback_no_space _ H).
  unfold no_space in H. simpl in H. apply andb_true_iff in H as [_ H].
  now rewrite (IH H).
Qed.

Lemma nonempty_length (s : string) : (s =? "") = false -> exists k, String.length s = S k.
Proof. destruct s; [discriminate | simpl; eauto]. Qed.

Lemma dotted_at_pair (w x : string) :
  is_word_text w = true ->
  (x =? "") = false ->
  forallb_str is_word_or_star x = true ->
  dotted_at (w ++ "." ++ x) = Some (String.length w, String.length x).
Proof.
  unfold is_word_text. intros Hw Hx Hstar.
  apply andb_true_iff in Hw as [Hne Hw]. apply negb_true_iff in Hne.
  unfold dotted_at.
  rewrite (prefix_len_all is_word w ("." ++ x) Hw eq_refl).
  destruct (nonempty_length w Hne) as [k Hk].
  rewrite Hk, <- Hk, drop_append. simpl.
  rewrite <- (append_nil_r x) at 1.
  rewrite (prefix_len_all is_word_or_star x "" Hstar eq_refl).
  destruct (nonempty_length x Hx) as [j Hj]. now rewrite Hj.
Qed.

Lemma quote_word_name (w : string) :
  is_word_text w = true -> quote_word w = backtick ++ w ++ backtick.
Proof.
  unfold is_word_text, quote_word. intros H.
  apply andb_true_iff in H as [_ H].
  destruct (String.eqb_spec w "*") as [E | _].
  - subst w. discriminate H.
  - now rewrite (sqlEscape_plain w (word_plain w H)).
Qed.

Lemma dotted_callback_whole (this : Builder) (w x : string) :
  is_word_text w = true ->
  (x =? "") = false ->
  forallb_str is_word_or_star x = true ->
  dotted_callback this (w ++ "." ++ x)
  = Some (String.length w + 1 + String.length x,
          if includes (sql_identifiers this) w
          then quote_word w ++ "." ++ quote_word x
          else w ++ "." ++ x,
          includes (sql_identifiers this) w).
Proof.
  intros Hw Hx Hstar.
  pose proof (dotted_at_pair w x Hw Hx Hstar) as Hd.
  assert (Hlen : String.length (w ++ "." ++ x) = String.length w + 1 + String.length x)
    by (rewrite !length_append; simpl; lia).
  assert (H1 : substring 0 (String.length w) (w ++ "." ++ x) = w)
    by apply substring_zero_append.
  assert (H2 : substring (String.length w + 1) (String.length x) (w ++ "." ++ x) = x).
  { replace (String.length w + 1) with (String.length (w ++ ".")).
    - assert (E : w ++ "." ++ x = (w ++ ".") ++ x ++ "")
        by now rewrite append_nil_r, append_assoc.
      rewrite E. apply substring_middle.
    - rewrite length_append. reflexivity. }
  assert (H3 : substring 0 (String.length w + 1 + String.length x) (w ++ "." ++ x)
               = w ++ "." ++ x)
    by (rewrite <- Hlen; apply substring_whole).
  unfold dotted_callback. rewrite Hd, H1, H2, H3.
  destruct (includes (sql_identifiers this) w); reflexivity.
Qed.

(** The first [replace] on a token that is exactly [w.x]. *)
Lemma replace_dotted_whole (this : Builder) (w x : string) :
  is_word_text w = true ->
  (x =? "") = false ->
  forallb_str is_word_or_star x = true ->
  replace_all (dotted_callback this) (w ++ "." ++ x) 0
  = if includes (sql_identifiers this) w
    then (quote_word w ++ "." ++ quote_word x, true)
    else (w ++ "." ++ x, false).
Proof.
  intros Hw Hx Hstar.
  pose proof (dotted_callback_whole this w x Hw Hx Hstar) as Hcb.
  assert (Hlen : String.length (w ++ "." ++ x) = String.length w + 1 + String.length x)
    by (rewrite !length_append; simpl; lia).
  destruct (w ++ "." ++ x) as [|c rest] eqn:Hs.
  { destruct w; discriminate. }
  cbn [replace_all]. rewrite Hcb.
  rewrite (replace_all_skipped _ rest) by (simpl in Hlen; lia).
  destruct (includes (sql_identifiers this) w); simpl; now rewrite append_nil_r.
Qed.

Lemma identifier_of_pair (this : Builder) (w x : string) (force_quote : bool) :
  is_word_text w = true ->
  (x =? "") = false ->
  forallb_str is_word_or_star x = true ->
  no_space x = true ->
  forallb_str (fun c => negb (special c)) x = true ->
  no_space (quote_word x) = true ->
  identifier this (VStr (w ++ "." ++ x)) force_quote
  = if includes (sql_identifiers this) w
    then backtick ++ w ++ backtick ++ "." ++ quote_word x
    else if force_quote then backtick ++ w ++ "." ++ x ++ backtick
         else w ++ "." ++ x.
Proof.
  intros Hw Hx Hstar Hsp Hpl Hq.
  pose proof Hw as Hw'. unfold is_word_text in Hw'.
  apply andb_true_iff in Hw' as [_ Hww].
  unfold identifier. change (js_String (VStr (w ++ "." ++ x))) with (w ++ "." ++ x).
  rewrite (replace_dotted_whole this w x Hw Hx Hstar).
  destruct (includes (sql_identifiers this) w).
  - rewrite (quote_word_name w Hw).
    rewrite replace_as_no_space.
    + simpl. now rewrite !append_assoc.
    + unfold no_space in *. rewrite !forallb_str_append.
      fold (no_space w). rewrite (word_no_space w Hww). simpl. exact Hq.
  - assert (Hns : no_space (w ++ "." ++ x) = true).
    { unfold no_space in *. rewrite !forallb_str_append.
      fold (no_space w). rewrite (word_no_space w Hww). simpl. exact Hsp. }
    rewrite (replace_as_no_space _ Hns). cbn [orb negb andb]. rewrite Hns.
    destruct force_quote; cbn [orb negb andb]; [| reflexivity].
    rewrite sqlEscape_plain.
    + now rewrite !append_assoc.
    + rewrite !forallb_str_append. rewrite (word_plain w Hww). simpl. exact Hpl.
Qed.

(** C4, amended.  For names [table] and [column] made of the
    characters [a-zA-Z_0-9]: when [table] is in the registry,
    [identifier] turns [table.column] into the two names between
    backticks joined by a dot, and [table.*] into the quoted table
    followed by [.*]; when [table] is not in the registry the token
    comes back unchanged if [force_quote] is unset, and as a whole
    between one pair of backticks if it is set. *)
Theorem identifier_dotted (this : Builder) (table column : string)
        (force_quote : bool)
        (Htable : is_word_text table = true)
        (Hcolumn : is_word_text column = true) :
  identifier this (VStr (table ++ "." ++ column)) force_quote
  = (if includes (sql_identifiers this) table
     then "`" ++ table ++ "`.`" ++ column ++ "`"
     else if force_quote then "`" ++ table ++ "." ++ column ++ "`"
          else table ++ "." ++ column)
  /\ identifier this (VStr (table ++ ".*")) force_quote
     = (if includes (sql_identifiers this) table
        then "`" ++ table ++ "`.*"
        else if force_quote then "`" ++ table ++ ".*`"
             else table ++ ".*").
Proof.
  pose proof Hcolumn as Hc. unfold is_word_text in Hc.
  apply andb_true_iff in Hc as [Hne Hcw]. apply negb_true_iff in Hne.
  split.
  - rewrite (identifier_of_pair this table column force_quote Htable Hne).
    + rewrite (quote_word_name column Hcolumn). reflexivity.
    + revert Hcw. apply forallb_str_impl. intros c H. now destruct (word_char c H) as (_ & ? & _).
    + now apply word_no_space.
    + now apply word_plain.
    + rewrite (quote_word_name column Hcolumn).
      unfold no_space. rewrite !forallb_str_append.
      fold (no_space column). now rewrite (word_no_space column Hcw).
  - change (table ++ ".*") with (table ++ "." ++ "*").
    rewrite (identifier_of_pair this table "*" force_quote Htable); reflexivity.
Qed.

Lemma identifier_dotted_witness :
  is_word_text "user" = true /\ is_word_text "first_name" = true
  /\ identifier names_builder (VStr "user.first_name") false = "`user`.`first_name`"
  /\ identifier names_builder (VStr "user.*") false = "`user`.*".
Proof.
  split; [reflexivity |]. split; [reflexivity |].
  exact (identifier_dotted names_builder "user" "first_name" false eq_refl eq_refl).
Defined.

(** C4 as worded fails for a token whose first segment is not
    registered when [force_quote] is set, as it is for the columns of a
    [select]: the token comes back between backticks. *)
Lemma unregistered_token_quoted :
  includes (sql_identifiers names_builder) "orders" = false
  /\ identifier names_builder (VStr "orders.id") true = "`orders.id`"
  /\ identifier names_builder (VStr "orders.id") true <> "orders.id"
  /\ text_of (fromJson orders_column_query)
     = Some ("SELECT `orders.id`" ++ newline ++ "FROM `users` AS `user`" ++ newline).
Proof. repeat split; (reflexivity || discriminate). Qed.

(** ** The loop of [processConditions] *)

Lemma for_each_values {A B : Type} (l : list A) (i : nat) (body : A -> M (list B)) :
  for_each (index_from i l) (fun entry => body (snd entry)) = for_each l body.
Proof.
  revert i. induction l as [|x l IH]; intros i; simpl; [reflexivity |].
  now rewrite IH.
Qed.

Lemma for_each_map {A B C : Type} (f : A -> B) (l : list A) (body : B -> M (list C)) :
  for_each (map f l) body = for_each l (fun x => body (f x)).
Proof. induction l as [|x l IH]; simpl; [reflexivity | now rewrite IH]. Qed.

Lemma processConditions_at_items (depth : nat) (conditions : JSValue) :
  processConditions_at depth conditions
  = for_each (map snd (entries conditions)) (process_item depth).
Proof. rewrite for_each_map. destruct depth; reflexivity. Qed.

Lemma processConditions_at_array (depth : nat) (items : list JSValue) :
  processConditions_at depth (VArr items) = for_each items (process_item depth).
Proof.
  rewrite processConditions_at_items, for_each_map. simpl.
  apply (for_each_values items 0 (process_item depth)).
Qed.

Lemma for_each_cons {A B : Type} (x : A) (l : list A) (body : A -> M (list B))
      (this : Builder) :
  for_each (x :: l) body this
  = match body x this with
    | Ok pushed this1 =>
        match for_each l body this1 with
        | Ok more this2 => Ok (pushed ++ more)%list this2
        | Throw e this2 => Throw e this2
        end
    | Throw e this1 => Throw e this1
    end.
Proof.
  simpl. unfold bind, ret. destruct (body x this); [| reflexivity].
  destruct (for_each l body this0); reflexivity.
Qed.

(** ** [between], [in] and [not in] on a value that is no object *)

Lemma join_fragments_null_first (sep : string) (f : Fragment) (fs : list Fragment) :
  join_fragments sep (None :: f :: fs) = sep ++ join_fragments sep (f :: fs).
Proof. reflexivity. Qed.

(** C7, amended.  For a [between], [in] or [not in] leaf whose value
    is a string, a number, a boolean or [undefined] (anything whose
    [typeof] is not [object]), [processCondition] raises no error,
    changes nothing and returns [null]; [processConditions] pushes
    that [null] in the place of the leaf, and a [join] renders it as
    the empty text, so that the joined clause continues with the bare
    separator. *)
Theorem malformed_member_value (column value : JSValue) (op : string) (this : Builder)
        (Hop : In op ["between"; "in"; "not in"])
        (Hvalue : (typeof value =? "object") = false) :
  processCondition [column; VStr op; value] this = Ok None this
  /\ (forall (depth : nat) (rest : list JSValue),
        processConditions_at depth (VArr (VArr [column; VStr op; value] :: rest)) this
        = match processConditions_at depth (VArr rest) this with
          | Ok fs this' => Ok (None :: fs) this'
          | Throw e this' => Throw e this'
          end)
  /\ (forall (sep : string) (f : Fragment) (fs : list Fragment),
        join_fragments sep (None :: f :: fs) = sep ++ join_fragments sep (f :: fs)).
Proof.
  assert (Hleaf : processCondition [column; VStr op; value] this = Ok None this).
  { unfold processCondition.
    destruct Hop as [<- | [<- | [<- | []]]]; simpl; rewrite Hvalue; reflexivity. }
  split; [exact Hleaf |]. split; [| intros; reflexivity].
  intros depth rest. rewrite !processConditions_at_array, for_each_cons.
  cbn [process_item]. unfold bind at 1. rewrite Hleaf. unfold ret at 1.
  destruct (for_each rest (process_item depth) this); reflexivity.
Qed.

Lemma malformed_member_value_witness :
  In "in" ["between"; "in"; "not in"]
  /\ (typeof (VNum 5) =? "object") = false
  /\ processCondition [VStr "user.age"; VStr "in"; VNum 5] names_builder
     = Ok None names_builder.
Proof.
  split; [simpl; auto |]. split; [reflexivity |].
  apply (malformed_member_value (VStr "user.age") (VNum 5) "in" names_builder).
  - simpl; auto.
  - reflexivity.
Defined.

(** C7 as worded fails for a value that is no sequence but whose
    [typeof] is [object]: [null] gives an empty list between
    parentheses, a plain object gives its values. *)
Lemma null_member_value_rendered :
  processCondition age_in_null names_builder
  = Ok (Some "`user`.`age` IN ()") names_builder
  /\ processCondition age_in_object names_builder
     = Ok (Some "`user`.`age` IN ('18')") names_builder
  /\ processCondition age_in_null names_builder <> Ok None names_builder.
Proof. repeat split; (reflexivity || discriminate). Qed.

(** ** [contains], [begins] and [ends] *)

(** C9.  For a [contains], [begins] or [ends] leaf, the column is
    resolved and the value is handed to [sqlEscape] as it is, never to
    [identifierOrQuote] or [quote]; the fragment is the resolved
    column, [LIKE], and the escaped value between the percent signs of
    the operator, in single quotes.  For a string value the escaped
    text is the character-wise escape, and the instance left behind is
    the one left by resolving the column, so the value consumes no
    parameter and moves no cursor; in particular the value [?] appears
    as such in the pattern. *)
Theorem like_value_escaped (column : JSValue) (op s : string) (this : Builder)
        (Hop : In op ["contains"; "begins"; "ends"]) :
  (forall value,
      processCondition [column; VStr op; value] this
      = (l <- identifierOrQuote column false ;;
         escaped <- sqlEscape_any value ;;
         ret (Some (l ++ " LIKE '" ++ like_pattern op escaped ++ "'"))) this)
  /\ processCondition [column; VStr op; VStr s] this
     = match identifierOrQuote column false this with
       | Ok l this' =>
           Ok (Some (l ++ " LIKE '" ++ like_pattern op (escape_by_table s) ++ "'")) this'
       | Throw e this' => Throw e this'
       end
  /\ processCondition [column; VStr op; VStr "?"] this
     = match identifierOrQuote column false this with
       | Ok l this' => Ok (Some (l ++ " LIKE '" ++ like_pattern op "?" ++ "'")) this'
       | Throw e this' => Throw e this'
       end.
Proof.
  assert (G : forall value,
             processCondition [column; VStr op; value] this
             = (l <- identifierOrQuote column false ;;
                escaped <- sqlEscape_any value ;;
                ret (Some (l ++ " LIKE '" ++ like_pattern op escaped ++ "'"))) this).
  { intros value. unfold processCondition, bind, ret.
    destruct Hop as [<- | [<- | [<- | []]]]; simpl;
      destruct (identifierOrQuote column false this) as [l this1 | e this1];
      try reflexivity;
      destruct (sqlEscape_any value this1); try reflexivity;
      unfold like_pattern; simpl; now rewrite ?append_assoc. }
  assert (H : forall t, processCondition [column; VStr op; VStr t] this
              = match identifierOrQuote column false this with
                | Ok l this' =>
                    Ok (Some (l ++ " LIKE '" ++ like_pattern op (escape_by_table t) ++ "'"))
                       this'
                | Throw e this' => Throw e this'
                end).
  { intros t. rewrite G. unfold sqlEscape_any, bind, ret.
    now rewrite <- escape_each_by_table, <- sqlEscape_escape_each. }
  split; [exact G |]. split; [apply H | apply (H "?")].
Qed.

Lemma like_value_escaped_witness :
  In "contains" ["contains"; "begins"; "ends"]
  /\ processCondition [VStr "user.first_name"; VStr "contains"; VStr "?"] names_builder
     = Ok (Some "`user`.`first_name` LIKE '%?%'") names_builder.
Proof.
  split; [simpl; auto |].
  exact (proj2 (proj2 (like_value_escaped (VStr "user.first_name") "contains" "?"
                         names_builder (or_introl eq_refl)))).
Defined.

(** ** Compilation touches only the positional cursor *)

Lemma same_clauses_refl (b : Builder) : same_clauses b b.
Proof. destruct b; reflexivity. Qed.

Lemma same_clauses_trans (a b c : Builder) :
  same_clauses a b -> same_clauses b c -> same_clauses a c.
Proof.
  unfold same_clauses. intros Hab Hbc. rewrite Hbc at 1. rewrite Hab at 1.
  destruct a; reflexivity.
Qed.

Lemma same_clauses_counter (n : nat) (b : Builder) : same_clauses b (set_param_counter n b).
Proof. destruct b; reflexivity. Qed.

Lemma keeps_ret {A : Type} (a : A) : keeps_clauses (ret a).
Proof. intros this. apply same_clauses_refl. Qed.

Lemma keeps_throw {A : Type} (e : JSError) : keeps_clauses (@throw A e).
Proof. intros this. apply same_clauses_refl. Qed.

Lemma keeps_gets {A : Type} (f : Builder -> A) : keeps_clauses (gets f).
Proof. intros this. apply same_clauses_refl. Qed.

Lemma keeps_bind {A B : Type} (m : M A) (k : A -> M B) :
  keeps_clauses m -> (forall a, keeps_clauses (k a)) -> keeps_clauses (bind m k).
Proof.
  intros Hm Hk this. unfold bind. specialize (Hm this).
  destruct (m this) as [a this1 | e this1]; [| exact Hm].
  specialize (Hk a this1).
  destruct (k a this1); eapply same_clauses_trans; eauto.
Qed.

Lemma keeps_for_each {A B : Type} (l : list A) (body : A -> M (list B)) :
  (forall x, keeps_clauses (body x)) -> keeps_clauses (for_each l body).
Proof.
  intros H. induction l as [|x l IH]; simpl.
  - apply keeps_ret.
  - apply keeps_bind; [apply H |]. intros pushed.
    apply keeps_bind; [exact IH |]. intros more. apply keeps_ret.
Qed.

Create HintDb frame.
#[local] Hint Resolve keeps_ret keeps_throw keeps_gets : frame.

Ltac frame_step :=
  match goal with
  | |- keeps_clauses (bind _ _) => apply keeps_bind; [| intro]
  | |- keeps_clauses (for_each _ _) => apply keeps_for_each; intro
  | |- keeps_clauses (if ?c then _ else _) => destruct c
  | |- keeps_clauses (let '(_, _) := ?p in _) => destruct p
  | |- keeps_clauses (match ?x with _ => _ end) => destruct x
  | |- keeps_clauses _ => solve [auto with frame]
  end.

Ltac frame := repeat frame_step.

Lemma keeps_sqlEscape_any (val : JSValue) : keeps_clauses (sqlEscape_any val).
Proof. unfold sqlEscape_any. frame. Qed.

#[local] Hint Resolve keeps_sqlEscape_any : frame.

Lemma keeps_quote (val : JSValue) (force_quote : bool) :
  keeps_clauses (quote val force_quote).
Proof. unfold quote. frame. Qed.

#[local] Hint Resolve keeps_quote : frame.

Lemma keeps_identifierOrQuote (val : JSValue) (force_quote : bool) :
  keeps_clauses (identifierOrQuote val force_quote).
Proof.
  intros this. unfold identifierOrQuote.
  repeat match goal with
         | |- context [if ?c then _ else _] => destruct c
         | |- context [match first_named ?x with _ => _ end] => destruct (first_named x)
         | |- context [match assoc ?k ?l with _ => _ end] => destruct (assoc k l)
         end;
    try apply same_clauses_refl;
    try apply (keeps_quote _ _ this).
  all: match goal with
       | |- context [quote ?p ?f (set_param_counter ?n ?b)] =>
           pose proof (keeps_quote p f (set_param_counter n b)) as H;
           destruct (quote p f (set_param_counter n b));
           (eapply same_clauses_trans; [apply same_clauses_counter | exact H])
       end.
Qed.

#[local] Hint Resolve keeps_identifierOrQuote : frame.

Lemma keeps_processCondition (condition : list JSValue) :
  keeps_clauses (processCondition condition).
Proof.
  unfold processCondition.
  destruct condition as [|c0 [|c1 [|c2 [|c3 rest]]]]; auto with frame.
  frame.
Qed.

#[local] Hint Resolve keeps_processCondition : frame.

Lemma keeps_uppercase_key (o : list (string * JSValue)) : keeps_clauses (uppercase_key o).
Proof. unfold uppercase_key, spread. frame. Qed.

#[local] Hint Resolve keeps_uppercase_key : frame.

Lemma keeps_processConditions_at (depth : nat) (conditions : JSValue) :
  keeps_clauses (processConditions_at depth conditions).
Proof.
  revert conditions. induction depth as [|d IH]; intros conditions;
    rewrite processConditions_at_items;
    apply keeps_for_each; intros cond; unfold process_item;
    destruct cond as [| | | | |items|props]; auto with frame.
  - destruct items as [|c0 [|c1 [|c2 [|c3 rest]]]]; frame.
  - frame.
  - destruct items as [|c0 [|c1 [|c2 [|c3 rest]]]]; frame.
  - frame.
Qed.

Lemma keeps_processConditions (conditions : JSValue) :
  keeps_clauses (processConditions conditions).
Proof. apply keeps_processConditions_at. Qed.

#[local] Hint Resolve keeps_processConditions : frame.

Lemma keeps_processColumns (columns : JSValue) : keeps_clauses (processColumns columns).
Proof. unfold processColumns. frame. Qed.

Lemma keeps_processValues_loop (todo : list (string * JSValue))
      (filled : list (string * string)) :
  keeps_clauses (processValues_loop todo filled).
Proof.
  revert filled. induction todo as [|[i v] rest IH]; intros filled; simpl.
  - auto with frame.
  - frame.
Qed.

#[local] Hint Resolve keeps_processColumns keeps_processValues_loop : frame.

Lemma keeps_processValues (columns : JSValue) : keeps_clauses (processValues columns).
Proof. unfold processValues. frame. Qed.

#[local] Hint Resolve keeps_processValues : frame.

Lemma keeps_duplicates_clause (d : JSValue) : keeps_clauses (duplicates_clause d).
Proof. unfold duplicates_clause. frame. Qed.

#[local] Hint Resolve keeps_duplicates_clause : frame.

Lemma keeps_buildSelect : keeps_clauses buildSelect.
Proof. unfold buildSelect. frame. Qed.

Lemma keeps_buildInsert : keeps_clauses buildInsert.
Proof. unfold buildInsert. frame. Qed.

Lemma keeps_buildUpdate (joins : string) : keeps_clauses (buildUpdate joins).
Proof. unfold buildUpdate. frame. Qed.

Lemma keeps_buildDelete : keeps_clauses buildDelete.
Proof. unfold buildDelete. frame. Qed.

Lemma keeps_buildJoin (j : JSValue) : keeps_clauses (buildJoin j).
Proof. unfold buildJoin. frame. Qed.

#[local] Hint Resolve keeps_buildSelect keeps_buildInsert keeps_buildUpdate
  keeps_buildDelete keeps_buildJoin : frame.

Lemma keeps_build_joins : keeps_clauses build_joins.
Proof. unfold build_joins. frame. Qed.

Lemma keeps_buildWhere : keeps_clauses buildWhere.
Proof. unfold buildWhere. frame. Qed.

Lemma keeps_buildHaving : keeps_clauses buildHaving.
Proof. unfold buildHaving. frame. Qed.

Lemma keeps_buildGroup : keeps_clauses buildGroup.
Proof. unfold buildGroup. frame. Qed.

Lemma keeps_buildOrder : keeps_clauses buildOrder.
Proof. unfold buildOrder. frame. Qed.

#[local] Hint Resolve keeps_build_joins keeps_buildWhere keeps_buildHaving
  keeps_buildGroup keeps_buildOrder : frame.

(** ** Unknown operators *)

Lemma fails_bind_left {A B : Type} (m : M A) (k : A -> M B) (this : Builder) :
  fails (m this) -> fails (bind m k this).
Proof. intros (e & this' & H). unfold bind. rewrite H. now exists e, this'. Qed.

Lemma fails_bind_keeps {A B : Type} (m : M A) (k : A -> M B) (this : Builder) :
  keeps_clauses m ->
  (forall a this', same_clauses this this' -> fails (k a this')) ->
  fails (bind m k this).
Proof.
  intros Hm Hk. unfold bind. specialize (Hm this).
  destruct (m this) as [a this1 | e this1].
  - now apply Hk.
  - now exists e, this1.
Qed.

Lemma for_each_app {A B : Type} (l1 l2 : list A) (body : A -> M (list B))
      (this : Builder) :
  for_each (l1 ++ l2) body this
  = match for_each l1 body this with
    | Ok pushed this1 =>
        match for_each l2 body this1 with
        | Ok more this2 => Ok (pushed ++ more)%list this2
        | Throw e this2 => Throw e this2
        end
    | Throw e this1 => Throw e this1
    end.
Proof.
  revert this. induction l1 as [|x l1 IH]; intros this.
  - simpl. unfold ret. destruct (for_each l2 body this); reflexivity.
  - rewrite <- app_comm_cons, !for_each_cons.
    destruct (body x this) as [p this1 | e this1]; [| reflexivity].
    rewrite IH.
    destruct (for_each l1 body this1) as [q this2 | e this2]; [| reflexivity].
    destruct (for_each l2 body this2) as [r this3 | e this3]; [| reflexivity].
    now rewrite app_assoc.
Qed.

Lemma for_each_fails {A B : Type} (l : list A) (body : A -> M (list B)) (x : A) :
  In x l ->
  (forall this, fails (body x this)) ->
  forall this, fails (for_each l body this).
Proof.
  intros Hin Hx. induction l as [|y l IH]; [destruct Hin |].
  intros this. rewrite for_each_cons.
  destruct Hin as [-> | Hin].
  - destruct (Hx this) as (e & this' & H). rewrite H. now exists e, this'.
  - destruct (body y this) as [p this1 | e this1]; [| now exists e, this1].
    destruct (IH Hin this1) as (e & this' & H). rewrite H. now exists e, this'.
Qed.

Lemma unknown_operator_throws (column operator value : JSValue) (this : Builder) :
  known_operator operator = false ->
  processCondition [column; operator; value] this = Throw unknown_clause this.
Proof.
  unfold known_operator, operators. cbn [existsb]. intros H.
  repeat (apply orb_false_iff in H; destruct H as [?H H]).
  unfold processCondition.
  repeat match goal with
         | E : is_string _ operator = false |- _ => rewrite E; clear E
         end.
  reflexivity.
Qed.

Lemma unknown_leaf_item (column operator value : JSValue) (depth : nat)
      (this : Builder) :
  known_operator operator = false ->
  process_item depth (VArr [column; operator; value]) this = Throw unknown_clause this.
Proof.
  intros H. cbn [process_item]. unfold bind.
  now rewrite (unknown_operator_throws column operator value this H).
Qed.

Lemma holds_leaf_fails (leaf conditions : JSValue) :
  holds_leaf leaf conditions ->
  (forall depth this, fails (process_item depth leaf this)) ->
  forall depth this, fails (processConditions_at depth conditions this).
Proof.
  intros Hholds Hleaf.
  induction Hholds as [conditions Hin | conditions cond o Hin Hgroup Hkey _ IH];
    intros depth this; rewrite processConditions_at_items.
  - now apply (for_each_fails _ _ leaf).
  - apply (for_each_fails _ _ cond); [exact Hin |]. clear this. intros this.
    assert (Hitem : process_item depth cond
                    = (o <- uppercase_key (entries cond) ;;
                       let combine := if has_key "OR" o then "OR" else "AND" in
                       match depth with
                       | O => throw RecursionLimit
                       | S d =>
                           conds <- processConditions_at d (js_get (VObj o) combine) ;;
                           ret [Some ("(" ++ join_fragments (" " ++ combine ++ " ") conds
                                      ++ ")")]
                       end)).
    { destruct cond as [| | | | |[|c0 [|c1 [|c2 [|c3 rest]]]]|props];
        try discriminate Hgroup; reflexivity. }
    rewrite Hitem. unfold bind at 1. rewrite Hkey.
    destruct depth as [|d].
    + now exists RecursionLimit, this.
    + apply fails_bind_left, IH.
Qed.

Lemma same_clauses_fields (b b' : Builder) :
  same_clauses b b' ->
  sql_where b' = sql_where b /\ sql_having b' = sql_having b
  /\ sql_joins b' = sql_joins b /\ sql_mode b' = sql_mode b.
Proof. unfold same_clauses. intros ->. repeat split. Qed.

Lemma holds_leaf_nonempty (leaf : JSValue) (items : list JSValue) :
  holds_leaf leaf (VArr items) -> items <> [].
Proof. intros H ->. inversion H as [c Hin | c cond o Hin]; destruct Hin. Qed.

Section UnknownLeaf.

Variable leaf : JSValue.
Hypothesis leaf_fails : forall depth this, fails (process_item depth leaf this).

Lemma buildWhere_fails (this : Builder) :
  holds_leaf leaf (VArr (sql_where this)) -> fails (buildWhere this).
Proof.
  intros H. unfold buildWhere, bind at 1, gets.
  apply fails_bind_left. unfold processConditions.
  apply (holds_leaf_fails leaf _ H leaf_fails).
Qed.

Lemma buildHaving_fails (this : Builder) :
  holds_leaf leaf (VArr (sql_having this)) -> fails (buildHaving this).
Proof.
  intros H. unfold buildHaving, bind at 1, gets.
  apply fails_bind_left. unfold processConditions.
  apply (holds_leaf_fails leaf _ H leaf_fails).
Qed.

Lemma build_joins_fails (this : Builder) (j : JSValue) :
  In j (sql_joins this) ->
  holds_leaf leaf (js_get j "conditions") ->
  fails (build_joins this).
Proof.
  intros Hin H. unfold build_joins, bind at 1, gets.
  apply fails_bind_left. apply (for_each_fails _ _ j Hin).
  intros this'. apply fails_bind_left. unfold buildJoin.
  apply fails_bind_left. unfold processConditions.
  apply (holds_leaf_fails leaf _ H leaf_fails).
Qed.

Lemma build_tail_fails (query : string) (this : Builder) :
  holds_leaf leaf (VArr (sql_where this)) \/ holds_leaf leaf (VArr (sql_having this)) ->
  fails (build_tail query this).
Proof.
  intros H. unfold build_tail, bind at 1, gets.
  destruct H as [Hw | Hh].
  - apply fails_bind_left.
    pose proof (holds_leaf_nonempty _ _ Hw) as Hne.
    destruct (sql_where this) eqn:E; [congruence |].
    rewrite <- E in Hw. now apply buildWhere_fails.
  - apply fails_bind_keeps.
    { destruct (sql_where this); auto with frame. }
    intros w this1 Hsame. apply fails_bind_left.
    pose proof (holds_leaf_nonempty _ _ Hh) as Hne.
    destruct (sql_having this) eqn:E; [congruence |].
    apply buildHaving_fails.
    destruct (same_clauses_fields _ _ Hsame) as (_ & -> & _). now rewrite E.
Qed.

Lemma compiles_leaf_same (this this' : Builder) :
  same_clauses this this' -> compiles_leaf leaf this -> compiles_leaf leaf this'.
Proof.
  intros Hsame. destruct (same_clauses_fields _ _ Hsame) as (Hw & Hh & Hj & _).
  unfold compiles_leaf. now rewrite Hw, Hh, Hj.
Qed.

(** A statement head followed by the joins and the optional clauses. *)
Lemma head_joins_tail_fails (head : M string) (this : Builder) :
  keeps_clauses head ->
  compiles_leaf leaf this ->
  fails ((h <- head ;; joins <- build_joins ;; build_tail (h ++ joins)) this).
Proof.
  intros Hhead Hc. apply fails_bind_keeps; [exact Hhead |].
  intros h this1 H1.
  apply (compiles_leaf_same _ _ H1) in Hc.
  destruct Hc as [Hw | [Hh | (j & Hin & Hj)]].
  - apply fails_bind_keeps; [apply keeps_build_joins |]. intros js this2 H2.
    apply build_tail_fails. left.
    destruct (same_clauses_fields _ _ H2) as (-> & _). exact Hw.
  - apply fails_bind_keeps; [apply keeps_build_joins |]. intros js this2 H2.
    apply build_tail_fails. right.
    destruct (same_clauses_fields _ _ H2) as (_ & -> & _). exact Hh.
  - apply fails_bind_left. now apply (build_joins_fails this1 j).
Qed.

Lemma build_fails (this : Builder) : compiles_leaf leaf this -> fails (build this).
Proof.
  intros Hc. unfold build, bind at 1, gets.
  destruct (sql_mode this) as [mode |]; [| now exists (Error "Unknown query type"), this].
  destruct (mode =? "select").
  { apply head_joins_tail_fails; [apply keeps_buildSelect | exact Hc]. }
  destruct (mode =? "insert").
  { apply head_joins_tail_fails; [apply keeps_buildInsert | exact Hc]. }
  destruct (mode =? "delete").
  { apply head_joins_tail_fails; [apply keeps_buildDelete | exact Hc]. }
  destruct (mode =? "update"); [| now exists (Error "Unknown query type"), this].
  destruct Hc as [Hw | [Hh | (j & Hin & Hj)]].
  - apply fails_bind_keeps; [apply keeps_build_joins |]. intros js this1 H1.
    apply fails_bind_keeps; [apply keeps_buildUpdate |]. intros h this2 H2.
    apply build_tail_fails. left.
    destruct (same_clauses_fields _ _ H2) as (-> & _).
    destruct (same_clauses_fields _ _ H1) as (-> & _). exact Hw.
  - apply fails_bind_keeps; [apply keeps_build_joins |]. intros js this1 H1.
    apply fails_bind_keeps; [apply keeps_buildUpdate |]. intros h this2 H2.
    apply build_tail_fails. right.
    destruct (same_clauses_fields _ _ H2) as (_ & -> & _).
    destruct (same_clauses_fields _ _ H1) as (_ & -> & _). exact Hh.
  - apply fails_bind_left. now apply (build_joins_fails this j).
Qed.

End UnknownLeaf.

(** ** No statement, no query *)

Lemma keeps_mode_ret {A : Type} (a : A) : keeps_mode (ret a).
Proof. intros this. reflexivity. Qed.

Lemma keeps_mode_throw {A : Type} (e : JSError) : keeps_mode (@throw A e).
Proof. intros this. reflexivity. Qed.

Lemma keeps_mode_gets {A : Type} (f : Builder -> A) : keeps_mode (gets f).
Proof. intros this. reflexivity. Qed.

Lemma keeps_mode_modify (f : Builder -> Builder) :
  (forall b, sql_mode (f b) = sql_mode b) -> keeps_mode (modify f).
Proof. intros H this. apply H. Qed.

Lemma keeps_mode_bind {A B : Type} (m : M A) (k : A -> M B) :
  keeps_mode m -> (forall a, keeps_mode (k a)) -> keeps_mode (bind m k).
Proof.
  intros Hm Hk this. unfold bind. specialize (Hm this).
  destruct (m this) as [a this1 | e this1]; [| exact Hm].
  specialize (Hk a this1). destruct (k a this1); congruence.
Qed.

Lemma keeps_mode_for_each_ {A : Type} (l : list A) (body : A -> M unit) :
  (forall x, keeps_mode (body x)) -> keeps_mode (for_each_ l body).
Proof.
  intros H. induction l as [|x l IH]; simpl.
  - apply keeps_mode_ret.
  - apply keeps_mode_bind; [apply H | intros _; exact IH].
Qed.

Create HintDb mode.
#[local] Hint Resolve keeps_mode_ret keeps_mode_throw keeps_mode_gets : mode.

Ltac mode_step :=
  match goal with
  | |- keeps_mode (bind _ _) => apply keeps_mode_bind; [| intro]
  | |- keeps_mode (for_each_ _ _) => apply keeps_mode_for_each_; intro
  | |- keeps_mode (modify _) => apply keeps_mode_modify; intro; reflexivity
  | |- keeps_mode (if ?c then _ else _) => destruct c
  | |- keeps_mode (match ?x with _ => _ end) => destruct x
  | |- keeps_mode _ => solve [auto with mode]
  end.

Ltac mode := repeat mode_step.

Lemma keeps_mode_js_in_m (k : string) (v : JSValue) : keeps_mode (js_in_m k v).
Proof. unfold js_in_m. mode. Qed.

#[local] Hint Resolve keeps_mode_js_in_m : mode.

Lemma keeps_mode_require (k : string) (v : JSValue) (msg : string) :
  keeps_mode (require k v msg).
Proof. unfold require. mode. Qed.

Lemma keeps_mode_table (payload : JSValue) : keeps_mode (table payload).
Proof. unfold table, push_identifier. mode. Qed.

#[local] Hint Resolve keeps_mode_require keeps_mode_table : mode.

Lemma keeps_mode_joins (payload : JSValue) : keeps_mode (joins payload).
Proof. unfold joins. mode. Qed.

Lemma keeps_mode_limit (val : JSValue) : keeps_mode (limit val).
Proof. unfold limit. mode. Qed.

Lemma returns_for_each_modify {A : Type} (l : list A) (f : A -> Builder -> Builder) :
  (forall x b, sql_mode (f x b) = sql_mode b) ->
  returns_keeping_mode (for_each_ l (fun x => modify (f x))).
Proof.
  intros H. induction l as [|x l IH]; intros this; simpl.
  - now exists this.
  - unfold bind, modify. destruct (IH (f x this)) as (this' & Hrun & Hmode).
    exists this'. split; [exact Hrun |]. now rewrite Hmode, H.
Qed.

Lemma returns_where (payload : JSValue) : returns_keeping_mode (where_ payload).
Proof. apply returns_for_each_modify. reflexivity. Qed.

Lemma returns_having (payload : JSValue) : returns_keeping_mode (having payload).
Proof. apply returns_for_each_modify. reflexivity. Qed.

Lemma returns_order (payload : JSValue) : returns_keeping_mode (order payload).
Proof. apply returns_for_each_modify. reflexivity. Qed.

Lemma returns_group (payload : JSValue) : returns_keeping_mode (group payload).
Proof. apply returns_for_each_modify. reflexivity. Qed.

Lemma returns_params (payload : JSValue) : returns_keeping_mode (params payload).
Proof. apply returns_for_each_modify. reflexivity. Qed.

Lemma returns_keeps_mode (m : M unit) : returns_keeping_mode m -> keeps_mode m.
Proof.
  intros H this. destruct (H this) as (this' & Hrun & Hmode). now rewrite Hrun.
Qed.

Lemma build_unset (this : Builder) :
  sql_mode this = None -> build this = Throw unknown_query_type this.
Proof. intros H. unfold build, bind, gets. now rewrite H. Qed.

Lemma unstarted_mode (this : Builder) : unstarted this -> sql_mode this = None.
Proof.
  induction 1 as [| method payload this _ IH Hin]; [reflexivity |].
  assert (Hk : keeps_mode (method payload)).
  { simpl in Hin.
    destruct Hin as [<- | [<- | [<- | [<- | [<- | [<- | [<- | []]]]]]]].
    - apply keeps_mode_joins.
    - apply returns_keeps_mode, returns_order.
    - apply returns_keeps_mode, returns_group.
    - apply returns_keeps_mode, returns_where.
    - apply returns_keeps_mode, returns_having.
    - apply keeps_mode_limit.
    - apply returns_keeps_mode, returns_params. }
  specialize (Hk this). unfold after.
  destruct (method payload this); congruence.
Qed.

Lemma js_in_shape (k k' : string) (payload : JSValue) (present : bool) :
  js_in k payload = Some present -> exists present', js_in k' payload = Some present'.
Proof. destruct payload; simpl; try discriminate; eauto. Qed.

Lemma when_present_keeps_mode (k : string) (payload : JSValue)
      (method : JSValue -> M unit) :
  (forall v, keeps_mode (method v)) -> keeps_mode (when_present k payload method).
Proof. intros H. unfold when_present. mode. Qed.

Lemma when_present_absent (k : string) (payload : JSValue)
      (method : JSValue -> M unit) :
  js_in k payload = Some false -> returns_keeping_mode (when_present k payload method).
Proof.
  intros H this. unfold when_present, js_in_m, bind. rewrite H. now exists this.
Qed.

Lemma when_present_returns (k : string) (payload : JSValue)
      (method : JSValue -> M unit) (present : bool) :
  js_in k payload = Some present ->
  (forall v, returns_keeping_mode (method v)) ->
  returns_keeping_mode (when_present k payload method).
Proof.
  intros H Hm this. unfold when_present, js_in_m, bind. rewrite H. unfold ret.
  destruct present; [apply Hm | now exists this].
Qed.

Section WithoutStatement.

(** [quietly] stands for the payloads on which nothing before [build]
  can throw. *)
Variable quietly : Prop.

Lemma ends_unknown_build : ends_unknown quietly build.
Proof.
  intros this H. exists unknown_query_type, this.
  split; [now apply build_unset | reflexivity].
Qed.

Lemma ends_unknown_seq (m : M unit) (k : M string) :
  keeps_mode m ->
  (quietly -> returns_keeping_mode m) ->
  ends_unknown quietly k ->
  ends_unknown quietly (m ;;; k).
Proof.
  intros Hkeep Hret Hk this Hmode. unfold bind.
  specialize (Hkeep this).
  destruct (m this) as [[] this1 | e this1] eqn:Hrun.
  - apply Hk. congruence.
  - exists e, this1. split; [reflexivity |]. intros Hq.
    destruct (Hret Hq this) as (this' & Hok & _). congruence.
Qed.

End WithoutStatement.

Lemma lacks_statement_absent (payload : JSValue) (present : bool) (k : string) :
  lacks_statement payload ->
  js_in "select" payload = Some present ->
  In k statement_keys ->
  js_in k payload = Some false.
Proof.
  intros Hlacks Hshape Hin.
  destruct (js_in_shape "select" k payload present Hshape) as [[|] Hk].
  - now destruct (Hlacks k Hin).
  - exact Hk.
Qed.

(** C10.  On an instance whose statement mode is unset, [build] throws
    the unknown-query-type error and returns no text; the mode is
    unset on every instance reached from a new one without a call of
    [select], [insert], [update] or [delete]; and [fromJson]
    on a payload without any of the keys [select], [insert], [update],
    [delete] ends in an exception too, which is that same error
    whenever the payload has none of the entries [joins], [limit] and
    [params] ([joins] and [limit] can throw while they are registered;
    [params] writes into the array whose [length] is not represented
    here). *)
Theorem no_statement_no_query (this : Builder) (payload : JSValue)
        (Hmode : sql_mode this = None)
        (Hpayload : lacks_statement payload) :
  build this = Throw unknown_query_type this
  /\ (forall b, unstarted b -> build b = Throw unknown_query_type b)
  /\ exists e this',
      fromJson payload = Throw e this'
      /\ (js_in "joins" payload = Some false ->
          js_in "limit" payload = Some false ->
          js_in "params" payload = Some false ->
          e = unknown_query_type).
Proof.
  split; [now apply build_unset |].
  split; [intros b Hb; now apply build_unset, unstarted_mode |].
  destruct (js_in "select" payload) as [present |] eqn:Hshape.
  - set (quietly := js_in "joins" payload = Some false
                    /\ js_in "limit" payload = Some false
                    /\ js_in "params" payload = Some false).
    assert (Hkey : forall k, exists present', js_in k payload = Some present')
      by (intros k; apply (js_in_shape "select" k payload present Hshape)).
    assert (Habs : forall k, In k statement_keys -> js_in k payload = Some false)
      by (intros k; apply (lacks_statement_absent payload present k Hpayload Hshape)).
    assert (H : ends_unknown quietly
                  (when_present "select" payload select ;;;
                   when_present "insert" payload insert ;;;
                   when_present "update" payload update ;;;
                   when_present "delete" payload delete ;;;
                   when_present "joins" payload joins ;;;
                   when_present "where" payload where_ ;;;
                   when_present "having" payload having ;;;
                   when_present "order" payload order ;;;
                   when_present "group" payload group ;;;
                   when_present "limit" payload limit ;;;
                   when_present "params" payload params ;;;
                   build)).
    { repeat
        match goal with
        | |- ends_unknown _ build => apply ends_unknown_build
        | |- ends_unknown _ (when_present ?k _ ?m ;;; _) =>
            apply ends_unknown_seq
        end.
      all: try (apply returns_keeps_mode, when_present_absent, Habs; simpl; tauto).
      all: try (intros _; apply when_present_absent, Habs; simpl; tauto).
      all: try (apply when_present_keeps_mode; intros v;
                first [ apply keeps_mode_joins | apply keeps_mode_limit
                      | apply returns_keeps_mode;
                        first [ apply returns_where | apply returns_having
                              | apply returns_order | apply returns_group
                              | apply returns_params ] ]).
      all: try (intros (Hj & Hl & Hp); now apply when_present_absent).
      all: intros _;
        match goal with
        | |- returns_keeping_mode (when_present ?k _ _) =>
            destruct (Hkey k) as [p Hp]; apply (when_present_returns _ _ _ p Hp); intros v
        end;
        first [ apply returns_where | apply returns_having | apply returns_order
              | apply returns_group ]. }
    destruct (H constructor eq_refl) as (e & this' & Hrun & He).
    exists e, this'. split; [exact Hrun |]. intros Hj Hl Hp. apply He. now repeat split.
  - exists (TypeError "cannot use 'in' operator on a primitive"), constructor.
    split.
    + unfold fromJson, when_present, js_in_m, bind at 1, bind at 1.
      now rewrite Hshape.
    + intros Hj. destruct (js_in_shape "joins" "select" payload false Hj) as [p Hp].
      congruence.
Qed.

Lemma no_statement_no_query_witness :
  sql_mode constructor = None
  /\ lacks_statement clauses_only_payload
  /\ build constructor = Throw unknown_query_type constructor
  /\ exists this', fromJson clauses_only_payload = Throw unknown_query_type this'.
Proof.
  assert (Hlacks : lacks_statement clauses_only_payload).
  { intros k Hin. simpl in Hin.
    destruct Hin as [<- | [<- | [<- | [<- | []]]]]; discriminate. }
  split; [reflexivity |]. split; [exact Hlacks |].
  destruct (no_statement_no_query constructor clauses_only_payload eq_refl Hlacks)
    as (Hbuild & _ & e & this' & Hrun & He).
  split; [exact Hbuild |]. exists this'.
  now rewrite <- (He eq_refl eq_refl eq_refl).
Defined.

(** ** The depth bound is never reached *)

Lemma within_ret {A : Type} (a : A) : within_limit (ret a).
Proof. intros this this'. discriminate. Qed.

Lemma within_gets {A : Type} (f : Builder -> A) : within_limit (gets f).
Proof. intros this this'. discriminate. Qed.

Lemma within_throw_error {A : Type} (msg : string) : within_limit (@throw A (Error msg)).
Proof. intros this this'. discriminate. Qed.

Lemma within_throw_type {A : Type} (msg : string) :
  within_limit (@throw A (TypeError msg)).
Proof. intros this this'. discriminate. Qed.

Lemma within_bind {A B : Type} (m : M A) (k : A -> M B) :
  within_limit m -> (forall a, within_limit (k a)) -> within_limit (bind m k).
Proof.
  intros Hm Hk this this'. unfold bind.
  destruct (m this) as [a this1 | e this1] eqn:E.
  - apply Hk.
  - intros H. injection H as -> ->. now apply (Hm this this').
Qed.

Lemma within_for_each_in {A B : Type} (l : list A) (body : A -> M (list B)) :
  (forall x, In x l -> within_limit (body x)) -> within_limit (for_each l body).
Proof.
  induction l as [|x l IH]; intros H; simpl.
  - apply within_ret.
  - apply within_bind; [apply H; now left |]. intros pushed.
    apply within_bind; [apply IH; intros y Hy; apply H; now right |].
    intros more. apply within_ret.
Qed.

Lemma within_for_each {A B : Type} (l : list A) (body : A -> M (list B)) :
  (forall x, within_limit (body x)) -> within_limit (for_each l body).
Proof. intros H. apply within_for_each_in. intros x _. apply H. Qed.

Create HintDb limit.
#[local] Hint Resolve within_ret within_gets within_throw_error within_throw_type : limit.

Ltac limit_step :=
  match goal with
  | |- within_limit (bind _ _) => apply within_bind; [| intro]
  | |- within_limit (for_each _ _) => apply within_for_each; intro
  | |- within_limit (if ?c then _ else _) => destruct c
  | |- within_limit (match ?x with _ => _ end) => destruct x
  | |- within_limit _ => solve [auto with limit]
  end.

Ltac within := repeat limit_step.

Lemma within_sqlEscape_any (val : JSValue) : within_limit (sqlEscape_any val).
Proof. unfold sqlEscape_any. within. Qed.

#[local] Hint Resolve within_sqlEscape_any : limit.

Lemma within_quote (val : JSValue) (force_quote : bool) :
  within_limit (quote val force_quote).
Proof. unfold quote. within. Qed.

#[local] Hint Resolve within_quote : limit.

Lemma within_identifierOrQuote (val : JSValue) (force_quote : bool) :
  within_limit (identifierOrQuote val force_quote).
Proof.
  intros this this'. unfold identifierOrQuote.
  repeat match goal with
         | |- context [if ?c then _ else _] => destruct c
         | |- context [match first_named ?x with _ => _ end] => destruct (first_named x)
         | |- context [match assoc ?k ?l with _ => _ end] => destruct (assoc k l)
         end;
    try discriminate; apply within_quote.
Qed.

#[local] Hint Resolve within_identifierOrQuote : limit.

Lemma within_processCondition (condition : list JSValue) :
  within_limit (processCondition condition).
Proof.
  unfold processCondition.
  destruct condition as [|c0 [|c1 [|c2 [|c3 rest]]]]; auto with limit.
  within.
Qed.

Lemma within_uppercase_key (o : list (string * JSValue)) : within_limit (uppercase_key o).
Proof. unfold uppercase_key, spread. within. Qed.

#[local] Hint Resolve within_processCondition within_uppercase_key : limit.

Lemma values_index_from {A : Type} (l : list A) (i : nat) :
  map snd (index_from i l) = l.
Proof. revert i. induction l as [|x l IH]; intros i; simpl; [reflexivity | now rewrite IH]. Qed.

Lemma le_list_max (l : list nat) (x : nat) : In x l -> x <= list_max l.
Proof.
  induction l as [|y l IH]; intros H; [destruct H |].
  simpl. destruct H as [-> | H]; [lia |]. specialize (IH H). lia.
Qed.

Lemma nesting_entry (c v : JSValue) :
  In v (map snd (entries c)) -> nesting v <= pred (nesting c).
Proof.
  destruct c as [| | | |s|items|props]; simpl; try tauto.
  - rewrite values_index_from. intros H.
    apply in_map_iff in H as (x & <- & _). simpl. lia.
  - rewrite values_index_from. intros H.
    apply le_list_max, in_map_iff. now exists v.
  - intros H. apply in_map_iff in H as ([k x] & <- & H).
    apply le_list_max, in_map_iff. now exists (k, x).
Qed.

Lemma values_assoc_set {A : Type} (k : string) (x v : A) (l : list (string * A)) :
  In v (map snd (assoc_set k x l)) -> v = x \/ In v (map snd l).
Proof.
  induction l as [|[k' y] l IH]; simpl.
  - intros [<- | []]. now left.
  - destruct (k' =? k); simpl.
    + intros [<- | H]; [now left | now right; right].
    + intros [<- | H]; [now right; left |].
      destruct (IH H) as [-> | H']; [now left | now right; right].
Qed.

Lemma values_assoc_delete {A : Type} (k : string) (v : A) (l : list (string * A)) :
  In v (map snd (assoc_delete k l)) -> In v (map snd l).
Proof.
  induction l as [|[k' y] l IH]; simpl; [tauto |].
  destruct (k' =? k); simpl.
  - intros H. right. now apply IH.
  - intros [<- | H]; [now left | right; now apply IH].
Qed.

Lemma assoc_value {A : Type} (k : string) (v : A) (l : list (string * A)) :
  assoc k l = Some v -> In v (map snd l).
Proof.
  induction l as [|[k' y] l IH]; simpl; [discriminate |].
  destruct (k' =? k).
  - intros H. injection H as ->. now left.
  - intros H. right. now apply IH.
Qed.

Lemma js_get_object (o : list (string * JSValue)) (k : string) :
  js_get (VObj o) k = VUndefined \/ In (js_get (VObj o) k) (map snd o).
Proof.
  unfold js_get. simpl. destruct (assoc k o) as [v |] eqn:E; [right | now left].
  now apply (assoc_value k).
Qed.

Lemma spread_value (v copy : JSValue) (this this' : Builder) :
  spread v this = Ok copy this' ->
  copy = v \/ exists l, copy = VArr (map VStr l).
Proof.
  destruct v; unfold spread, ret, throw; intros H; try discriminate H;
    injection H as <- _.
  - right. now exists (chars s).
  - now left.
Qed.

Lemma uppercase_key_values (o o' : list (string * JSValue)) (this this' : Builder)
      (v : JSValue) :
  uppercase_key o this = Ok o' this' ->
  In v (map snd o') ->
  In v (map snd o) \/ exists l, v = VArr (map VStr l).
Proof.
  unfold uppercase_key. intros Hrun Hin.
  assert (Hcase : forall small big,
             (copy <- spread (js_get (VObj o) small) ;;
              ret (assoc_delete small (assoc_set big copy o))) this = Ok o' this' ->
             In v (map snd o) \/ exists l, v = VArr (map VStr l)).
  { intros small big H. unfold bind in H.
    destruct (spread (js_get (VObj o) small) this) as [copy this1 | e this1] eqn:E;
      [| discriminate].
    unfold ret in H. injection H as <- _.
    apply values_assoc_delete, values_assoc_set in Hin.
    destruct Hin as [-> | Hin]; [| now left].
    destruct (spread_value _ _ _ _ E) as [-> | Hs]; [| now right].
    destruct (js_get_object o small) as [Hu | Hv]; [| now left].
    rewrite Hu in E. discriminate. }
  destruct (has_key "and" o); [now apply (Hcase "and" "AND") |].
  destruct (has_key "or" o); [now apply (Hcase "or" "OR") |].
  unfold ret in Hrun. injection Hrun as <- _. now left.
Qed.

Lemma group_nesting (cond : JSValue) : is_group cond = true -> 1 <= nesting cond.
Proof. destruct cond; simpl; try discriminate; lia. Qed.

Lemma processConditions_at_within (depth : nat) (conditions : JSValue) :
  shallow depth conditions -> within_limit (processConditions_at depth conditions).
Proof.
  revert conditions. induction depth as [|d IH]; intros conditions Hshallow;
    rewrite processConditions_at_items;
    apply within_for_each_in; intros cond Hin.
  all: assert (Hgroup : is_group cond = true -> 2 <= nesting conditions).
  1, 3: intros Hg; pose proof (group_nesting cond Hg);
        pose proof (nesting_entry conditions cond Hin); lia.
  all: assert (Hstr : (exists l, conditions = VArr (map VStr l)) -> is_group cond = false).
  1, 3: intros [l ->]; simpl in Hin; rewrite values_index_from in Hin;
        apply in_map_iff in Hin as (x & <- & _); reflexivity.
  - (* depth 0: no element is a group *)
    assert (Hng : is_group cond = false).
    { destruct Hshallow as [Hn | Hs]; [| now apply Hstr].
      destruct (is_group cond); [specialize (Hgroup eq_refl); lia | reflexivity]. }
    destruct cond as [| | | | |[|c0 [|c1 [|c2 [|c3 rest]]]]|props];
      try discriminate Hng; unfold process_item; within.
  - destruct (is_group cond) eqn:Hg.
    + assert (Hn : nesting conditions <= S d).
      { destruct Hshallow as [Hn | Hs]; [exact Hn |].
        discriminate (Hstr Hs). }
      assert (Hitem : process_item (S d) cond
                      = (o <- uppercase_key (entries cond) ;;
                         let combine := if has_key "OR" o then "OR" else "AND" in
                         conds <- processConditions_at d (js_get (VObj o) combine) ;;
                         ret [Some ("(" ++ join_fragments (" " ++ combine ++ " ") conds
                                    ++ ")")])).
      { destruct cond as [| | | | |[|c0 [|c1 [|c2 [|c3 rest]]]]|props];
          try discriminate Hg; reflexivity. }
      rewrite Hitem. intros this this'. unfold bind at 1.
      destruct (uppercase_key (entries cond) this) as [o this1 | e this1] eqn:E.
      * apply within_bind; [| intros conds; apply within_ret].
        apply IH.
        destruct (js_get_object o (if has_key "OR" o then "OR" else "AND"))
          as [-> | Hv]; [left; simpl; lia |].
        destruct (uppercase_key_values _ _ _ _ _ E Hv) as [Hc | Hs]; [left | now right].
        pose proof (nesting_entry cond _ Hc).
        pose proof (nesting_entry conditions cond Hin). lia.
      * intros H. injection H as -> _.
        exact (within_uppercase_key (entries cond) this this1 E).
    + destruct cond as [| | | | |[|c0 [|c1 [|c2 [|c3 rest]]]]|props];
        try discriminate Hg; unfold process_item; within.
Qed.

(** [processConditions] never throws [RecursionLimit]: the depth it
    allows is reached by no value. *)
Lemma processConditions_no_limit (conditions : JSValue) :
  within_limit (processConditions conditions).
Proof. apply processConditions_at_within. now left. Qed.

(** * Further properties *)

(** ** The value resolver *)

Lemma quote_runs (val : JSValue) (force_quote : bool) (this : Builder) :
  quote val force_quote this = Ok (quote_text val force_quote) this.
Proof.
  unfold quote_text, quote.
  destruct val as [| |b|n|s|items|props]; try reflexivity.
  destruct b; reflexivity.
Qed.

Lemma quote_text_string (s : string) (force_quote : bool) :
  quote_text (VStr s) force_quote = squote ++ escape_by_table s ++ squote.
Proof.
  unfold quote_text, quote, sqlEscape_any, bind, ret. simpl.
  now rewrite sqlEscape_escape_each, escape_each_by_table.
Qed.

Lemma string_of_nat_eqb (n m : nat) :
  (string_of_nat n =? string_of_nat m) = (n =? m)%nat.
Proof.
  destruct (Nat.eqb_spec n m) as [-> | Hne].
  - apply String.eqb_refl.
  - apply String.eqb_neq. intros H. now apply string_of_nat_inj in H.
Qed.

Lemma assoc_index_from {A : Type} (l : list A) (k i : nat) :
  assoc (string_of_nat (k + i)) (index_from k l) = nth_error l i.
Proof.
  revert k i. induction l as [|x l IH]; intros k i; simpl.
  - now destruct i.
  - rewrite string_of_nat_eqb. destruct i as [|i].
    + replace (k + 0) with k by lia. now rewrite Nat.eqb_refl.
    + replace (k =? k + S i)%nat with false by (symmetry; apply Nat.eqb_neq; lia).
      replace (k + S i) with (S k + i) by lia. apply IH.
Qed.

Lemma placeholder_step (this : Builder) (supplied : list JSValue)
      (param : JSValue) (force_quote : bool) :
  sql_params this = entries (VArr supplied) ->
  nth_error supplied (sql_param_counter this) = Some param ->
  identifierOrQuote (VStr "?") force_quote this
  = Ok (quote_text param force_quote)
       (set_param_counter (S (sql_param_counter this)) this).
Proof.
  intros Hparams Hparam.
  unfold identifierOrQuote. simpl. rewrite Hparams. simpl.
  pose proof (assoc_index_from supplied 0 (sql_param_counter this)) as Hget.
  simpl in Hget. unfold has_key. rewrite Hget, Hparam. apply quote_runs.
Qed.

(** X1.  With the positional parameters supplied as an array and the
    cursor on one of them, resolving the token [?] returns what
    [quote] makes of that parameter, moves the cursor one step and
    leaves everything else of the instance alone. *)
Theorem positional_consumed (this : Builder) (supplied : list JSValue)
        (param : JSValue) (force_quote : bool)
        (Hparams : sql_params this = entries (VArr supplied))
        (Hparam : nth_error supplied (sql_param_counter this) = Some param) :
  identifierOrQuote (VStr "?") force_quote this
  = Ok (quote_text param force_quote)
       (set_param_counter (S (sql_param_counter this)) this).
Proof.
  unfold identifierOrQuote. simpl. rewrite Hparams. simpl.
  pose proof (assoc_index_from supplied 0 (sql_param_counter this)) as Hget.
  simpl in Hget. unfold has_key. rewrite Hget, Hparam.
  apply quote_runs.
Qed.

Lemma positional_consumed_witness :
  sql_params names_builder = entries (VArr [VStr "John"; VStr "Doe"])
  /\ nth_error [VStr "John"; VStr "Doe"] (sql_param_counter names_builder)
     = Some (VStr "John")
  /\ identifierOrQuote (VStr "?") false names_builder
     = Ok "'John'" (set_param_counter 1 names_builder).
Proof.
  split; [reflexivity |]. split; [reflexivity |].
  exact (positional_consumed names_builder [VStr "John"; VStr "Doe"] (VStr "John")
           false eq_refl eq_refl).
Defined.

(** X2.  A string supplied as a positional parameter reaches the query
    as a single-quoted literal that reads back, by the literal grammar
    of the dialect, as exactly that string, whatever characters it
    holds and whatever [force_quote] is. *)
Theorem string_parameter_is_literal (this : Builder) (supplied : list JSValue)
        (p : string) (force_quote : bool)
        (Hparams : sql_params this = entries (VArr supplied))
        (Hparam : nth_error supplied (sql_param_counter this) = Some (VStr p)) :
  exists text,
    identifierOrQuote (VStr "?") force_quote this
    = Ok text (set_param_counter (S (sql_param_counter this)) this)
    /\ literal_value text = Some p.
Proof.
  exists (squote ++ escape_by_table p ++ squote). split.
  - rewrite (placeholder_step this supplied (VStr p) force_quote Hparams Hparam).
    now rewrite quote_text_string.
  - rewrite <- escape_each_by_table. simpl. apply literal_body_escape_each.
Qed.

Lemma string_parameter_is_literal_witness :
  sql_params names_builder = entries (VArr [VStr "John"; VStr "Doe"])
  /\ nth_error [VStr "John"; VStr "Doe"] (sql_param_counter names_builder)
     = Some (VStr "John")
  /\ exists text,
      identifierOrQuote (VStr "?") true names_builder
      = Ok text (set_param_counter 1 names_builder)
      /\ literal_value text = Some "John".
Proof.
  split; [reflexivity |]. split; [reflexivity |].
  exact (string_parameter_is_literal names_builder [VStr "John"; VStr "Doe"] "John"
           true eq_refl eq_refl).
Defined.

Lemma named_at_head (name post : string) :
  is_word_text name = true ->
  ends_word post = true ->
  named_at ("?:" ++ name ++ post) = Some name.
Proof.
  unfold is_word_text. intros Hname Hpost.
  apply andb_true_iff in Hname as [Hne Hw]. apply negb_true_iff in Hne.
  unfold named_at.
  change (substring 0 2 ("?:" ++ name ++ post))
    with (String "?" (String ":" (substring 0 0 (name ++ post)))).
  rewrite substring_zero_nil. simpl (_ =? _). cbn iota.
  change (drop 2 ("?:" ++ name ++ post)) with (name ++ post).
  rewrite (prefix_len_all is_word name post Hw).
  - destruct (nonempty_length name Hne) as [k Hk]. rewrite Hk, <- Hk.
    change (substring 2 (String.length name) ("?:" ++ name ++ post))
      with (substring 0 (String.length name) (name ++ post)).
    now rewrite substring_zero_append.
  - destruct post as [|c post]; [reflexivity |]. simpl in *.
    now apply negb_true_iff in Hpost as ->.
Qed.

Lemma named_at_other (c : ascii) (rest : string) :
  (nat_of_ascii c =? 63)%nat = false -> named_at (String c rest) = None.
Proof.
  intros H. unfold named_at.
  destruct (String.eqb_spec (substring 0 2 (String c rest)) "?:") as [E | _];
    [| reflexivity].
  simpl in E. injection E as -> _. discriminate H.
Qed.

Lemma first_named_inside (pre name post : string) :
  no_question pre = true ->
  is_word_text name = true ->
  ends_word post = true ->
  first_named (pre ++ "?:" ++ name ++ post) = Some name.
Proof.
  intros Hpre Hname Hpost. induction pre as [|c pre IH].
  - change ("" ++ "?:" ++ name ++ post) with (String "?" (":" ++ name ++ post)).
    cbn [first_named].
    change (String "?" (":" ++ name ++ post)) with ("?:" ++ name ++ post).
    now rewrite named_at_head.
  - unfold no_question in Hpre. simpl in Hpre.
    apply andb_true_iff in Hpre as [Hc Hpre]. apply negb_true_iff in Hc.
    change ((String c pre) ++ "?:" ++ name ++ post)
      with (String c (pre ++ "?:" ++ name ++ post)).
    cbn [first_named]. rewrite (named_at_other c _ Hc). now apply IH.
Qed.



Lemma set_param_counter_twice (n m : nat) (b : Builder) :
  set_param_counter n (set_param_counter m b) = set_param_counter n b.
Proof. reflexivity. Qed.



(** ** The order in which a leaf consumes parameters *)

Lemma members_consumed (members before behind : list JSValue) (this : Builder) :
  sql_params this = entries (VArr (before ++ members ++ behind)) ->
  sql_param_counter this = List.length before ->
  for_each (repeat (VStr "?") (List.length members))
           (fun v => x <- identifierOrQuote v true ;; ret [x]) this
  = Ok (map (fun m => quote_text m true) members)
       (set_param_counter (List.length before + List.length members) this).
Proof.
  revert before this. induction members as [|m members IH]; intros before this Hp Hc.
  - simpl. unfold ret. rewrite Nat.add_0_r, <- Hc. now destruct this.
  - cbn [List.length repeat]. rewrite for_each_cons. unfold bind at 1.
    rewrite (placeholder_step this (before ++ m :: members ++ behind)%list m true Hp).
    + unfold ret at 1.
      rewrite (IH (before ++ [m])%list (set_param_counter (S (sql_param_counter this)) this)).
      * rewrite set_param_counter_twice, length_app. simpl.
        now replace (List.length before + 1 + List.length members)
          with (List.length before + S (List.length members)) by lia.
      * simpl. rewrite Hp. now rewrite <- app_assoc.
      * simpl. rewrite length_app. simpl. lia.
    + rewrite Hc, nth_error_app2 by lia. now rewrite Nat.sub_diag.
Qed.

(** X5.  In an [in] leaf whose column and members are all the token
    [?], the members are resolved before the column: the parameters
    under the cursor go to the members in order, force-quoted, and the
    one after them goes to the column, although the column comes first
    in the text. *)
Theorem in_members_before_column (this : Builder)
        (before members behind : list JSValue) (column_param : JSValue)
        (Hparams : sql_params this
                   = entries (VArr (before ++ members ++ column_param :: behind)))
        (Hcursor : sql_param_counter this = List.length before) :
  processCondition
    [VStr "?"; VStr "in"; VArr (repeat (VStr "?") (List.length members))] this
  = Ok (Some (quote_text column_param false ++ " IN ("
              ++ join "," (map (fun m => quote_text m true) members) ++ ")"))
       (set_param_counter (List.length before + List.length members + 1) this).
Proof.
  unfold processCondition. simpl.
  rewrite (for_each_values (repeat (VStr "?") (List.length members)) 0
             (fun v => x <- identifierOrQuote v true ;; ret [x])).
  unfold bind at 1.
  rewrite (members_consumed members before (column_param :: behind) this Hparams Hcursor).
  unfold bind at 1.
  rewrite (placeholder_step _ (before ++ members ++ column_param :: behind)%list
             column_param false).
  - unfold ret. rewrite set_param_counter_twice. simpl.
    now replace (S (List.length before + List.length members))
      with (List.length before + List.length members + 1) by lia.
  - exact Hparams.
  - simpl. rewrite nth_error_app2 by lia.
    rewrite nth_error_app2 by lia.
    now replace (List.length before + List.length members - List.length before
                 - List.length members) with 0 by lia.
Qed.

Lemma in_members_before_column_witness :
  sql_params names_builder = entries (VArr ([] ++ [VStr "John"] ++ VStr "Doe" :: []))
  /\ sql_param_counter names_builder = List.length (@nil JSValue)
  /\ processCondition [VStr "?"; VStr "in"; VArr [VStr "?"]] names_builder
     = Ok (Some "'Doe' IN ('John')") (set_param_counter 2 names_builder).
Proof.
  split; [reflexivity |]. split; [reflexivity |].
  exact (in_members_before_column names_builder [] [VStr "John"] [] (VStr "Doe")
           eq_refl eq_refl).
Defined.

(** ** The accumulating methods *)

Lemma for_each_modify_run {A : Type} (l : list A) (f : A -> Builder -> Builder)
      (this : Builder) :
  for_each_ l (fun x => modify (f x)) this = Ok tt (fold_left (fun b x => f x b) l this).
Proof.
  revert this. induction l as [|x l IH]; intros this; simpl; [reflexivity |].
  unfold bind, modify. apply IH.
Qed.

Lemma fold_set_where (l : list JSValue) (this : Builder) :
  fold_left (fun b x => set_where (sql_where b ++ [x]) b) l this
  = set_where (sql_where this ++ l) this.
Proof.
  revert this. induction l as [|x l IH]; intros this; simpl.
  - rewrite app_nil_r. now destruct this.
  - rewrite IH. simpl. now rewrite <- app_assoc.
Qed.

Lemma fold_set_having (l : list JSValue) (this : Builder) :
  fold_left (fun b x => set_having (sql_having b ++ [x]) b) l this
  = set_having (sql_having this ++ l) this.
Proof.
  revert this. induction l as [|x l IH]; intros this; simpl.
  - rewrite app_nil_r. now destruct this.
  - rewrite IH. simpl. now rewrite <- app_assoc.
Qed.

Lemma fold_set_order (l : list JSValue) (this : Builder) :
  fold_left (fun b x => set_order (sql_order b ++ [x]) b) l this
  = set_order (sql_order this ++ l) this.
Proof.
  revert this. induction l as [|x l IH]; intros this; simpl.
  - rewrite app_nil_r. now destruct this.
  - rewrite IH. simpl. now rewrite <- app_assoc.
Qed.

Lemma fold_set_group (l : list JSValue) (this : Builder) :
  fold_left (fun b x => set_group (sql_group b ++ [x]) b) l this
  = set_group (sql_group this ++ l) this.
Proof.
  revert this. induction l as [|x l IH]; intros this; simpl.
  - rewrite app_nil_r. now destruct this.
  - rewrite IH. simpl. now rewrite <- app_assoc.
Qed.

Lemma fold_left_map {A B C : Type} (f : C -> B -> C) (g : A -> B) (l : list A) (c : C) :
  fold_left (fun acc x => f acc (g x)) l c = fold_left f (map g l) c.
Proof. revert c. induction l as [|x l IH]; intros c; simpl; [reflexivity | apply IH]. Qed.

(** X6.  [where], [having], [order] and [group] never throw and never
    replace: each call appends the elements of its payload, in order,
    to what the earlier calls left, and touches no other field; a
    payload that is neither array, object nor string adds nothing. *)
Theorem clauses_accumulate (payload : JSValue) (this : Builder) :
  where_ payload this
  = Ok tt (set_where (sql_where this ++ map snd (entries payload)) this)
  /\ having payload this
     = Ok tt (set_having (sql_having this ++ map snd (entries payload)) this)
  /\ order payload this
     = Ok tt (set_order (sql_order this ++ map snd (entries payload)) this)
  /\ group payload this
     = Ok tt (set_group (sql_group this ++ map snd (entries payload)) this).
Proof.
  unfold where_, having, order, group. rewrite !for_each_modify_run.
  rewrite (fold_left_map (fun b x => set_where (sql_where b ++ [x]) b) snd).
  rewrite (fold_left_map (fun b x => set_having (sql_having b ++ [x]) b) snd).
  rewrite (fold_left_map (fun b x => set_order (sql_order b ++ [x]) b) snd).
  rewrite (fold_left_map (fun b x => set_group (sql_group b ++ [x]) b) snd).
  now rewrite fold_set_where, fold_set_having, fold_set_order, fold_set_group.
Qed.

(** ** The parameter store *)

Lemma assoc_assoc_set {A : Type} (k k' : string) (x : A) (l : list (string * A)) :
  assoc k (assoc_set k' x l) = if k' =? k then Some x else assoc k l.
Proof.
  induction l as [|[k0 y] l IH]; simpl.
  - reflexivity.
  - destruct (k0 =? k') eqn:E0.
    + apply String.eqb_eq in E0. subst k0. simpl.
      now destruct (k' =? k).
    + simpl. destruct (k0 =? k) eqn:E1.
      * apply String.eqb_eq in E1. subst k0.
        rewrite String.eqb_sym in E0. now rewrite E0.
      * exact IH.
Qed.

Lemma assoc_app {A : Type} (k : string) (l1 l2 : list (string * A)) :
  assoc k (l1 ++ l2) = match assoc k l1 with
                       | Some x => Some x
                       | None => assoc k l2
                       end.
Proof.
  induction l1 as [|[k0 y] l1 IH]; simpl; [reflexivity |].
  now destruct (k0 =? k).
Qed.

Lemma fold_set_params (l : list (string * JSValue)) (this : Builder) :
  fold_left (fun b e => set_params (assoc_set (fst e) (snd e) (sql_params b)) b) l this
  = set_params (fold_left (fun store e => assoc_set (fst e) (snd e) store) l
                          (sql_params this)) this.
Proof.
  revert this. induction l as [|e l IH]; intros this; simpl.
  - now destruct this.
  - now rewrite IH.
Qed.

Lemma assoc_fold_set (k : string) (l store : list (string * JSValue)) :
  assoc k (fold_left (fun st e => assoc_set (fst e) (snd e) st) l store)
  = match last_value k l with
    | Some v => Some v
    | None => assoc k store
    end.
Proof.
  unfold last_value. revert store. induction l as [|[k0 v0] l IH]; intros store; simpl.
  - reflexivity.
  - rewrite IH, assoc_app, assoc_assoc_set. simpl.
    destruct (assoc k (rev l)); [reflexivity |].
    now destruct (k0 =? k).
Qed.

(** X7.  [params] merges: it never throws, leaves the cursor and every
    clause alone, and afterwards the store holds under a key the value
    the payload gives it (the last one, should the key occur twice), or
    what it held before when the payload does not mention the key.
    This is said of the keys that [params] writes as plain properties:
    the payload is taken not to write [length] or [__proto__], and the
    key read is neither of the two ([length] is kept by the array
    itself and grows with the indexes written). *)
Theorem params_merge (payload : JSValue) (this : Builder) (k : string)
        (Hkeys : plain_keys payload = true)
        (Hkey : plain_key k = true) :
  exists this',
    params payload this = Ok tt this'
    /\ this' = set_params (sql_params this') this
    /\ assoc k (sql_params this')
       = match last_value k (entries payload) with
         | Some v => Some v
         | None => assoc k (sql_params this)
         end.
Proof.
  unfold params. rewrite for_each_modify_run, fold_set_params.
  eexists. split; [reflexivity |]. split; [reflexivity |].
  simpl. apply assoc_fold_set.
Qed.

Lemma params_merge_witness :
  plain_keys (VArr [VStr "Jane"]) = true
  /\ plain_key "1" = true
  /\ exists this',
      params (VArr [VStr "Jane"]) names_builder = Ok tt this'
      /\ this' = set_params (sql_params this') names_builder
      /\ assoc "1" (sql_params this') = Some (VStr "Doe").
Proof.
  split; [reflexivity |]. split; [reflexivity |].
  exact (params_merge (VArr [VStr "Jane"]) names_builder "1" eq_refl eq_refl).
Defined.

(** ** Missing keys *)

Lemma require_absent (k : string) (payload : JSValue) (msg : string) (this : Builder) :
  js_in k payload = Some false -> require k payload msg this = Throw (Error msg) this.
Proof. intros H. unfold require, js_in_m, bind. now rewrite H. Qed.

Lemma require_present (k : string) (payload : JSValue) (msg : string) (this : Builder) :
  js_in k payload = Some true -> require k payload msg this = Ok tt this.
Proof. intros H. unfold require, js_in_m, bind. now rewrite H. Qed.

(** X8.  A statement payload without [table] makes [select], [insert],
    [update] and [delete] throw their missing-table error, and one
    with [table] but without [columns] makes [select], [insert] and
    [update] throw their missing-columns error; in every case the
    instance is exactly as before: no mode set, no name registered. *)
Theorem statement_needs_keys (no_table no_columns : JSValue) (this : Builder)
        (Htable : js_in "table" no_table = Some false)
        (Hhas : js_in "table" no_columns = Some true)
        (Hcolumns : js_in "columns" no_columns = Some false) :
  select no_table this = Throw (Error "Select: Missing table") this
  /\ insert no_table this = Throw (Error "Insert: Missing table") this
  /\ update no_table this = Throw (Error "Update: Missing table") this
  /\ delete no_table this = Throw (Error "Delete: Missing table") this
  /\ select no_columns this = Throw (Error "Select: Missing columns") this
  /\ insert no_columns this = Throw (Error "Insert: Missing columns") this
  /\ update no_columns this = Throw (Error "Update: Missing columns") this.
Proof.
  unfold select, insert, update, delete.
  repeat split; unfold bind at 1;
    first [ now rewrite require_absent
          | rewrite require_present by assumption; cbv beta iota;
            unfold bind at 1; now rewrite require_absent ].
Qed.

Lemma statement_needs_keys_witness :
  js_in "table" (VObj [("columns", VArr [])]) = Some false
  /\ js_in "table" (VObj [("table", VStr "users")]) = Some true
  /\ js_in "columns" (VObj [("table", VStr "users")]) = Some false
  /\ select (VObj [("columns", VArr [])]) constructor
     = Throw (Error "Select: Missing table") constructor
  /\ update (VObj [("table", VStr "users")]) constructor
     = Throw (Error "Update: Missing columns") constructor.
Proof.
  repeat (split; [reflexivity |]).
  destruct (statement_needs_keys (VObj [("columns", VArr [])])
              (VObj [("table", VStr "users")]) constructor eq_refl eq_refl eq_refl)
    as (H1 & _ & _ & _ & _ & _ & H7).
  now split.
Defined.

Lemma for_each__values {A : Type} (l : list A) (i : nat) (body : A -> M unit) :
  for_each_ (index_from i l) (fun entry => body (snd entry)) = for_each_ l body.
Proof.
  revert i. induction l as [|x l IH]; intros i; simpl; [reflexivity |].
  now rewrite IH.
Qed.

Lemma for_each__app {A : Type} (l1 l2 : list A) (body : A -> M unit) (this : Builder) :
  for_each_ (l1 ++ l2) body this
  = match for_each_ l1 body this with
    | Ok _ this1 => for_each_ l2 body this1
    | Throw e this1 => Throw e this1
    end.
Proof.
  revert this. induction l1 as [|x l1 IH]; intros this; simpl; [reflexivity |].
  unfold bind. destruct (body x this) as [[] this1 | e this1]; [apply IH | reflexivity].
Qed.

(** X9.  [joins] is not all-or-nothing: the entries are validated and
    registered one after the other, so when an entry lacks [type] the
    entries before it have already been added (their tables
    registered) when the missing-type error leaves the call, and the
    entries behind it are never looked at. *)
Theorem joins_stop_at_malformed (before behind : list JSValue) (bad : JSValue)
        (this : Builder)
        (Hbad : js_in "type" bad = Some false) :
  joins (VArr (before ++ bad :: behind)) this
  = match joins (VArr before) this with
    | Ok _ this1 => Throw (Error "Joins: Missing type") this1
    | Throw e this1 => Throw e this1
    end.
Proof.
  unfold joins. simpl entries.
  rewrite (for_each__values (before ++ bad :: behind) 0
             (fun j =>
                require "type" j "Joins: Missing type" ;;;
                require "table" j "Joins: Missing table" ;;;
                require "conditions" j "Joins: Missing conditions" ;;;
                t <- table (js_get j "table") ;;
                modify (fun b =>
                          set_joins (sql_joins b ++
                                     [VObj [("type", js_get j "type"); ("table", t);
                                            ("conditions", js_get j "conditions")]])%list
                                    b))).
  rewrite (for_each__values before 0
             (fun j =>
                require "type" j "Joins: Missing type" ;;;
                require "table" j "Joins: Missing table" ;;;
                require "conditions" j "Joins: Missing conditions" ;;;
                t <- table (js_get j "table") ;;
                modify (fun b =>
                          set_joins (sql_joins b ++
                                     [VObj [("type", js_get j "type"); ("table", t);
                                            ("conditions", js_get j "conditions")]])%list
                                    b))).
  rewrite for_each__app.
  match goal with
  | |- match ?m with _ => _ end = _ => destruct m as [[] this1 | e this1]
  end; [| reflexivity].
  cbn [for_each_]. unfold bind at 1. unfold bind at 1. now rewrite require_absent.
Qed.

Lemma joins_stop_at_malformed_witness :
  js_in "type" typeless_join = Some false
  /\ exists this1,
      joins (VArr [orders_join; typeless_join]) names_builder
      = Throw (Error "Joins: Missing type") this1
      /\ List.length (sql_joins this1) = 1
      /\ includes (sql_identifiers this1) "order" = true.
Proof.
  split; [reflexivity |].
  pose proof (joins_stop_at_malformed [orders_join] [] typeless_join names_builder
                eq_refl) as H.
  eexists. split; [exact H |]. split; reflexivity.
Defined.

(** ** The registry only grows *)

Lemma registered_ret {A : Type} (a : A) : keeps_registered (ret a).
Proof. intros this name H. exact H. Qed.

Lemma registered_throw {A : Type} (e : JSError) : keeps_registered (@throw A e).
Proof. intros this name H. exact H. Qed.

Lemma registered_gets {A : Type} (f : Builder -> A) : keeps_registered (gets f).
Proof. intros this name H. exact H. Qed.

Lemma registered_modify (f : Builder -> Builder) :
  (forall b, sql_identifiers (f b) = sql_identifiers b) -> keeps_registered (modify f).
Proof. intros Hf this name H. simpl. now rewrite Hf. Qed.

Lemma registered_push (v : JSValue) : keeps_registered (push_identifier v).
Proof.
  intros this name H. simpl. unfold includes in *.
  rewrite existsb_app, H. reflexivity.
Qed.

Lemma registered_bind {A B : Type} (m : M A) (k : A -> M B) :
  keeps_registered m -> (forall a, keeps_registered (k a)) -> keeps_registered (bind m k).
Proof.
  intros Hm Hk this name H. unfold bind. specialize (Hm this name H).
  destruct (m this) as [a this1 | e this1]; [| exact Hm].
  exact (Hk a this1 name Hm).
Qed.

Lemma registered_for_each_ {A : Type} (l : list A) (body : A -> M unit) :
  (forall x, keeps_registered (body x)) -> keeps_registered (for_each_ l body).
Proof.
  intros H. induction l as [|x l IH]; simpl.
  - apply registered_ret.
  - apply registered_bind; [apply H | intros _; exact IH].
Qed.

Create HintDb registry.
#[local] Hint Resolve registered_ret registered_throw registered_gets registered_push
  : registry.

Ltac registry_step :=
  match goal with
  | |- keeps_registered (bind _ _) => apply registered_bind; [| intro]
  | |- keeps_registered (for_each_ _ _) => apply registered_for_each_; intro
  | |- keeps_registered (modify _) => apply registered_modify; intro; reflexivity
  | |- keeps_registered (if ?c then _ else _) => destruct c
  | |- keeps_registered (match ?x with _ => _ end) => destruct x
  | |- keeps_registered _ => solve [auto with registry]
  end.

Ltac registry := repeat registry_step.

Lemma registered_js_in_m (k : string) (v : JSValue) : keeps_registered (js_in_m k v).
Proof. unfold js_in_m. registry. Qed.

#[local] Hint Resolve registered_js_in_m : registry.

Lemma registered_require (k : string) (v : JSValue) (msg : string) :
  keeps_registered (require k v msg).
Proof. unfold require. registry. Qed.

Lemma registered_table (payload : JSValue) : keeps_registered (table payload).
Proof. unfold table. registry. Qed.

#[local] Hint Resolve registered_require registered_table : registry.

Lemma registered_method (method : JSValue -> M unit) (payload : JSValue) :
  In method payload_methods -> keeps_registered (method payload).
Proof.
  unfold payload_methods. simpl.
  intros [<- | [<- | [<- | [<- | [<- | [<- | [<- | [<- | [<- | [<- | [<- | []]]]]]]]]]]].
  - unfold select. registry.
  - unfold insert. registry.
  - unfold delete. registry.
  - unfold update. registry.
  - unfold joins. registry.
  - unfold order. registry.
  - unfold group. registry.
  - unfold where_. registry.
  - unfold having. registry.
  - unfold limit. registry.
  - unfold params. registry.
Qed.

Lemma keeps_build_tail (query : string) : keeps_clauses (build_tail query).
Proof. unfold build_tail. frame. Qed.

#[local] Hint Resolve keeps_build_tail : frame.

Lemma keeps_build : keeps_clauses build.
Proof. unfold build. frame. Qed.

(** X10.  The registry is append-only: whatever payload method is
    called with whatever payload, returning or throwing, a name that
    was registered before is registered afterwards; and [build] leaves
    the registry exactly as it found it. *)
Theorem registry_only_grows (method : JSValue -> M unit) (payload : JSValue)
        (this : Builder) (name : string)
        (Hmethod : In method payload_methods)
        (Hname : includes (sql_identifiers this) name = true) :
  includes (sql_identifiers (after (method payload) this)) name = true
  /\ match build this with
     | Ok _ this' => sql_identifiers this' = sql_identifiers this
     | Throw _ this' => sql_identifiers this' = sql_identifiers this
     end.
Proof.
  split.
  - pose proof (registered_method method payload Hmethod this name Hname) as H.
    unfold after. now destruct (method payload this).
  - pose proof (keeps_build this) as H.
    destruct (build this); unfold same_clauses in H; now rewrite H.
Qed.

Lemma registry_only_grows_witness :
  In joins payload_methods
  /\ includes (sql_identifiers names_builder) "user" = true
  /\ includes (sql_identifiers (after (joins (VArr [orders_join])) names_builder)) "user"
     = true.
Proof.
  assert (Hin : In joins payload_methods) by (unfold payload_methods; simpl; tauto).
  split; [exact Hin |]. split; [reflexivity |].
  exact (proj1 (registry_only_grows joins (VArr [orders_join]) names_builder "user"
                  Hin eq_refl)).
Defined.

(** ** [build] moves the cursor forward and nothing else *)

Lemma forward_ret {A : Type} (a : A) : cursor_forward (ret a).
Proof. intros this. simpl. lia. Qed.

Lemma forward_throw {A : Type} (e : JSError) : cursor_forward (@throw A e).
Proof. intros this. simpl. lia. Qed.

Lemma forward_gets {A : Type} (f : Builder -> A) : cursor_forward (gets f).
Proof. intros this. simpl. lia. Qed.

Lemma forward_bind {A B : Type} (m : M A) (k : A -> M B) :
  cursor_forward m -> (forall a, cursor_forward (k a)) -> cursor_forward (bind m k).
Proof.
  intros Hm Hk this. unfold bind. specialize (Hm this).
  destruct (m this) as [a this1 | e this1]; [| exact Hm].
  specialize (Hk a this1). destruct (k a this1); lia.
Qed.

Lemma forward_for_each {A B : Type} (l : list A) (body : A -> M (list B)) :
  (forall x, cursor_forward (body x)) -> cursor_forward (for_each l body).
Proof.
  intros H. induction l as [|x l IH]; simpl.
  - apply forward_ret.
  - apply forward_bind; [apply H |]. intros pushed.
    apply forward_bind; [exact IH |]. intros more. apply forward_ret.
Qed.

Create HintDb forward.
#[local] Hint Resolve forward_ret forward_throw forward_gets : forward.

Ltac forward_step :=
  match goal with
  | |- cursor_forward (bind _ _) => apply forward_bind; [| intro]
  | |- cursor_forward (for_each _ _) => apply forward_for_each; intro
  | |- cursor_forward (if ?c then _ else _) => destruct c
  | |- cursor_forward (let '(_, _) := ?p in _) => destruct p
  | |- cursor_forward (match ?x with _ => _ end) => destruct x
  | |- cursor_forward _ => solve [auto with forward]
  end.

Ltac forward := repeat forward_step.

Lemma forward_sqlEscape_any (val : JSValue) : cursor_forward (sqlEscape_any val).
Proof. unfold sqlEscape_any. forward. Qed.

#[local] Hint Resolve forward_sqlEscape_any : forward.

Lemma forward_quote (val : JSValue) (force_quote : bool) :
  cursor_forward (quote val force_quote).
Proof. intros this. rewrite quote_runs. lia. Qed.

#[local] Hint Resolve forward_quote : forward.

Lemma forward_identifierOrQuote (val : JSValue) (force_quote : bool) :
  cursor_forward (identifierOrQuote val force_quote).
Proof.
  intros this. unfold identifierOrQuote.
  repeat match goal with
         | |- context [if ?c then _ else _] => destruct c
         | |- context [match first_named ?x with _ => _ end] => destruct (first_named x)
         | |- context [match assoc ?k ?l with Some _ => _ | None => _ end] =>
             destruct (assoc k l)
         end;
    unfold ret; rewrite ?quote_runs; simpl; lia.
Qed.

#[local] Hint Resolve forward_identifierOrQuote : forward.

Lemma forward_processCondition (condition : list JSValue) :
  cursor_forward (processCondition condition).
Proof.
  unfold processCondition.
  destruct condition as [|c0 [|c1 [|c2 [|c3 rest]]]]; auto with forward.
  forward.
Qed.

Lemma forward_uppercase_key (o : list (string * JSValue)) :
  cursor_forward (uppercase_key o).
Proof. unfold uppercase_key, spread. forward. Qed.

#[local] Hint Resolve forward_processCondition forward_uppercase_key : forward.

Lemma forward_processConditions_at (depth : nat) (conditions : JSValue) :
  cursor_forward (processConditions_at depth conditions).
Proof.
  revert conditions. induction depth as [|d IH]; intros conditions;
    rewrite processConditions_at_items;
    apply forward_for_each; intros cond; unfold process_item;
    destruct cond as [| | | | |items|props]; auto with forward.
  - destruct items as [|c0 [|c1 [|c2 [|c3 rest]]]]; forward.
  - forward.
  - destruct items as [|c0 [|c1 [|c2 [|c3 rest]]]]; forward.
  - forward.
Qed.

Lemma forward_processConditions (conditions : JSValue) :
  cursor_forward (processConditions conditions).
Proof. apply forward_processConditions_at. Qed.

#[local] Hint Resolve forward_processConditions : forward.

Lemma forward_processColumns (columns : JSValue) : cursor_forward (processColumns columns).
Proof. unfold processColumns. forward. Qed.

Lemma forward_processValues_loop (todo : list (string * JSValue))
      (filled : list (string * string)) :
  cursor_forward (processValues_loop todo filled).
Proof.
  revert filled. induction todo as [|[i v] rest IH]; intros filled; simpl.
  - auto with forward.
  - forward.
Qed.

#[local] Hint Resolve forward_processColumns forward_processValues_loop : forward.

Lemma forward_processValues (columns : JSValue) : cursor_forward (processValues columns).
Proof. unfold processValues. forward. Qed.

Lemma forward_duplicates_clause (d : JSValue) : cursor_forward (duplicates_clause d).
Proof. unfold duplicates_clause. forward. Qed.

#[local] Hint Resolve forward_processValues forward_duplicates_clause : forward.

Lemma forward_buildSelect : cursor_forward buildSelect.
Proof. unfold buildSelect. forward. Qed.

Lemma forward_buildInsert : cursor_forward buildInsert.
Proof. unfold buildInsert. forward. Qed.

Lemma forward_buildUpdate (joins : string) : cursor_forward (buildUpdate joins).
Proof. unfold buildUpdate. forward. Qed.

Lemma forward_buildDelete : cursor_forward buildDelete.
Proof. unfold buildDelete. forward. Qed.

Lemma forward_buildJoin (j : JSValue) : cursor_forward (buildJoin j).
Proof. unfold buildJoin. forward. Qed.

#[local] Hint Resolve forward_buildSelect forward_buildInsert forward_buildUpdate
  forward_buildDelete forward_buildJoin : forward.

Lemma forward_build_joins : cursor_forward build_joins.
Proof. unfold build_joins. forward. Qed.

Lemma forward_buildWhere : cursor_forward buildWhere.
Proof. unfold buildWhere. forward. Qed.

Lemma forward_buildHaving : cursor_forward buildHaving.
Proof. unfold buildHaving. forward. Qed.

Lemma forward_buildGroup : cursor_forward buildGroup.
Proof. unfold buildGroup. forward. Qed.

Lemma forward_buildOrder : cursor_forward buildOrder.
Proof. unfold buildOrder. forward. Qed.

#[local] Hint Resolve forward_build_joins forward_buildWhere forward_buildHaving
  forward_buildGroup forward_buildOrder : forward.

Lemma forward_build_tail (query : string) : cursor_forward (build_tail query).
Proof. unfold build_tail. forward. Qed.

#[local] Hint Resolve forward_build_tail : forward.

Lemma forward_build : cursor_forward build.
Proof. unfold build. forward. Qed.

(** X11.  [build], whether it returns a query or throws, leaves the
    statement mode, the limit, the parameter store and the registry as
    they were, and never moves the positional cursor back: it is not
    reset, so a second [build] starts where the first one stopped. *)
Theorem build_keeps_settings (this : Builder) :
  match build this with
  | Ok _ this' =>
      sql_mode this' = sql_mode this /\ sql_limit this' = sql_limit this
      /\ sql_params this' = sql_params this
      /\ sql_identifiers this' = sql_identifiers this
      /\ sql_param_counter this <= sql_param_counter this'
  | Throw _ this' =>
      sql_mode this' = sql_mode this /\ sql_limit this' = sql_limit this
      /\ sql_params this' = sql_params this
      /\ sql_identifiers this' = sql_identifiers this
      /\ sql_param_counter this <= sql_param_counter this'
  end.
Proof.
  pose proof (keeps_build this) as Hk. pose proof (forward_build this) as Hf.
  destruct (build this); unfold same_clauses in Hk;
    (repeat split; [rewrite Hk .. | exact Hf]; reflexivity).
Qed.

(** ** Registration, then resolution *)

Lemma forallb_str_drop (p : ascii -> bool) (s : string) (n : nat) :
  forallb_str p s = true -> forallb_str p (drop n s) = true.
Proof.
  revert s. induction n as [|n IH]; intros s H; [now destruct s |].
  destruct s as [|c s]; [reflexivity |]. simpl in *.
  apply andb_true_iff in H as [_ H]. now apply IH.
Qed.

Lemma dotted_at_no_dot (s : string) : no_dot s = true -> dotted_at s = None.
Proof.
  intros H. unfold dotted_at.
  destruct (prefix_len is_word s) as [|n]; [reflexivity |].
  pose proof (forallb_str_drop _ s (S n) H) as Hd.
  destruct (drop (S n) s) as [|c rest]; [reflexivity |].
  simpl in Hd. apply andb_true_iff in Hd as [Hc _].
  apply negb_true_iff in Hc. now rewrite Hc.
Qed.

Lemma replace_dotted_no_dot (this : Builder) (s : string) :
  no_dot s = true -> replace_all (dotted_callback this) s 0 = (s, false).
Proof.
  induction s as [|c s IH]; intros H; [reflexivity |].
  cbn [replace_all]. unfold dotted_callback at 1. rewrite (dotted_at_no_dot _ H).
  unfold no_dot in H. simpl in H. apply andb_true_iff in H as [_ H].
  now rewrite (IH H).
Qed.

Lemma identifier_plain (this : Builder) (s : string) (force_quote : bool) :
  no_dot s = true ->
  no_space s = true ->
  identifier this (VStr s) force_quote
  = if force_quote then backtick ++ sqlEscape s ++ backtick else s.
Proof.
  intros Hd Hs. unfold identifier. change (js_String (VStr s)) with s.
  rewrite (replace_dotted_no_dot this s Hd), (replace_as_no_space s Hs).
  cbn [orb negb andb]. rewrite Hs. now destruct force_quote.
Qed.

Lemma word_no_dot (w : string) : forallb_str is_word w = true -> no_dot w = true.
Proof.
  apply forallb_str_impl. intros c Hc.
  destruct (word_char c Hc) as (_ & _ & _ & _ & H). now rewrite H.
Qed.

Lemma identifier_word (this : Builder) (w : string) (force_quote : bool) :
  is_word_text w = true ->
  identifier this (VStr w) force_quote
  = if force_quote then backtick ++ w ++ backtick else w.
Proof.
  unfold is_word_text. intros H. apply andb_true_iff in H as [_ Hw].
  rewrite identifier_plain by (now apply word_no_dot || now apply word_no_space).
  now rewrite (sqlEscape_plain w (word_plain w Hw)).
Qed.

Lemma includes_app (l1 l2 : list JSValue) (s : string) :
  includes (l1 ++ l2) s = includes l1 s || includes l2 s.
Proof. unfold includes. apply existsb_app. Qed.

(** X12.  A [select] whose [table] is an object registers the name and
    the alias of its first entry (further entries are ignored), sets
    the mode, and from then on a dotted token under the alias is
    resolved to the two names between backticks. *)
Theorem select_registers_alias (payload : JSValue) (this : Builder)
        (name alias : string) (more : list (string * JSValue))
        (Htable : js_in "table" payload = Some true)
        (Hcolumns : js_in "columns" payload = Some true)
        (Hentry : js_get payload "table" = VObj ((name, VStr alias) :: more)) :
  exists this',
    select payload this = Ok tt this'
    /\ sql_mode this' = Some "select"
    /\ sql_identifiers this' = (sql_identifiers this ++ [VStr name; VStr alias])%list
    /\ includes (sql_identifiers this') name = true
    /\ includes (sql_identifiers this') alias = true
    /\ (forall column force_quote,
          is_word_text alias = true ->
          is_word_text column = true ->
          identifier this' (VStr (alias ++ "." ++ column)) force_quote
          = "`" ++ alias ++ "`.`" ++ column ++ "`").
Proof.
  eexists. split.
  - unfold select. unfold bind at 1. rewrite (require_present _ _ _ _ Htable).
    cbv beta iota. unfold bind at 1. rewrite (require_present _ _ _ _ Hcolumns).
    cbv beta iota. rewrite Hentry. reflexivity.
  - split; [reflexivity |]. split; [simpl; now rewrite <- app_assoc |].
    assert (Hn : includes ((sql_identifiers this ++ [VStr name]) ++ [VStr alias]) name
                 = true).
    { rewrite !includes_app. simpl. rewrite String.eqb_refl.
      now rewrite !orb_true_r. }
    assert (Ha : includes ((sql_identifiers this ++ [VStr name]) ++ [VStr alias]) alias
                 = true).
    { rewrite !includes_app. simpl. rewrite String.eqb_refl.
      now rewrite !orb_true_r. }
    split; [exact Hn |]. split; [exact Ha |].
    intros column force_quote Halias Hcolumn.
    pose proof Hcolumn as Hc. unfold is_word_text in Hc.
    apply andb_true_iff in Hc as [Hne Hcw]. apply negb_true_iff in Hne.
    rewrite identifier_of_pair; try assumption.
    + simpl sql_identifiers. rewrite Ha.
      now rewrite (quote_word_name column Hcolumn).
    + revert Hcw. apply forallb_str_impl. intros c H.
      now destruct (word_char c H) as (_ & ? & _).
    + now apply word_no_space.
    + now apply word_plain.
    + rewrite (quote_word_name column Hcolumn).
      unfold no_space. rewrite !forallb_str_append.
      fold (no_space column). now rewrite (word_no_space column Hcw).
Qed.

Lemma select_registers_alias_witness :
  js_in "table" users_select = Some true
  /\ js_in "columns" users_select = Some true
  /\ js_get users_select "table" = VObj [("users", VStr "user")]
  /\ exists this',
      select users_select constructor = Ok tt this'
      /\ includes (sql_identifiers this') "user" = true.
Proof.
  repeat (split; [reflexivity |]).
  destruct (select_registers_alias users_select constructor "users" "user" []
              eq_refl eq_refl eq_refl) as (this' & Hrun & _ & _ & _ & Ha & _).
  now exists this'.
Defined.

(** ** [limit] *)

Ltac digit_now :=
  cbn [NilEmpty.string_of_uint Pos.of_uint_acc Pos.of_uint digits_value];
  match goal with
  | |- context [digit_value 10 ?c] =>
      let v := eval vm_compute in (digit_value 10 c) in
      change (digit_value 10 c) with v
  end;
  cbv beta iota.

Lemma digits_after_positive (d : Decimal.uint) (acc : positive) :
  digits_value 10 (NilEmpty.string_of_uint d) (Some (Zpos acc))
  = Some (Zpos (Pos.of_uint_acc d acc)).
Proof.
  revert acc. induction d; intros acc; [reflexivity | ..];
    digit_now; rewrite <- IHd; do 2 f_equal; lia.
Qed.

Lemma digits_from_zero (d : Decimal.uint) :
  digits_value 10 (NilEmpty.string_of_uint d) (Some 0%Z) = Some (Z.of_N (Pos.of_uint d)).
Proof.
  induction d; [reflexivity | digit_now; exact IHd | ..];
    digit_now; apply (digits_after_positive d).
Qed.

Lemma digits_of_uint (d : Decimal.uint) :
  d <> Decimal.Nil ->
  digits_value 10 (NilEmpty.string_of_uint d) None = Some (Z.of_N (Pos.of_uint d)).
Proof.
  destruct d; intros H; [congruence | digit_now; apply digits_from_zero | ..];
    digit_now; apply (digits_after_positive d).
Qed.

Lemma parseInt_uint_text (d : Decimal.uint) :
  d <> Decimal.Nil ->
  let s := NilEmpty.string_of_uint d in
  trim_start s = s
  /\ (substring 0 1 s =? "-") = false /\ (substring 0 1 s =? "+") = false
  /\ (substring 0 2 s =? "0x") = false /\ (substring 0 2 s =? "0X") = false.
Proof.
  intros H. destruct d as [|d|d|d|d|d|d|d|d|d|d]; [congruence | ..];
    destruct d; simpl; rewrite ?substring_zero_nil; repeat split; reflexivity.
Qed.

Lemma parseInt_positive (p : positive) : parseInt (VNum (Zpos p)) = Some (Zpos p).
Proof.
  unfold parseInt. simpl js_String. unfold string_of_Z. simpl Z.to_int.
  pose proof (DecimalPos.Unsigned.to_uint_nonnil p) as Hnn.
  simpl NilZero.string_of_int.
  assert (Hs : NilZero.string_of_uint (Pos.to_uint p)
               = NilEmpty.string_of_uint (Pos.to_uint p))
    by (destruct (Pos.to_uint p); [congruence | reflexivity ..]).
  rewrite Hs.
  destruct (parseInt_uint_text (Pos.to_uint p) Hnn) as (Ht & Hm & Hpl & Hx & HX).
  rewrite Ht, Hm, Hpl, Hx, HX. simpl.
  rewrite (digits_of_uint _ Hnn), DecimalPos.Unsigned.of_to. reflexivity.
Qed.

Lemma parseInt_number (n : Z) : parseInt (VNum n) = Some n.
Proof.
  destruct n as [|p|p]; [reflexivity | apply parseInt_positive |].
  unfold parseInt. simpl js_String. unfold string_of_Z. simpl Z.to_int.
  pose proof (DecimalPos.Unsigned.to_uint_nonnil p) as Hnn.
  simpl NilZero.string_of_int.
  assert (Hs : NilZero.string_of_uint (Pos.to_uint p)
               = NilEmpty.string_of_uint (Pos.to_uint p))
    by (destruct (Pos.to_uint p); [congruence | reflexivity ..]).
  rewrite Hs.
  destruct (parseInt_uint_text (Pos.to_uint p) Hnn) as (Ht & Hm & Hpl & Hx & HX).
  change (trim_start (String "-" (NilEmpty.string_of_uint (Pos.to_uint p))))
    with (String "-" (NilEmpty.string_of_uint (Pos.to_uint p))).
  change (substring 0 1 (String "-" (NilEmpty.string_of_uint (Pos.to_uint p))))
    with (String "-" (substring 0 0 (NilEmpty.string_of_uint (Pos.to_uint p)))).
  rewrite substring_zero_nil. simpl (_ =? _). cbv iota.
  change (drop 1 (String "-" (NilEmpty.string_of_uint (Pos.to_uint p))))
    with (NilEmpty.string_of_uint (Pos.to_uint p)).
  rewrite Hx, HX. simpl.
  rewrite (digits_of_uint _ Hnn), DecimalPos.Unsigned.of_to. reflexivity.
Qed.

(** X13.  [limit] with a number sets the clause [LIMIT n] when the
    number is positive and otherwise does nothing at all, so that a
    limit once set cannot be taken back; with an array of numbers the
    first is the offset and the second the limit: a positive offset
    gives [LIMIT offset, limit] whatever the limit is (a missing one
    counts as 0), an offset that is not positive is dropped and only a
    positive limit is kept; [undefined] and booleans do nothing, and
    [null] throws a TypeError.  The numbers are integers in the safe
    range, which [String] and [parseInt] take to their digits and
    back; beyond it the source works on a rounded or exponent form. *)
Theorem limit_behaviour (n offset count : Z) (more : list JSValue) (flag : bool)
        (this : Builder)
        (Hn : safe_integer n = true)
        (Hoffset : safe_integer offset = true)
        (Hcount : safe_integer count = true) :
  limit (VNum n) this
  = Ok tt (if (0 <? n)%Z
           then set_limit (Some ("LIMIT " ++ string_of_Z n ++ newline)) this
           else this)
  /\ limit (VArr (VNum offset :: VNum count :: more)) this
     = Ok tt (if (0 <? offset)%Z
              then set_limit (Some ("LIMIT " ++ string_of_Z offset ++ ", "
                                    ++ string_of_Z count ++ newline)) this
              else if (0 <? count)%Z
                   then set_limit (Some ("LIMIT " ++ string_of_Z count ++ newline)) this
                   else this)
  /\ limit (VArr [VNum offset]) this
     = Ok tt (if (0 <? offset)%Z
              then set_limit (Some ("LIMIT " ++ string_of_Z offset ++ ", 0" ++ newline))
                             this
              else this)
  /\ limit VUndefined this = Ok tt this
  /\ limit (VBool flag) this = Ok tt this
  /\ exists msg, limit VNull this = Throw (TypeError msg) this.
Proof.
  repeat split.
  - unfold limit. simpl typeof. simpl (_ || _). cbv iota. unfold bind, ret.
    rewrite parseInt_number. cbn [fst snd nan_to_zero].
    change (0 <? 0)%Z with false. cbv iota.
    destruct (0 <? n)%Z; reflexivity.
  - unfold limit. simpl typeof. simpl (_ || _). cbv iota.
    change (js_in_m "0" (VArr (VNum offset :: VNum count :: more))) with (@ret bool true).
    change (js_in_m "1" (VArr (VNum offset :: VNum count :: more))) with (@ret bool true).
    unfold bind, ret. cbv iota.
    change (js_get (VArr (VNum offset :: VNum count :: more)) "0") with (VNum offset).
    change (js_get (VArr (VNum offset :: VNum count :: more)) "1") with (VNum count).
    change ("object" =? "object") with true. cbv beta iota.
    rewrite !parseInt_number. cbn [fst snd nan_to_zero].
    destruct (0 <? offset)%Z; [reflexivity |].
    destruct (0 <? count)%Z; reflexivity.
  - unfold limit. simpl typeof. simpl (_ || _). cbv iota.
    change (js_in_m "0" (VArr [VNum offset])) with (@ret bool true).
    change (js_in_m "1" (VArr [VNum offset])) with (@ret bool false).
    unfold bind, ret. cbv iota.
    change (js_get (VArr [VNum offset]) "0") with (VNum offset).
    change ("object" =? "object") with true. cbv beta iota.
    rewrite !parseInt_number. cbn [fst snd nan_to_zero].
    change (0 <? 0)%Z with false.
    destruct (0 <? offset)%Z; reflexivity.
  - eexists. reflexivity.
Qed.

Lemma limit_behaviour_witness :
  safe_integer 10 = true
  /\ safe_integer 20 = true
  /\ safe_integer 5 = true
  /\ limit (VArr [VNum 20; VNum 5]) constructor
     = Ok tt (set_limit (Some ("LIMIT 20, 5" ++ newline)) constructor).
Proof.
  split; [reflexivity |]. split; [reflexivity |]. split; [reflexivity |].
  exact (proj1 (proj2 (limit_behaviour 10 20 5 [] true constructor
                         eq_refl eq_refl eq_refl))).
Defined.

(** ** [duplicates] as a string *)



(** ** The depth allowed does not matter *)

Lemma for_each_ext_in {A B : Type} (l : list A) (f g : A -> M (list B)) :
  (forall x, In x l -> forall this, f x this = g x this) ->
  forall this, for_each l f this = for_each l g this.
Proof.
  induction l as [|x l IH]; intros H this; [reflexivity |].
  rewrite !for_each_cons, (H x (or_introl eq_refl)).
  destruct (g x this) as [p this1 | e this1]; [| reflexivity].
  rewrite IH; [reflexivity |]. intros y Hy. apply H. now right.
Qed.

Lemma process_item_group (depth : nat) (cond : JSValue) :
  is_group cond = true ->
  process_item depth cond
  = (o <- uppercase_key (entries cond) ;;
     let combine := if has_key "OR" o then "OR" else "AND" in
     match depth with
     | O => throw RecursionLimit
     | S d =>
         conds <- processConditions_at d (js_get (VObj o) combine) ;;
         ret [Some ("(" ++ join_fragments (" " ++ combine ++ " ") conds ++ ")")]
     end).
Proof.
  intros Hg.
  destruct cond as [| | | | |[|c0 [|c1 [|c2 [|c3 rest]]]]|props];
    try discriminate Hg; reflexivity.
Qed.

Lemma process_item_plain (d d' : nat) (cond : JSValue) :
  is_group cond = false -> process_item d cond = process_item d' cond.
Proof.
  intros Hg.
  destruct cond as [| | | | |[|c0 [|c1 [|c2 [|c3 rest]]]]|props];
    try discriminate Hg; reflexivity.
Qed.

Lemma group_in_shallow (depth : nat) (conditions cond : JSValue) :
  shallow depth conditions ->
  In cond (map snd (entries conditions)) ->
  is_group cond = true ->
  exists d, depth = S d /\ nesting cond <= d.
Proof.
  intros Hshallow Hin Hg.
  destruct Hshallow as [Hn | [l ->]].
  - pose proof (group_nesting cond Hg). pose proof (nesting_entry conditions cond Hin).
    destruct depth as [|d]; [lia |]. exists d. split; [reflexivity | lia].
  - simpl in Hin. rewrite values_index_from in Hin.
    apply in_map_iff in Hin as (x & <- & _). discriminate Hg.
Qed.

Lemma group_child_shallow (d : nat) (cond : JSValue) (o : list (string * JSValue))
      (this this1 : Builder) (k : string) :
  nesting cond <= d ->
  uppercase_key (entries cond) this = Ok o this1 ->
  shallow d (js_get (VObj o) k).
Proof.
  intros Hn E.
  destruct (js_get_object o k) as [-> | Hv]; [left; simpl; lia |].
  destruct (uppercase_key_values _ _ _ _ _ E Hv) as [Hc | Hs]; [left | now right].
  pose proof (nesting_entry cond _ Hc). lia.
Qed.

Lemma processConditions_at_depth (d d' : nat) (conditions : JSValue) :
  shallow d conditions ->
  shallow d' conditions ->
  forall this, processConditions_at d conditions this
               = processConditions_at d' conditions this.
Proof.
  revert d' conditions. induction d as [|d IH]; intros d' conditions Hs Hs';
    rewrite !processConditions_at_items; apply for_each_ext_in; intros cond Hin this.
  - destruct (is_group cond) eqn:Hg; [| now rewrite (process_item_plain 0 d')].
    destruct (group_in_shallow 0 conditions cond Hs Hin Hg) as (d0 & Hd & _).
    discriminate Hd.
  - destruct (is_group cond) eqn:Hg; [| now rewrite (process_item_plain (S d) d')].
    destruct (group_in_shallow (S d) conditions cond Hs Hin Hg) as (d0 & Hd & Hn).
    injection Hd as <-.
    destruct (group_in_shallow d' conditions cond Hs' Hin Hg) as (d0' & -> & Hn').
    rewrite !process_item_group by assumption. unfold bind at 1 3.
    destruct (uppercase_key (entries cond) this) as [o this1 | e this1] eqn:E;
      [| reflexivity].
    cbv zeta. unfold bind.
    rewrite (IH d0' (js_get (VObj o) (if has_key "OR" o then "OR" else "AND"))).
    + reflexivity.
    + now apply (group_child_shallow d cond o this this1).
    + now apply (group_child_shallow d0' cond o this this1).
Qed.

Lemma processConditions_at_enough (d : nat) (conditions : JSValue) (this : Builder) :
  nesting conditions <= d ->
  processConditions_at d conditions this = processConditions conditions this.
Proof.
  intros H. unfold processConditions.
  apply processConditions_at_depth; left; [exact H | lia].
Qed.

(** ** What a condition list makes of its elements *)

Lemma list_max_cons_le (x : nat) (l : list nat) : list_max l <= list_max (x :: l).
Proof. simpl. lia. Qed.

Lemma processConditions_cons (x : JSValue) (rest : list JSValue) (this : Builder) :
  processConditions (VArr (x :: rest)) this
  = match process_item (nesting (VArr (x :: rest))) x this with
    | Ok pushed this1 =>
        match processConditions (VArr rest) this1 with
        | Ok more this2 => Ok (pushed ++ more)%list this2
        | Throw e this2 => Throw e this2
        end
    | Throw e this1 => Throw e this1
    end.
Proof.
  unfold processConditions at 1. rewrite processConditions_at_array, for_each_cons.
  destruct (process_item (nesting (VArr (x :: rest))) x this) as [p this1 | e this1];
    [| reflexivity].
  rewrite <- processConditions_at_array.
  rewrite (processConditions_at_enough _ (VArr rest) this1); [reflexivity |].
  simpl. lia.
Qed.

Lemma not_numeral_key {A : Type} (k : string) (l : list A) (i : nat) :
  NilEmpty.uint_of_string k = None -> assoc k (index_from i l) = None.
Proof.
  intros Hk. revert i. induction l as [|x l IH]; intros i; simpl; [reflexivity |].
  destruct (String.eqb_spec (string_of_nat i) k) as [E | _]; [| apply IH].
  unfold string_of_nat in E. rewrite <- E, NilEmpty.usu in Hk. discriminate.
Qed.

Lemma uppercase_key_array (items : list JSValue) (this : Builder) :
  uppercase_key (entries (VArr items)) this = Ok (entries (VArr items)) this.
Proof.
  unfold uppercase_key, has_key. simpl.
  now rewrite !not_numeral_key by reflexivity.
Qed.

Lemma wrong_length_item (d : nat) (items : list JSValue) (this : Builder) :
  List.length items <> 3 ->
  process_item (S d) (VArr items) this = Ok [Some "()"] this.
Proof.
  intros Hlen.
  assert (Hg : is_group (VArr items) = true).
  { destruct items as [|c0 [|c1 [|c2 [|c3 rest]]]]; try reflexivity.
    simpl in Hlen. congruence. }
  rewrite (process_item_group _ _ Hg). unfold bind at 1.
  rewrite uppercase_key_array. cbv zeta.
  unfold has_key, js_get. simpl entries.
  rewrite (not_numeral_key "OR" items 0 eq_refl). cbv iota.
  rewrite (not_numeral_key "AND" items 0 eq_refl).
  destruct d; reflexivity.
Qed.

(** X15.  What [processConditions] makes of the elements that are no
    leaf and no group object: a string is pushed as it stands, without
    escaping and without touching the instance; [undefined], [null], a
    boolean or a number is skipped; and an array whose length is not 3
    is neither skipped nor an error: it is compiled as a group without
    children and leaves the text of an empty pair of parentheses. *)
Theorem non_leaf_elements (raw : string) (skipped : JSValue) (items rest : list JSValue)
        (this : Builder)
        (Hskipped : is_skipped skipped = true)
        (Hitems : List.length items <> 3) :
  processConditions (VArr (VStr raw :: rest)) this
  = match processConditions (VArr rest) this with
    | Ok fs this' => Ok (Some raw :: fs) this'
    | Throw e this' => Throw e this'
    end
  /\ processConditions (VArr (skipped :: rest)) this
     = processConditions (VArr rest) this
  /\ processConditions (VArr (VArr items :: rest)) this
     = match processConditions (VArr rest) this with
       | Ok fs this' => Ok (Some "()" :: fs) this'
       | Throw e this' => Throw e this'
       end.
Proof.
  repeat split.
  - rewrite processConditions_cons. reflexivity.
  - rewrite processConditions_cons.
    destruct skipped; try discriminate Hskipped; simpl process_item; unfold ret;
      now destruct (processConditions (VArr rest) this).
  - rewrite processConditions_cons.
    change (nesting (VArr (VArr items :: rest)))
      with (S (list_max (map nesting (VArr items :: rest)))).
    now rewrite (wrong_length_item _ items this Hitems).
Qed.

Lemma non_leaf_elements_witness :
  is_skipped (VNum 7) = true
  /\ List.length [VStr "user.id"; VStr "="] <> 3
  /\ processConditions (VArr [VArr [VStr "user.id"; VStr "="]]) names_builder
     = Ok [Some "()"] names_builder.
Proof.
  split; [reflexivity |]. split; [simpl; lia |].
  destruct (non_leaf_elements "" (VNum 7) [VStr "user.id"; VStr "="] [] names_builder
              eq_refl) as (_ & _ & H); [simpl; lia |].
  exact H.
Defined.

Lemma group_item (d : nat) (key : string) (children : list JSValue) (this : Builder) :
  process_item (S d) (VObj [(key, VArr children)]) this
  = match group_word key with
    | Some word =>
        match processConditions_at d (VArr children) this with
        | Ok conds this1 =>
            Ok [Some ("(" ++ join_fragments (" " ++ word ++ " ") conds ++ ")")] this1
        | Throw e this1 => Throw e this1
        end
    | None => Ok [Some "()"] this
    end.
Proof.
  rewrite (process_item_group (S d) (VObj [(key, VArr children)]) eq_refl).
  unfold group_word, bind, uppercase_key, has_key, js_get, spread, ret.
  destruct (key =? "and") eqn:Eand.
  { apply String.eqb_eq in Eand. subst key. simpl.
    destruct (processConditions_at d (VArr children) this); reflexivity. }
  destruct (key =? "AND") eqn:EAND.
  { apply String.eqb_eq in EAND. subst key. simpl.
    destruct (processConditions_at d (VArr children) this); reflexivity. }
  destruct (key =? "or") eqn:Eor.
  { apply String.eqb_eq in Eor. subst key. simpl.
    destruct (processConditions_at d (VArr children) this); reflexivity. }
  destruct (key =? "OR") eqn:EOR.
  { apply String.eqb_eq in EOR. subst key. simpl.
    destruct (processConditions_at d (VArr children) this); reflexivity. }
  simpl. rewrite ?Eand, ?Eor. simpl. rewrite ?EOR. simpl. rewrite ?EAND.
  destruct d; reflexivity.
Qed.

(** X16.  A group object with one key and an array under it compiles
    its children, in their own parentheses, joined by the combinator
    of the key: [AND] for the keys [and] and [AND], [OR] for [or] and
    [OR]; the parameters are consumed by the children first and by the
    rest of the list afterwards.  Under any other key, other letter
    cases of [and] and [or] included, the children are not compiled at
    all and the group leaves an empty pair of parentheses. *)
Theorem group_rendering (key : string) (children rest : list JSValue) (this : Builder) :
  processConditions (VArr (VObj [(key, VArr children)] :: rest)) this
  = match group_word key with
    | Some word =>
        match processConditions (VArr children) this with
        | Ok conds this1 =>
            match processConditions (VArr rest) this1 with
            | Ok fs this2 =>
                Ok (Some ("(" ++ join_fragments (" " ++ word ++ " ") conds ++ ")") :: fs)
                   this2
            | Throw e this2 => Throw e this2
            end
        | Throw e this1 => Throw e this1
        end
    | None =>
        match processConditions (VArr rest) this with
        | Ok fs this1 => Ok (Some "()" :: fs) this1
        | Throw e this1 => Throw e this1
        end
    end.
Proof.
  rewrite processConditions_cons.
  change (nesting (VArr (VObj [(key, VArr children)] :: rest)))
    with (S (list_max (map nesting (VObj [(key, VArr children)] :: rest)))).
  rewrite group_item.
  destruct (group_word key) as [word |]; [| reflexivity].
  assert (Hdeep : nesting (VArr children)
                  <= list_max (map nesting (VObj [(key, VArr children)] :: rest))).
  { pose proof (le_list_max (map nesting (VObj [(key, VArr children)] :: rest))
                  (nesting (VObj [(key, VArr children)])) (or_introl eq_refl)) as H.
    assert (nesting (VArr children) <= nesting (VObj [(key, VArr children)]))
      by (simpl; lia).
    lia. }
  rewrite (processConditions_at_enough _ _ _ Hdeep).
  destruct (processConditions (VArr children) this); reflexivity.
Qed.

(** ** Columns *)

Lemma processColumns_array (items : list JSValue) :
  processColumns (VArr items) = for_each items column_item.
Proof.
  unfold processColumns. simpl entries.
  apply (for_each_values items 0 column_item).
Qed.

Lemma processColumns_cons (x : JSValue) (rest : list JSValue) (this : Builder) :
  processColumns (VArr (x :: rest)) this
  = match column_item x this with
    | Ok pushed this1 =>
        match processColumns (VArr rest) this1 with
        | Ok more this2 => Ok (pushed ++ more)%list this2
        | Throw e this2 => Throw e this2
        end
    | Throw e this1 => Throw e this1
    end.
Proof. now rewrite !processColumns_array, for_each_cons. Qed.

Lemma word_token_plain (w : string) :
  is_word_text w = true -> w <> "?" /\ first_named w = None.
Proof.
  unfold is_word_text. intros H. apply andb_true_iff in H as [_ Hw]. split.
  - intros ->. discriminate Hw.
  - induction w as [|c w IH]; [reflexivity |].
    simpl in Hw. apply andb_true_iff in Hw as [Hc Hw].
    cbn [first_named]. rewrite named_at_other; [now apply IH |].
    destruct c as [[] [] [] [] [] [] [] []]; try reflexivity; discriminate Hc.
Qed.

Lemma word_column_item (w : string) (this : Builder) :
  is_word_text w = true -> column_item (VStr w) this = Ok [backticked w] this.
Proof.
  intros Hw. unfold column_item. simpl typeof. simpl (_ =? _). cbv iota.
  destruct (word_token_plain w Hw) as [Hq Hn].
  unfold bind. rewrite (plain_token_resolution w true this Hq Hn).
  now rewrite (identifier_word this w true Hw).
Qed.



(** ** The alias keyword *)

Lemma is_as_cases (kw : string) : is_as kw = true -> kw = "as" \/ kw = "AS".
Proof.
  unfold is_as. intros H. apply orb_true_iff in H as [H | H];
    apply String.eqb_eq in H; auto.
Qed.

Lemma prefix_len_word (p : ascii -> bool) (w : string) :
  forallb_str p w = true -> prefix_len p w = String.length w.
Proof.
  intros H. rewrite <- (append_nil_r w) at 1. now apply prefix_len_all.
Qed.

Lemma as_callback_here (kw w : string) :
  is_as kw = true ->
  is_word_text w = true ->
  as_callback (kw ++ " " ++ w)
  = Some (3 + String.length w, "AS " ++ backticked w, true).
Proof.
  intros Hk Hw. unfold is_word_text in Hw. apply andb_true_iff in Hw as [Hn Hw].
  apply negb_true_iff in Hn. destruct (nonempty_length w Hn) as [k Hlen].
  unfold as_callback.
  assert (Hsub : substring 0 3 (kw ++ " " ++ w) = kw ++ " ")
    by (destruct (is_as_cases kw Hk) as [-> | ->]; simpl;
        now rewrite substring_zero_nil).
  assert (Hdrop : drop 3 (kw ++ " " ++ w) = w)
    by (destruct (is_as_cases kw Hk) as [-> | ->]; reflexivity).
  assert (Hcol : substring 3 (String.length w) (kw ++ " " ++ w) = w)
    by (destruct (is_as_cases kw Hk) as [-> | ->]; simpl; apply substring_whole).
  rewrite Hsub, Hdrop, (prefix_len_word is_word w Hw).
  replace ((kw ++ " " =? "as ") || (kw ++ " " =? "AS ")) with true
    by (destruct (is_as_cases kw Hk) as [-> | ->]; reflexivity).
  rewrite Hlen, <- Hlen, Hcol, (sqlEscape_plain w (word_plain w Hw)).
  reflexivity.
Qed.

Lemma as_callback_inside (c : ascii) (u kw w : string) :
  is_word c = true ->
  forallb_str is_word u = true ->
  is_as kw = true ->
  as_callback (String c (u ++ kw ++ " " ++ w)) = None.
Proof.
  intros Hc Hu Hk. unfold as_callback.
  assert (Hthird : forall a b : ascii,
             substring 0 3 (String c (u ++ kw ++ " " ++ w))
             <> String a (String b (String " " EmptyString))).
  { intros a b E.
    destruct u as [|d [|e u]]; destruct (is_as_cases kw Hk) as [-> | ->];
      simpl in E; try discriminate E.
    - rewrite substring_zero_nil in E. injection E as _ _ E. subst e.
      simpl in Hu. rewrite andb_false_r in Hu. discriminate Hu.
    - rewrite substring_zero_nil in E. injection E as _ _ E. subst e.
      simpl in Hu. rewrite andb_false_r in Hu. discriminate Hu. }
  destruct (String.eqb_spec (substring 0 3 (String c (u ++ kw ++ " " ++ w))) "as ")
    as [E | _]; [now apply Hthird in E |].
  destruct (String.eqb_spec (substring 0 3 (String c (u ++ kw ++ " " ++ w))) "AS ")
    as [E | _]; [now apply Hthird in E | reflexivity].
Qed.

Lemma replace_all_match (f : string -> option (nat * string * bool))
      (c : ascii) (rest text : string) (len : nat) (flag : bool) :
  f (String c rest) = Some (len, text, flag) ->
  String.length rest <= len - 1 ->
  replace_all f (String c rest) 0 = (text, flag).
Proof.
  intros H Hlen. cbn [replace_all]. rewrite H.
  rewrite (replace_all_skipped f rest (len - 1) Hlen).
  now rewrite append_nil_r, orb_false_r.
Qed.

Lemma replace_as_inside (u kw w : string) :
  forallb_str is_word u = true ->
  is_as kw = true ->
  is_word_text w = true ->
  replace_all as_callback (u ++ kw ++ " " ++ w) 0
  = (u ++ "AS " ++ backticked w, true).
Proof.
  intros Hu Hk Hw. induction u as [|c u IH].
  - change ("" ++ kw ++ " " ++ w) with (kw ++ " " ++ w).
    pose proof (as_callback_here kw w Hk Hw) as Hhere.
    destruct (is_as_cases kw Hk) as [-> | ->];
      (apply (replace_all_match as_callback _ _ _ _ _ Hhere); simpl; lia).
  - simpl in Hu. apply andb_true_iff in Hu as [Hc Hu].
    change (String c u ++ kw ++ " " ++ w) with (String c (u ++ kw ++ " " ++ w)).
    cbn [replace_all]. rewrite (as_callback_inside c u kw w Hc Hu Hk).
    now rewrite (IH Hu).
Qed.

(** X18.  The alias rewrite of [identifier] looks for the letters [as]
    or [AS], a space and a name wherever they stand, also at the end of
    a longer word: a token made of a word that ends in those letters, a
    space and a name comes back with the end of the word turned into
    the keyword [AS] and the name between backticks, and is never
    quoted as a whole. *)
Theorem alias_keyword_inside_word (this : Builder) (u kw w : string) (force_quote : bool)
        (Hu : forallb_str is_word u = true)
        (Hk : is_as kw = true)
        (Hw : is_word_text w = true) :
  identifier this (VStr (u ++ kw ++ " " ++ w)) force_quote
  = u ++ "AS " ++ backticked w.
Proof.
  unfold identifier. change (js_String (VStr ?s)) with s.
  assert (Hd : no_dot (u ++ kw ++ " " ++ w) = true).
  { unfold no_dot. rewrite !forallb_str_append.
    unfold is_word_text in Hw. apply andb_true_iff in Hw as [_ Hw].
    pose proof (word_no_dot u Hu) as H1. pose proof (word_no_dot w Hw) as H2.
    unfold no_dot in H1, H2. rewrite H1, H2.
    destruct (is_as_cases kw Hk) as [-> | ->]; reflexivity. }
  rewrite (replace_dotted_no_dot this _ Hd), (replace_as_inside u kw w Hu Hk Hw).
  reflexivity.
Qed.

Lemma alias_keyword_inside_word_witness :
  forallb_str is_word "ali" = true
  /\ is_as "as" = true
  /\ is_word_text "total" = true
  /\ identifier names_builder (VStr "alias total") true = "aliAS `total`".
Proof.
  split; [reflexivity |]. split; [reflexivity |]. split; [reflexivity |].
  exact (alias_keyword_inside_word names_builder "ali" "as" "total" true
           eq_refl eq_refl eq_refl).
Defined.

(** ** Whole statements *)

Lemma word_columns (cs : list string) (this : Builder) :
  forallb is_word_text cs = true ->
  processColumns (VArr (map VStr cs)) this = Ok (map backticked cs) this.
Proof.
  induction cs as [|c cs IH]; intros H.
  - now rewrite processColumns_array.
  - simpl in H. apply andb_true_iff in H as [Hc H].
    change (map VStr (c :: cs)) with (VStr c :: map VStr cs).
    rewrite processColumns_cons, (word_column_item c this Hc), (IH H).
    reflexivity.
Qed.

Ltac without_clauses st :=
  unfold build_joins, bind, gets, ret; change (sql_joins st) with (@nil JSValue);
  cbn [for_each]; unfold ret;
  unfold build_tail, bind, gets, ret;
  change (sql_where st) with (@nil JSValue);
  change (sql_having st) with (@nil JSValue);
  change (sql_group st) with (@nil JSValue);
  change (sql_order st) with (@nil JSValue);
  change (sql_limit st) with (@None string);
  cbv beta iota.

Ltac from_payload method :=
  unfold fromJson, when_present, js_in_m, bind, ret; simpl;
  unfold method, require, js_in_m, bind, ret, modify, table, push_identifier, gets;
  simpl;
  rewrite ?identifier_word by assumption.

(** X19.  Statements over plain names, from the payload to the text: a
    [select] of named columns from a table with an alias gives
    [SELECT], the columns between backticks one per line, and [FROM]
    with the table and the alias between backticks; a [delete] on a
    table with an alias names the alias after [DELETE], and on a table
    without one leaves [DELETE] followed by a blank and the line
    break. *)
Theorem plain_statement_text (t a : string) (cs : list string)
        (Ht : is_word_text t = true)
        (Ha : is_word_text a = true)
        (Hcs : forallb is_word_text cs = true) :
  text_of (fromJson (VObj [("select", VObj [("table", VObj [(t, VStr a)]);
                                            ("columns", VArr (map VStr cs))])]))
  = Some ("SELECT " ++ join sep_comma_nl (map backticked cs) ++ newline
          ++ "FROM " ++ backticked t ++ " AS " ++ backticked a ++ newline)
  /\ text_of (fromJson (VObj [("delete", VObj [("table", VObj [(t, VStr a)])])]))
     = Some ("DELETE " ++ backticked a ++ newline
             ++ "FROM " ++ backticked t ++ " AS " ++ backticked a ++ newline)
  /\ text_of (fromJson (VObj [("delete", VObj [("table", VStr t)])]))
     = Some ("DELETE " ++ newline ++ "FROM " ++ backticked t ++ newline).
Proof.
  split; [| split].
  - from_payload select.
    change (js_get (js_get _ "select") "columns") with (VArr (map VStr cs)).
    match goal with |- text_of (build ?s) = _ => set (st := s) end.
    unfold build, bind, gets. change (sql_mode st) with (Some "select").
    cbv beta iota. change ("select" =? "select") with true. cbv beta iota.
    unfold buildSelect, bind, gets.
    change (js_get (sql_select st) "columns") with (VArr (map VStr cs)).
    rewrite (word_columns cs st Hcs). cbv beta iota.
    change (table_and_alias (js_get (sql_select st) "table"))
      with (VStr (backticked t), VStr (backticked a)).
    cbv beta iota. unfold ret.
    without_clauses st.
    simpl. now rewrite !append_nil_r.
  - from_payload delete.
    unfold as_alias, truthy, backticked, backtick. simpl.
    now rewrite !append_nil_r.
  - from_payload delete.
    change (js_get (js_get _ "delete") "table") with (VStr t).
    rewrite (identifier_word _ t true Ht).
    unfold backticked, backtick. simpl. now rewrite ?append_nil_r.
Qed.

Lemma plain_statement_text_witness :
  is_word_text "users" = true
  /\ is_word_text "u" = true
  /\ forallb is_word_text ["id"; "email"] = true
  /\ text_of (fromJson (VObj [("delete", VObj [("table", VStr "users")])]))
     = Some ("DELETE " ++ newline ++ "FROM `users`" ++ newline).
Proof.
  split; [reflexivity |]. split; [reflexivity |]. split; [reflexivity |].
  exact (proj2 (proj2 (plain_statement_text "users" "u" ["id"; "email"]
                         eq_refl eq_refl eq_refl))).
Defined.

(** ** The values of [insert] and [update] *)

Lemma assoc_set_absent {A : Type} (k : string) (x : A) (l : list (string * A)) :
  ~ In k (map fst l) -> assoc_set k x l = (l ++ [(k, x)])%list.
Proof.
  induction l as [|[k' y] l IH]; intros H; [reflexivity |].
  simpl in *. destruct (String.eqb_spec k' k) as [E | _]; [tauto |].
  rewrite IH by tauto. reflexivity.
Qed.

Lemma backticked_inj (a b : string) : backticked a = backticked b -> a = b.
Proof.
  intros H.
  assert (Hlen : String.length a = String.length b).
  { apply (f_equal String.length) in H. unfold backticked in H.
    rewrite !length_append in H. simpl in H. lia. }
  pose proof (substring_middle backtick a backtick) as Ha.
  pose proof (substring_middle backtick b backtick) as Hb.
  unfold backticked in H. rewrite H, Hlen, Hb in Ha. now symmetry.
Qed.

Lemma processValues_loop_placeholders (names : list string)
      (before ps behind : list JSValue)
      (filled : list (string * string)) (this : Builder) :
  NoDup names ->
  forallb is_word_text names = true ->
  List.length ps = List.length names ->
  (forall k, In k names -> ~ In (backticked k) (map fst filled)) ->
  sql_params this = entries (VArr (before ++ ps ++ behind)) ->
  sql_param_counter this = List.length before ->
  processValues_loop (map (fun k => (k, VStr "?")) names) filled this
  = Ok (filled ++ combine (map backticked names)
                          (map (fun p => quote_text p false) ps))%list
       (set_param_counter (List.length before + List.length ps) this).
Proof.
  revert before ps filled this.
  induction names as [|k names IH]; intros before ps filled this Hnd Hw Hlen Hfresh Hp Hc.
  - destruct ps; [| discriminate Hlen]. simpl. unfold ret.
    rewrite app_nil_r, Nat.add_0_r, <- Hc. now destruct this.
  - destruct ps as [|p ps]; [discriminate Hlen |].
    simpl in Hw. apply andb_true_iff in Hw as [Hk Hw].
    inversion Hnd as [| ? ? Hnotin Hnd']; subst.
    cbn [map processValues_loop]. unfold bind at 1, gets at 1. cbv beta iota.
    unfold bind at 1.
    rewrite (placeholder_step this (before ++ p :: ps ++ behind)%list p false Hp)
      by (rewrite Hc, nth_error_app2 by lia; now rewrite Nat.sub_diag).
    rewrite (identifier_word this k true Hk). fold (backticked k).
    rewrite assoc_set_absent by (apply Hfresh; now left).
    rewrite (IH (before ++ [p])%list ps).
    + rewrite set_param_counter_twice, length_app, <- app_assoc. simpl.
      now replace (List.length before + 1 + List.length ps)
        with (List.length before + S (List.length ps)) by lia.
    + exact Hnd'.
    + exact Hw.
    + simpl in Hlen. lia.
    + intros k' Hin Hin'. rewrite map_app, in_app_iff in Hin'.
      destruct Hin' as [Hin' | [Hin' | []]].
      * apply (Hfresh k'); [now right | exact Hin'].
      * simpl in Hin'. apply backticked_inj in Hin'. subst k'. contradiction.
    + simpl. rewrite Hp. now rewrite <- app_assoc.
    + simpl. rewrite length_app. simpl. lia.
Qed.

Lemma map_fst_combine {A B : Type} (l : list A) (l' : list B) :
  List.length l = List.length l' -> map fst (combine l l') = l.
Proof.
  revert l'. induction l as [|x l IH]; intros [|y l'] H; try discriminate; [reflexivity |].
  simpl. rewrite IH; [reflexivity | simpl in H; lia].
Qed.

Lemma map_snd_combine {A B : Type} (l : list A) (l' : list B) :
  List.length l = List.length l' -> map snd (combine l l') = l'.
Proof.
  revert l'. induction l as [|x l IH]; intros [|y l'] H; try discriminate; [reflexivity |].
  simpl. rewrite IH; [reflexivity | simpl in H; lia].
Qed.

Lemma name_is_word (w : string) : is_name w = true -> is_word_text w = true.
Proof.
  destruct w as [|c w]; [discriminate |]. unfold is_name.
  intros H. now apply andb_true_iff in H as [H _].
Qed.

Lemma names_are_words (names : list string) :
  forallb is_name names = true -> forallb is_word_text names = true.
Proof.
  rewrite !forallb_forall. intros H w Hin. apply name_is_word. now apply H.
Qed.

(** X20.  The columns of an [insert] are resolved in the order in
    which they are listed: when they are distinct names that do not
    begin with a digit (a key that is an array index is enumerated
    before the others, wherever it was written) and their values are
    all the token [?], the parameters under the cursor go to them one
    by one, each name comes back between backticks paired with its
    parameter as [quote] renders it, the cursor ends after the last of
    them, and [buildInsert] lists the names and then the values in
    that same order. *)
Theorem values_in_column_order (this : Builder) (names : list string)
        (before ps behind : list JSValue) (table : JSValue)
        (Hdistinct : NoDup names)
        (Hnames : forallb is_name names = true)
        (Hlength : List.length ps = List.length names)
        (Hparams : sql_params this = entries (VArr (before ++ ps ++ behind)))
        (Hcursor : sql_param_counter this = List.length before) :
  processValues (VObj (map (fun k => (k, VStr "?")) names)) this
  = Ok (Some (combine (map backticked names) (map (fun p => quote_text p false) ps)))
       (set_param_counter (List.length before + List.length ps) this)
  /\ (sql_insert this = VObj [("table", table);
                              ("columns", VObj (map (fun k => (k, VStr "?")) names));
                              ("duplicates", VArr [])] ->
      buildInsert this
      = Ok ("INSERT INTO " ++ js_String table
            ++ " (" ++ join ", " (map backticked names) ++ ")" ++ newline
            ++ "VALUES (" ++ join ", " (map (fun p => quote_text p false) ps) ++ ")"
            ++ newline)
           (set_param_counter (List.length before + List.length ps) this)).
Proof.
  pose proof (names_are_words names Hnames) as Hwords.
  assert (Hrun : processValues (VObj (map (fun k => (k, VStr "?")) names)) this
                 = Ok (Some (combine (map backticked names)
                                     (map (fun p => quote_text p false) ps)))
                      (set_param_counter (List.length before + List.length ps) this)).
  { change (processValues (VObj (map (fun k => (k, VStr "?")) names)) this)
      with ((filled <- processValues_loop (map (fun k => (k, VStr "?")) names) [] ;;
             ret (Some filled)) this).
    unfold bind.
    rewrite (processValues_loop_placeholders names before ps behind [] this
               Hdistinct Hwords Hlength (fun _ _ H => H) Hparams Hcursor).
    reflexivity. }
  split; [exact Hrun |].
  intros Hinsert. unfold buildInsert, bind, gets. cbv beta.
  rewrite Hinsert.
  change (js_get (VObj _) "columns") with (VObj (map (fun k => (k, VStr "?")) names)).
  rewrite Hrun. cbv beta iota.
  change (js_get (VObj _) "duplicates") with (VArr []).
  change (js_get (VObj _) "table") with table.
  cbn [duplicates_clause]. unfold ret.
  rewrite map_fst_combine, map_snd_combine by (now rewrite !length_map).
  now rewrite append_nil_r.
Qed.

Lemma values_in_column_order_witness :
  NoDup ["name"; "email"]
  /\ forallb is_name ["name"; "email"] = true
  /\ List.length [VStr "Ann"; VNum 7] = List.length ["name"; "email"]
  /\ sql_params (set_params (entries (VArr [VStr "Ann"; VNum 7])) constructor)
     = entries (VArr ([] ++ [VStr "Ann"; VNum 7] ++ []))
  /\ sql_param_counter (set_params (entries (VArr [VStr "Ann"; VNum 7])) constructor)
     = List.length (@nil JSValue)
  /\ processValues (VObj [("name", VStr "?"); ("email", VStr "?")])
       (set_params (entries (VArr [VStr "Ann"; VNum 7])) constructor)
     = Ok (Some [("`name`", "'Ann'"); ("`email`", "7")])
          (set_param_counter 2
             (set_params (entries (VArr [VStr "Ann"; VNum 7])) constructor)).
Proof.
  assert (Hd : NoDup ["name"; "email"]).
  { repeat constructor; simpl; intuition discriminate. }
  split; [exact Hd |].
  split; [reflexivity |]. split; [reflexivity |]. split; [reflexivity |].
  split; [reflexivity |].
  exact (proj1 (values_in_column_order
                  (set_params (entries (VArr [VStr "Ann"; VNum 7])) constructor)
                  ["name"; "email"] [] [VStr "Ann"; VNum 7] [] VNull
                  Hd eq_refl eq_refl eq_refl eq_refl)).
Defined.

(** ** The set leaf *)

(** X21.  The value of an [in set] leaf is never resolved: it goes
    straight to [quote], so a string, also the token [?] or a
    [?:name] token while parameters are supplied, comes back as the
    single-quoted literal of that very string, no parameter is
    consumed for it and the instance is left as it was. *)
Theorem in_set_value_not_resolved (w text : string) (this : Builder)
        (Hw : is_word_text w = true) :
  exists lit,
    processCondition [VStr w; VStr "in set"; VStr text] this
    = Ok (Some ("FIND_IN_SET(" ++ w ++ ", " ++ lit ++ ")")) this
    /\ literal_value lit = Some text.
Proof.
  exists (squote ++ escape_by_table text ++ squote). split.
  - destruct (word_token_plain w Hw) as [Hq Hn].
    unfold processCondition. cbn [is_string]. simpl (_ =? _). cbv iota.
    unfold bind. rewrite (plain_token_resolution w false this Hq Hn).
    rewrite (identifier_word this w false Hw), quote_runs, quote_text_string.
    reflexivity.
  - rewrite <- escape_each_by_table. simpl. apply literal_body_escape_each.
Qed.

Lemma in_set_value_not_resolved_witness :
  is_word_text "tags" = true
  /\ exists lit,
      processCondition [VStr "tags"; VStr "in set"; VStr "?"] names_builder
      = Ok (Some ("FIND_IN_SET(tags, " ++ lit ++ ")")) names_builder
      /\ literal_value lit = Some "?".
Proof.
  split; [reflexivity |].
  exact (in_set_value_not_resolved "tags" "?" names_builder eq_refl).
Defined.

(** ** The unknown operator at the caller of [build] *)

Lemma list_max_prefix (before : list JSValue) (bound : nat) :
  (forall v, In v before -> nesting v <= bound) ->
  list_max (map nesting before) <= bound.
Proof.
  induction before as [|b before IH]; intros H; simpl; [lia |].
  apply Nat.max_lub.
  - apply H. now left.
  - apply IH. intros v Hin. apply H. now right.
Qed.

Lemma shallow_prefix (depth : nat) (conditions : JSValue)
      (before behind : list JSValue) (x : JSValue) :
  shallow depth conditions ->
  map snd (entries conditions) = (before ++ x :: behind)%list ->
  shallow depth (VArr before).
Proof.
  intros Hshallow Hentries.
  assert (Hall : forall v, In v before -> nesting v <= pred (nesting conditions)).
  { intros v Hin. apply nesting_entry. rewrite Hentries.
    apply in_or_app. now left. }
  apply list_max_prefix in Hall.
  assert (Hchars : forall l, map VStr l = (before ++ x :: behind)%list ->
                             shallow depth (VArr before)).
  { intros l H. apply map_eq_app in H as (l1 & l2 & _ & H1 & _).
    right. exists l1. now rewrite H1. }
  destruct Hshallow as [Hdepth | (l & ->)].
  - destruct conditions as [| | | |s|items|props];
      try (destruct before; discriminate Hentries).
    + simpl in Hentries. rewrite values_index_from in Hentries.
      exact (Hchars _ Hentries).
    + left. simpl in *. lia.
    + left. simpl in *. lia.
  - simpl in Hentries. rewrite values_index_from in Hentries.
    exact (Hchars _ Hentries).
Qed.

Lemma prefix_compiled (depth : nat) (conditions : JSValue)
      (before behind : list JSValue) (x : JSValue) (this : Builder) :
  shallow depth conditions ->
  map snd (entries conditions) = (before ++ x :: behind)%list ->
  for_each before (process_item depth) this = processConditions (VArr before) this.
Proof.
  intros Hshallow Hentries.
  rewrite <- processConditions_at_array. unfold processConditions.
  apply processConditions_at_depth.
  - exact (shallow_prefix depth conditions before behind x Hshallow Hentries).
  - now left.
Qed.

Lemma reaches_throws (leaf : JSValue) (e : JSError) :
  (forall depth this, process_item depth leaf this = Throw e this) ->
  forall conditions this,
    reaches leaf conditions this ->
    forall depth,
      shallow depth conditions ->
      throws e (processConditions_at depth conditions this).
Proof.
  intros Hleaf conditions this Hreach.
  induction Hreach
    as [conditions before behind this this1 compiled Hentries Hbefore
       | conditions cond before behind o this this1 compiled Hentries Hbefore
                    Hgroup Hkey _ IH];
    intros depth Hshallow;
    rewrite processConditions_at_items, Hentries, for_each_app,
      (prefix_compiled depth conditions before behind _ this Hshallow Hentries),
      Hbefore, for_each_cons.
  - rewrite Hleaf. now exists this1.
  - assert (Hin : In cond (map snd (entries conditions))).
    { rewrite Hentries. apply in_or_app. right. now left. }
    destruct (group_in_shallow depth conditions cond Hshallow Hin Hgroup)
      as (d & -> & Hd).
    rewrite (process_item_group (S d) cond Hgroup). unfold bind at 1.
    rewrite Hkey. cbv beta iota zeta. unfold bind at 1.
    destruct (IH d (group_child_shallow d cond o this1 this1 _ Hd Hkey))
      as (this2 & ->).
    now exists this2.
Qed.

Lemma bind_assoc {A B C : Type} (m : M A) (f : A -> M B) (g : B -> M C)
      (this : Builder) :
  bind (bind m f) g this = bind m (fun a => bind (f a) g) this.
Proof. unfold bind. destruct (m this); reflexivity. Qed.

Lemma build_split (this : Builder) :
  build this = (query <- build_statement ;; build_tail query) this.
Proof.
  unfold build, build_statement, bind, gets, ret.
  destruct (sql_mode this) as [mode |]; [| reflexivity].
  destruct (mode =? "select").
  { destruct (buildSelect this) as [h this1 | ]; [| reflexivity].
    destruct (build_joins this1); reflexivity. }
  destruct (mode =? "insert").
  { destruct (buildInsert this) as [h this1 | ]; [| reflexivity].
    destruct (build_joins this1); reflexivity. }
  destruct (mode =? "delete").
  { destruct (buildDelete this) as [h this1 | ]; [| reflexivity].
    destruct (build_joins this1); reflexivity. }
  destruct (mode =? "update"); [| reflexivity].
  destruct (build_joins this) as [js this1 | ]; [| reflexivity].
  destruct (buildUpdate js this1); reflexivity.
Qed.

Lemma throws_bind_left {A B : Type} (e : JSError) (m : M A) (k : A -> M B)
      (this : Builder) :
  throws e (m this) -> throws e (bind m k this).
Proof. intros (this' & H). unfold bind. rewrite H. now exists this'. Qed.

Lemma buildWhere_throws (e : JSError) (this : Builder) :
  throws e (processConditions (VArr (sql_where this)) this) -> throws e (buildWhere this).
Proof.
  intros H. unfold buildWhere, bind at 1, gets. now apply throws_bind_left.
Qed.

Lemma buildHaving_throws (e : JSError) (this : Builder) :
  throws e (processConditions (VArr (sql_having this)) this) ->
  throws e (buildHaving this).
Proof.
  intros H. unfold buildHaving, bind at 1, gets. now apply throws_bind_left.
Qed.

Lemma build_joins_throws (e : JSError) (this this1 : Builder)
      (built rest : list JSValue) (j : JSValue) (texts : list string) :
  sql_joins this = (built ++ j :: rest)%list ->
  for_each built (fun j => text <- buildJoin j ;; ret [text]) this = Ok texts this1 ->
  throws e (processConditions (js_get j "conditions") this1) ->
  throws e (build_joins this).
Proof.
  intros Hjoins Hbuilt Hthrows. unfold build_joins, bind at 1, gets.
  apply throws_bind_left. rewrite Hjoins, for_each_app, Hbuilt, for_each_cons.
  assert (Hj : throws e (bind (buildJoin j) (fun text => ret [text]) this1)).
  { apply throws_bind_left. unfold buildJoin. now apply throws_bind_left. }
  destruct Hj as (this2 & ->). now exists this2.
Qed.

Lemma build_propagates (e : JSError) (conditions : JSValue) (this this1 : Builder) :
  build_compiles conditions this this1 ->
  throws e (processConditions conditions this1) ->
  throws e (build this).
Proof.
  intros Hcompiles Hthrows.
  destruct Hcompiles
    as [this this1 this2 head built rest j texts Hhead Hjoins Hbuilt
       | this this1 query Hstatement Hwhere
       | this this1 this2 query w Hstatement Hclause Hhaving].
  - pose proof (build_joins_throws e this1 this2 built rest j texts Hjoins Hbuilt Hthrows)
      as (this3 & Hj).
    revert Hhead. unfold build, before_joins, bind, gets, ret.
    destruct (sql_mode this) as [mode |]; [| discriminate].
    destruct (mode =? "select").
    { intros ->. rewrite Hj. now exists this3. }
    destruct (mode =? "insert").
    { intros ->. rewrite Hj. now exists this3. }
    destruct (mode =? "delete").
    { intros ->. rewrite Hj. now exists this3. }
    destruct (mode =? "update"); [| discriminate].
    intros H. injection H as _ <-. rewrite Hj. now exists this3.
  - rewrite build_split. unfold bind at 1. rewrite Hstatement.
    unfold build_tail, bind at 1, gets. apply throws_bind_left.
    destruct (sql_where this1) eqn:E; [congruence |].
    apply buildWhere_throws. now rewrite E.
  - rewrite build_split. unfold bind at 1. rewrite Hstatement.
    unfold build_tail, bind at 1, gets. cbv beta.
    unfold where_clause, bind at 1, gets in Hclause. cbv beta in Hclause.
    unfold bind at 1. rewrite Hclause. apply throws_bind_left.
    assert (Hsame : same_clauses this1 this2).
    { pose proof (keeps_buildWhere this1) as Hk.
      destruct (sql_where this1).
      - injection Hclause as _ <-. apply same_clauses_refl.
      - now rewrite Hclause in Hk. }
    destruct (same_clauses_fields _ _ Hsame) as (_ & Hh & _).
    rewrite <- Hh.
    destruct (sql_having this2) eqn:E; [congruence |].
    apply buildHaving_throws. now rewrite E.
Qed.

(** C8.  A leaf whose operator is none of the sixteen known ones makes
    [processCondition] throw the unknown-clause error at once, the
    instance untouched and no text returned; in a condition list the
    elements before the leaf are compiled and the error then leaves
    [processConditions]; whenever such a leaf is among the conditions
    that [build] compiles (in [where], in [having] or in a join, at
    the top or inside groups), [build] ends in an exception and
    returns no query; and that exception is the unknown-clause error
    itself whenever the compilation gets as far as the leaf: it leaves
    [processConditions] from whatever depth of groups, and it leaves
    [build] when the conditions are those of a join, of [where] or of
    [having] and what [build] compiles before them has not thrown. *)
Theorem unknown_operator_fails (column operator value : JSValue)
        (Hop : known_operator operator = false) :
  (forall this,
      processCondition [column; operator; value] this = Throw unknown_clause this)
  /\ (forall depth before behind this,
        processConditions_at depth
          (VArr (before ++ VArr [column; operator; value] :: behind)) this
        = match processConditions_at depth (VArr before) this with
          | Ok _ this' => Throw unknown_clause this'
          | Throw e this' => Throw e this'
          end)
  /\ (forall this,
        compiles_leaf (VArr [column; operator; value]) this -> fails (build this))
  /\ (forall conditions this,
        reaches (VArr [column; operator; value]) conditions this ->
        throws unknown_clause (processConditions conditions this))
  /\ (forall conditions this this1,
        build_compiles conditions this this1 ->
        reaches (VArr [column; operator; value]) conditions this1 ->
        throws unknown_clause (build this)).
Proof.
  assert (Hleaf : forall depth this,
             process_item depth (VArr [column; operator; value]) this
             = Throw unknown_clause this)
    by (intros depth this; now apply unknown_leaf_item).
  assert (Hreach : forall conditions this,
             reaches (VArr [column; operator; value]) conditions this ->
             throws unknown_clause (processConditions conditions this)).
  { intros conditions this H. unfold processConditions.
    apply (reaches_throws _ _ Hleaf conditions this H). now left. }
  split; [| split; [| split; [| split]]].
  - intros this. now apply unknown_operator_throws.
  - intros depth before behind this.
    rewrite !processConditions_at_array, for_each_app.
    destruct (for_each before (process_item depth) this) as [p this1 | e this1];
      [| reflexivity].
    rewrite for_each_cons. now rewrite unknown_leaf_item.
  - intros this. apply build_fails. intros depth this'.
    exists unknown_clause, this'. now apply unknown_leaf_item.
  - exact Hreach.
  - intros conditions this this1 Hcompiles H.
    apply (build_propagates unknown_clause conditions this this1 Hcompiles).
    now apply Hreach.
Qed.

Lemma unknown_operator_fails_witness :
  known_operator (VStr "xor") = false
  /\ processCondition [VStr "user.id"; VStr "xor"; VStr "?"] names_builder
     = Throw unknown_clause names_builder
  /\ build_compiles (VArr (sql_where xor_builder)) xor_builder xor_builder
  /\ reaches xor_leaf (VArr (sql_where xor_builder)) xor_builder
  /\ throws unknown_clause (build xor_builder).
Proof.
  split; [reflexivity |].
  destruct (unknown_operator_fails (VStr "user.id") (VStr "xor") (VStr "?") eq_refl)
    as (Hleaf & _ & _ & _ & Hbuild).
  split; [apply Hleaf |].
  assert (Hcompiles : build_compiles (VArr (sql_where xor_builder))
                                     xor_builder xor_builder).
  { eapply (compiles_where xor_builder xor_builder).
    - vm_compute. reflexivity.
    - discriminate. }
  assert (Hreaches : reaches xor_leaf (VArr (sql_where xor_builder)) xor_builder).
  { eapply (reaches_group xor_leaf _ (VObj [("or", VArr [xor_leaf])])
              [VArr [VStr "user.active"; VStr "="; VNum 1]] []
              [("OR", VArr [xor_leaf])]).
    - reflexivity.
    - vm_compute. reflexivity.
    - reflexivity.
    - reflexivity.
    - eapply (reaches_here xor_leaf _ [] []).
      + reflexivity.
      + reflexivity. }
  split; [exact Hcompiles |]. split; [exact Hreaches |].
  exact (Hbuild _ _ _ Hcompiles Hreaches).
Defined.
